(** * Renormalizer: model assembly, operator cache and spectra job bookkeeping

    A shallow embedding of
      - [renormalizer/model/model.py]  ([Model], [HolsteinModel],
        [VibronicModel], [construct_j_matrix]; [SpinBosonModel] and
        [load_from_dict] are not needed below),
      - [renormalizer/spectra/base.py] ([SpectraTdMpsJobBase]),
      - [ephMPS/model/phonon.py]       ([Phonon.gs_mps]),
    followed by the properties established about them.

    Conventions.
      - Python exceptions are values of [exn]; a function that may raise
        returns a [result].
      - Python [int] is [Z]; list positions and loop counters that come from
        [enumerate]/[range] are [nat].
      - Python [float] is modelled by the canonical rationals [Qc].  Sums and
        products of coefficients are exact here (rounding is not modelled);
        the statements below only compare such values against constants.
        The tensors of [gs_mps] involve a square root and live in [R].
      - A [dict] whose iteration order is observable is a [pydict]: an
        association list in insertion order with unique keys.  The operator
        cache [mpos], only ever looked up and inserted into, is a [gmap]. *)

From Stdlib Require Import ZArith QArith Qcanon Reals Lia Lra Ascii String.
From stdpp Require Import base option list gmap strings pretty sorting.

Open Scope Z_scope.

(** ** Python runtime: exceptions and results *)

Inductive exn : Type :=
  | AssertionError
  | ValueError (msg : string)
  | KeyError
  | IndexError
  | TypeError
  | AttributeError
  | OverflowError.

Inductive result (A : Type) : Type :=
  | Ok (a : A)
  | Raise (e : exn).
Arguments Ok {A} a.
Arguments Raise {A} e.

#[global] Instance result_ret : MRet result := fun _ a => Ok a.
#[global] Instance result_bind : MBind result := fun _ _ f m =>
  match m with
  | Ok a => f a
  | Raise e => Raise e
  end.

#[global] Instance result_fmap : FMap result := fun _ _ f m =>
  match m with
  | Ok a => Ok (f a)
  | Raise e => Raise e
  end.

Definition is_Ok {A} (r : result A) : Prop := exists a, r = Ok a.
Definition raises {A} (r : result A) : Prop := exists e, r = Raise e.

(** [assert c] *)
Definition py_assert (c : bool) : result unit :=
  if c then Ok tt else Raise AssertionError.

(** ** Python [dict] with insertion order *)

Definition pydict (K V : Type) : Type := list (K * V).

Section PyDict.
Context {K V : Type} `{EqDecision K}.

(** [d[k]] as an option: [None] stands for [KeyError]. *)
Fixpoint dict_get (k : K) (d : pydict K V) : option V :=
  match d with
  | [] => None
  | (k', v) :: d' => if decide (k' = k) then Some v else dict_get k d'
  end.

(** [d[k] = v]: an existing key keeps its position, a new key goes last. *)
Fixpoint dict_set (k : K) (v : V) (d : pydict K V) : pydict K V :=
  match d with
  | [] => [(k, v)]
  | (k', v') :: d' =>
      if decide (k' = k) then (k, v) :: d' else (k', v') :: dict_set k v d'
  end.

Definition dict_keys (d : pydict K V) : list K := d.*1.
Definition dict_values (d : pydict K V) : list V := d.*2.

(** [d[k]] with [KeyError]. *)
Definition dict_getitem (k : K) (d : pydict K V) : result V :=
  match dict_get k d with
  | Some v => Ok v
  | None => Raise KeyError
  end.
End PyDict.

(** [enumerate(l, start)] *)
Fixpoint enumerate_from {A} (start : nat) (l : list A) : list (nat * A) :=
  match l with
  | [] => []
  | x :: l' => (start, x) :: enumerate_from (S start) l'
  end.
Definition enumerate {A} (l : list A) : list (nat * A) := enumerate_from 0 l.

(** A [for] loop whose body may raise. *)
Fixpoint for_each {A S} (body : S -> A -> result S) (l : list A) (s : S)
  : result S :=
  match l with
  | [] => Ok s
  | x :: l' => s' ← body s x; for_each body l' s'
  end.

(** ** Spectra job ([renormalizer/spectra/base.py]) *)

Module Spectra.
Section Job.
(** Collaborators that are not part of [base.py]: the molecule list, the
    temperature and evolution configuration are opaque; a bra-ket pair
    exposes its overlap sample [ft]; [Mpo(mol_list, offset=offset)] and the
    base-class initialiser [TdMpsJob.__init__] may raise. *)
Context {MolList Temperature EvolveConfig Offset MpoT Sample BraKetPair : Type}.
Variable Mpo : MolList -> Offset -> result MpoT.
Variable ft : BraKetPair -> Sample.

Record SpectraTdMpsJobBase : Type := mkJob {
  mol_list : MolList;
  spectratype : string;
  nexciton : Z;
  temperature : Temperature;
  h_mpo : MpoT;
  _autocorr : list Sample;
  }.

Variable TdMpsJob_init :
  option EvolveConfig -> SpectraTdMpsJobBase -> result SpectraTdMpsJobBase.

(** Lines 20-29 of [__init__]: the attribute assignments. *)
Definition init_fields (mol_list0 : MolList) (spectratype0 : string)
    (temperature0 : Temperature) (offset : Offset)
  : result SpectraTdMpsJobBase :=
  _ ← py_assert (bool_decide (spectratype0 ∈ ["emi"; "abs"]));
  let nexciton0 := if decide (spectratype0 = "emi") then 1 else 0 in
  h ← Mpo mol_list0 offset;
  Ok (mkJob mol_list0 spectratype0 nexciton0 temperature0 h []).

Definition __init__ (mol_list0 : MolList) (spectratype0 : string)
    (temperature0 : Temperature) (evolve_config : option EvolveConfig)
    (offset : Offset) : result SpectraTdMpsJobBase :=
  self ← init_fields mol_list0 spectratype0 temperature0 offset;
  TdMpsJob_init evolve_config self.

Definition process_mps (self : SpectraTdMpsJobBase) (braket_pair : BraKetPair)
  : SpectraTdMpsJobBase :=
  mkJob (mol_list self) (spectratype self) (nexciton self) (temperature self)
        (h_mpo self) (_autocorr self ++ [ft braket_pair]).

(** [np.array(self._autocorr)]: a one-dimensional array is its list. *)
Definition autocorr (self : SpectraTdMpsJobBase) : list Sample :=
  _autocorr self.

(** The per-step callback invoked once per completed step, in step order. *)
Definition run_steps (self : SpectraTdMpsJobBase) (pairs : list BraKetPair)
  : SpectraTdMpsJobBase :=
  fold_left process_mps pairs self.
End Job.
End Spectra.

(** ** Values used by [model.py] *)

(** Modelled from the spec: [renormalizer.utils.Op], a local operator named
    by its symbol together with the quantum number it carries. *)
Record Op : Type := mkOp { symbol : string; qn : Z }.

(** One element of an operator term: the tuple [(Op_1, ..., Op_k, factor)]
    is the list of its elements, so tuple concatenation [+] is [++]. *)
Inductive term_elem : Type :=
  | TOp (o : Op)
  | TNum (c : Qc).

Definition term : Type := list term_elem.

(** Modelled from the spec: the local bases of [renormalizer.utils.basis]
    (simple two-level electron, harmonic oscillator with frequency and
    truncation level, half spin, and the vacuum-plus-occupation basis that
    spans several electronic DoFs on one site), with the three attributes
    [Model] reads. *)
Inductive BasisSet : Type :=
  | BasisSimpleElectron
  | BasisSHO (omega : Qc) (nbas : Z)
  | BasisHalfSpin
  | BasisMultiElectronVac (n_e : nat).

Definition multi_dof (b : BasisSet) : bool :=
  match b with
  | BasisMultiElectronVac _ => true
  | _ => false
  end.

Definition nbas (b : BasisSet) : Z :=
  match b with
  | BasisSimpleElectron => 2
  | BasisSHO _ n => n
  | BasisHalfSpin => 2
  | BasisMultiElectronVac n_e => Z.of_nat n_e + 1
  end.

Definition is_electron (b : BasisSet) : bool :=
  match b with
  | BasisSHO _ _ => false
  | _ => true
  end.

(** Modelled from the spec: [renormalizer.utils.Quantity], a number with a
    unit of which only the value in atomic units is read. *)
Record Quantity : Type := mkQuantity { as_au : Qc }.

(** Modelled from the spec: the vibrational mode of
    [renormalizer.model.mol]: frequencies and displacements on the two
    electronic surfaces, the cubic force constants on the two surfaces and
    the size of the occupation-number basis. *)
Module Phonon.
Record t : Type := mk {
  omega : Qc * Qc;
  dis : Qc * Qc;
  force3rd : Qc * Qc;
  n_phys_dim : Z;
}.
End Phonon.

(** Modelled from the spec: a molecule of [renormalizer.model.mol]. *)
Module Mol.
Record t : Type := mk {
  elocalex : Qc;
  e0 : Qc;
  ph_list : list Phonon.t;
  dipole : Qc;
  gs_zpe : Qc;
}.
End Mol.

(** *** numpy helpers *)

Definition ndarray2 : Type := list (list Qc).

(** The position a Python index denotes in a sequence of length [len]. *)
Definition py_index (len : nat) (i : Z) : option nat :=
  if decide (0 <= i < Z.of_nat len) then Some (Z.to_nat i)
  else if decide (- Z.of_nat len <= i < 0) then Some (Z.to_nat (Z.of_nat len + i))
  else None.

Definition py_list_get {A} (l : list A) (i : Z) : result A :=
  match py_index (length l) i with
  | Some n => match l !! n with Some x => Ok x | None => Raise IndexError end
  | None => Raise IndexError
  end.

Definition py_list_set {A} (l : list A) (i : Z) (x : A) : result (list A) :=
  match py_index (length l) i with
  | Some n => Ok (<[n := x]> l)
  | None => Raise IndexError
  end.

(** [a[i, j]] *)
Definition mat_get (a : ndarray2) (i j : Z) : result Qc :=
  row ← py_list_get a i; py_list_get row j.

(** [a[i, j] = x] *)
Definition mat_set (a : ndarray2) (i j : Z) (x : Qc) : result ndarray2 :=
  row ← py_list_get a i;
  row' ← py_list_set row j x;
  py_list_set a i row'.

Definition mat_build (n : nat) (f : nat -> nat -> Qc) : ndarray2 :=
  (fun i => f i <$> seq 0 n) <$> seq 0 n.

(** [np.diag(v, k)] for a vector [v]; [k = -1] is the sub-diagonal and
    [k = 1] the super-diagonal of a square matrix of size [len(v) + 1]. *)
Definition np_diag (v : list Qc) (k : Z) : ndarray2 :=
  mat_build (length v + Z.abs_nat k)
    (fun i j =>
       if decide (Z.of_nat j - Z.of_nat i = k)
       then default 0%Qc (v !! Nat.min i j)
       else 0%Qc).

Definition mat_add (a b : ndarray2) : ndarray2 :=
  zip_with (zip_with Qcplus) a b.

Definition ravel (a : ndarray2) : list Qc := concat a.

(** The float64 nearest to [1e-8] and to [1e-5], the default [atol] and
    [rtol] of [np.allclose]. *)
Definition atol : Qc := Q2Qc (3022314549036573 # 302231454903657293676544).
Definition rtol : Qc := Q2Qc (5902958103587057 # 590295810358705651712).

Definition Qcabs (x : Qc) : Qc := if decide (x < 0)%Qc then (- x)%Qc else x.

(** [np.isclose(a, b)] on scalars: [|a - b| <= atol + rtol * |b|]. *)
Definition np_isclose (a b : Qc) : bool :=
  bool_decide (Qcabs (a - b) <= atol + rtol * Qcabs b)%Qc.

(** [np.allclose(np.array(p), [b0, b1])] for a pair [p]. *)
Definition np_allclose2 (p : Qc * Qc) (b : Qc * Qc) : bool :=
  np_isclose p.1 b.1 && np_isclose p.2 b.2.

(** The reals of magnitude at least [2^1024 - 2^970] have no finite float64
    nearest to them. *)
Definition float_overflow : Qc := Q2Qc ((2 ^ 1024 - 2 ^ 970)%Z # 1).

(** [x ** 2] on a Python float: OverflowError when the square is out of the
    range of float64; the square is kept exact otherwise. *)
Definition py_float_sq (x : Qc) : result Qc :=
  if decide (x * x < float_overflow)%Qc then Ok (x * x)%Qc
  else Raise OverflowError.

(** *** String helpers *)

(** [s.split(sep)] for a one-character separator. *)
Fixpoint str_split (sep : ascii) (s : string) : list string :=
  match s with
  | EmptyString => [EmptyString]
  | String c s' =>
      if Ascii.eqb c sep then EmptyString :: str_split sep s'
      else match str_split sep s' with
           | [] => [String c EmptyString]
           | p :: ps => String c p :: ps
           end
  end.

Definition digit_of (c : ascii) : option Z :=
  let n := Z.of_N (N_of_ascii c) in
  if decide (48 <= n <= 57) then Some (n - 48) else None.

Fixpoint digits_value (acc : Z) (s : string) : option Z :=
  match s with
  | EmptyString => Some acc
  | String c s' => d ← digit_of c; digits_value (10 * acc + d) s'
  end.

(** [int(s)] on ASCII decimal literals with an optional sign; anything else
    is reported as [ValueError] (surrounding blanks, digit separators and
    non-ASCII digits, which Python also accepts, are not modelled). *)
Definition py_int (s : string) : result Z :=
  let parse (body : string) :=
    match body with
    | EmptyString => None
    | _ => digits_value 0 body
    end in
  let r :=
    match s with
    | String "-" body => Z.opp <$> parse body
    | String "+" body => parse body
    | _ => parse s
    end in
  match r with
  | Some z => Ok z
  | None => Raise (ValueError "invalid literal for int() with base 10")
  end.

(** [f"{p}_{i}"] *)
Definition dof_name (p : string) (i : nat) : string := p +:+ "_" +:+ pretty i.

(** ** [Model] *)

Inductive order_arg : Type :=
  | OrderDict (d : pydict string Z)
  | OrderList (l : list string).

Inductive basis_arg : Type :=
  | BasisList (l : list BasisSet)
  | BasisDict (d : pydict string BasisSet).

Section ModelDef.
(** The keys and the values of the operator cache [self.mpos]. *)
Context {CacheKey : Type} `{Countable CacheKey} {Mpos : Type}.

Record Model : Type := mkModel {
  order : pydict string Z;
  basis : list BasisSet;
  multi_dof_basis : bool;
  model : pydict (list string) (list term);
  dipole : option (pydict (list string) Qc);
  mpos : gmap CacheKey Mpos;
  _pbond_list : list Z;
}.

(** [min(s)] and [max(s)] of a set of integers; both raise [ValueError] on
    the empty set. *)
Definition py_min (l : list Z) : result Z :=
  match l with
  | [] => Raise (ValueError "min() arg is an empty sequence")
  | x :: l' => Ok (foldr Z.min x l')
  end.

Definition py_max (l : list Z) : result Z :=
  match l with
  | [] => Raise (ValueError "max() arg is an empty sequence")
  | x :: l' => Ok (foldr Z.max x l')
  end.

(** The [else] branch of the [basis] dispatch, lines 69-75: validate the
    order values, allocate [[None] * (max + 1)] and fill it. *)
Definition basis_from_dict (self_order : pydict string Z)
    (basis0 : pydict string BasisSet) : result (list (option BasisSet)) :=
  let order_value_set : gset Z := list_to_set (dict_values self_order) in
  mn ← py_min (elements order_value_set);
  mx ← py_max (elements order_value_set);
  if negb (bool_decide (mn = 0))
     || negb (bool_decide (mx = Z.of_nat (size order_value_set) - 1))
  then Raise (ValueError "order is not continuous integers from 0")
  else
    top ← py_max (dict_values self_order);
    for_each
      (fun slots '(dof, dof_idx) =>
         b ← dict_getitem dof basis0;
         py_list_set slots dof_idx (Some b))
      self_order
      (replicate (Z.to_nat (top + 1)) None).

(** Reading [b.multi_dof] and [bas.nbas] of every entry of [self.basis]
    (lines 77-82 and 90) raises [AttributeError] on a [None] slot. *)
Fixpoint check_slots (slots : list (option BasisSet)) : result (list BasisSet) :=
  match slots with
  | [] => Ok []
  | None :: _ => Raise AttributeError
  | Some b :: slots' => bs ← check_slots slots'; Ok (b :: bs)
  end.

Definition Model_init (order0 : order_arg) (basis0 : basis_arg)
    (model0 : pydict (list string) (list term))
    (dipole0 : option (pydict (list string) Qc)) : result Model :=
  let self_order :=
    match order0 with
    | OrderDict d => d
    | OrderList l =>
        fold_left (fun d '(i, o) => dict_set o (Z.of_nat i) d) (enumerate l) []
    end in
  slots ← match basis0 with
          | BasisList l => Ok (Some <$> l)
          | BasisDict d => basis_from_dict self_order d
          end;
  self_basis ← check_slots slots;
  Ok {| order := self_order;
        basis := self_basis;
        multi_dof_basis := existsb multi_dof self_basis;
        model := model0;
        dipole := dipole0;
        mpos := ∅;
        _pbond_list := nbas <$> self_basis |}.

Definition pbond_list (self : Model) : list Z := _pbond_list self.
Definition dofs (self : Model) : list string := dict_keys (order self).
Definition nsite (self : Model) : nat := length (basis self).

(** The body shared by [e_dofs] and [v_dofs]: collect the indices of the
    keys whose part before the first underscore is [p], check that they are
    [0 .. n-1], and rebuild the names. *)
Definition dofs_of_kind (p : string) (self : Model) : result (list string) :=
  idxs ← for_each
    (fun acc key =>
       let parts := str_split "_" key in
       if decide (parts !! 0%nat = Some p) then
         match parts !! 1%nat with
         | Some t => n ← py_int t; Ok (acc ++ [n])
         | None => Raise IndexError
         end
       else Ok acc)
    (dict_keys (order self)) [];
  _ ← py_assert
        (bool_decide (merge_sort Z.le idxs = Z.of_nat <$> seq 0 (length idxs)));
  Ok (dof_name p <$> seq 0 (length idxs)).

Definition e_dofs : Model -> result (list string) := dofs_of_kind "e".
Definition v_dofs : Model -> result (list string) := dofs_of_kind "v".
Definition n_edofs (self : Model) : result nat := length <$> e_dofs self.
Definition n_vdofs (self : Model) : result nat := length <$> v_dofs self.

Definition set_mpos (self : Model) (c : gmap CacheKey Mpos) : Model :=
  {| order := order self; basis := basis self;
     multi_dof_basis := multi_dof_basis self; model := model self;
     dipole := dipole self; mpos := c; _pbond_list := _pbond_list self |}.

(** What a builder can do with the live model it is handed: return the
    operators it built or raise, read the object, update it (any attribute,
    in particular store into or delete from [self.mpos]), and call
    [self.get_mpos] itself, going on with what that call returned or
    raised. *)
Inductive builder : Type :=
  | BReturn (mpos0 : Mpos)
  | BRaise (e : exn)
  | BRead (k : Model -> builder)
  | BUpdate (f : Model -> Model) (k : builder)
  | BGetMpos (key : CacheKey) (fun_ : builder) (k : result Mpos -> builder).

(** The body of [get_mpos(key, fun)], [call] being what [fun(self)] does to
    the model.  The builder runs on the live object, so the assignment
    [self.mpos[key] = mpos] is made to the cache as the builder left it; when
    the builder raises, the exception leaves [get_mpos] before that
    assignment.  The third component lists the builder invocations the call
    made, each with whether it returned, in the sequence in which they
    ended: it is empty when the cached value was returned. *)
Definition get_mpos_body (key : CacheKey)
    (call : Model -> result Mpos * Model * list (CacheKey * bool)) (self : Model)
  : result Mpos * Model * list (CacheKey * bool) :=
  match mpos self !! key with
  | None =>
      let '(r, self1, inv) := call self in
      match r with
      | Ok mpos0 =>
          (Ok mpos0, set_mpos self1 (<[key := mpos0]> (mpos self1)),
           inv ++ [(key, true)])
      | Raise e => (Raise e, self1, inv ++ [(key, false)])
      end
  | Some mpos0 => (Ok mpos0, self, [])
  end.

(** [fun(self)]: what the builder returns or raises, the model as it leaves
    it, and the builder invocations of the [get_mpos] calls it made. *)
Fixpoint call_builder (fun_ : builder) (self : Model)
  : result Mpos * Model * list (CacheKey * bool) :=
  match fun_ with
  | BReturn mpos0 => (Ok mpos0, self, [])
  | BRaise e => (Raise e, self, [])
  | BRead k => call_builder (k self) self
  | BUpdate f k => call_builder k (f self)
  | BGetMpos key g k =>
      let '(r, self1, inv1) := get_mpos_body key (call_builder g) self in
      let '(r2, self2, inv2) := call_builder (k r) self1 in
      (r2, self2, inv1 ++ inv2)
  end.

(** [get_mpos(key, fun)] *)
Definition get_mpos (key : CacheKey) (fun_ : builder) (self : Model)
  : result Mpos * Model * list (CacheKey * bool) :=
  get_mpos_body key (call_builder fun_) self.

(** A builder that neither changes [self.mpos] nor builds anything through
    [get_mpos]: whatever the model, it leaves the cache as it found it and
    makes no builder invocation. *)
Definition leaves_cache_alone (fun_ : builder) : Prop :=
  forall self,
    mpos (call_builder fun_ self).1.2 = mpos self
    /\ (call_builder fun_ self).2 = [].

(** A builder that returns, whatever the model. *)
Definition returns (fun_ : builder) : Prop :=
  forall self, is_Ok (call_builder fun_ self).1.1.

(** A sequence of [get_mpos] calls on one model (a caller that catches what
    a call raises and goes on), with the invocations made along the way. *)
Fixpoint run_get_mpos (calls : list (CacheKey * builder))
    (self : Model) : Model * list (CacheKey * bool) :=
  match calls with
  | [] => (self, [])
  | (key, fun_) :: calls' =>
      let '(_, self', inv) := get_mpos key fun_ self in
      let '(self'', inv') := run_get_mpos calls' self' in
      (self'', inv ++ inv')
  end.

(** In a list of invocations: once a builder has returned for a key, no
    builder is invoked for that key again. *)
Fixpoint once_built (inv : list (CacheKey * bool)) : Prop :=
  match inv with
  | [] => True
  | (key, returned) :: inv' =>
      (returned = true -> key ∉ inv'.*1) /\ once_built inv'
  end.
(** The invariant of a list of invocations made between two states of the
    cache: cached entries stay, builders are invoked for uncached keys only,
    a key whose builder returned is cached afterwards. *)
Definition cache_step (self self' : Model) (inv : list (CacheKey * bool)) : Prop :=
  (forall k v, mpos self !! k = Some v -> mpos self' !! k = Some v)
  /\ (forall k, k ∈ inv.*1 -> mpos self !! k = None)
  /\ (forall k, (k, true) ∈ inv -> is_Some (mpos self' !! k))
  /\ once_built inv.
End ModelDef.

(** ** [HolsteinModel] *)

Inductive j_arg : Type :=
  | JNone
  | JQuantity (q : Quantity)
  | JArray (a : ndarray2).

(** Nearest-neighbour coupling matrix.  [np.ones(mol_num - 1)] raises on a
    negative length. *)
Definition construct_j_matrix (mol_num : nat) (j_constant : Quantity)
    (periodic : bool) : result ndarray2 :=
  let j_constant_au := as_au j_constant in
  if decide (mol_num = 0%nat)
  then Raise (ValueError "negative dimensions are not allowed")
  else
    let j_list := replicate (mol_num - 1) (1 * j_constant_au)%Qc in
    let j_matrix := mat_add (np_diag j_list (-1)) (np_diag j_list 1) in
    if periodic then
      m ← mat_set j_matrix (-1) 0 j_constant_au;
      mat_set m 0 (-1) j_constant_au
    else Ok j_matrix.

Module HolsteinModel.
Record t {CacheKey : Type} `{Countable CacheKey} {Mpos : Type} : Type := mk {
  to_Model : @Model CacheKey _ _ Mpos;
  mol_list : list Mol.t;
  j_matrix : ndarray2;
  scheme : Z;
  periodic : bool;
  map : pydict (nat * nat) string;
  mol_num : nat;
}.
End HolsteinModel.

(** The local variables of the layout loops, lines 180-222. *)
Record layout : Type := mkLayout {
  lay_order : pydict string Z;
  lay_basis : list BasisSet;
  lay_mapping : pydict (nat * nat) string;
  lay_idx : nat;
  lay_nv : nat;
  lay_n_left_ph : nat;
}.

Definition layout_init : layout := mkLayout [] [] [] 0 0 0.

Definition sho_basis (ph : Phonon.t) : BasisSet :=
  BasisSHO (Phonon.omega ph).1 (Phonon.n_phys_dim ph).

(** Lines 185-197. *)
Definition layout_ph123 (imol : nat) (st : layout) (x : nat * Phonon.t) : layout :=
  let '(iph, ph) := x in
  let v := dof_name "v" (lay_nv st) in
  mkLayout (dict_set v (Z.of_nat (lay_idx st)) (lay_order st))
           (lay_basis st ++ [sho_basis ph])
           (dict_set (imol, iph) v (lay_mapping st))
           (S (lay_idx st)) (S (lay_nv st)) (lay_n_left_ph st).

Definition layout_mol123 (st : layout) (x : nat * Mol.t) : layout :=
  let '(imol, mol) := x in
  let st1 :=
    mkLayout (dict_set (dof_name "e" imol) (Z.of_nat (lay_idx st)) (lay_order st))
             (lay_basis st ++ [BasisSimpleElectron])
             (lay_mapping st)
             (S (lay_idx st)) (lay_nv st) (lay_n_left_ph st) in
  fold_left (layout_ph123 imol) (enumerate (Mol.ph_list mol)) st1.

Definition layout_scheme123 (mol_list : list Mol.t) : layout :=
  fold_left layout_mol123 (enumerate mol_list) layout_init.

(** Lines 199-222. *)
Definition layout_ph4 (n_left_mol imol : nat) (st : layout) (x : nat * Phonon.t)
  : layout :=
  let '(iph, ph) := x in
  let v := dof_name "v" (lay_nv st) in
  let left := bool_decide (imol < n_left_mol)%nat in
  mkLayout
    (dict_set v (if left then Z.of_nat (lay_idx st) else Z.of_nat (lay_idx st) + 1)
              (lay_order st))
    (lay_basis st ++ [sho_basis ph])
    (dict_set (imol, iph) v (lay_mapping st))
    (S (lay_idx st)) (S (lay_nv st))
    (if left then S (lay_n_left_ph st) else lay_n_left_ph st).

Definition layout_mol4 (n_left_mol : nat) (st : layout) (x : nat * Mol.t) : layout :=
  let '(imol, mol) := x in
  fold_left (layout_ph4 n_left_mol imol) (enumerate (Mol.ph_list mol)) st.

(** [l.insert(i, x)] for [0 <= i]; past the end it appends. *)
Definition list_insert_at {A} (i : nat) (x : A) (l : list A) : list A :=
  take i l ++ x :: drop i l.

Definition layout_scheme4 (mol_list : list Mol.t) : layout :=
  let mol_num := length mol_list in
  let n_left_mol := (mol_num / 2)%nat in
  let st := fold_left (layout_mol4 n_left_mol) (enumerate mol_list) layout_init in
  let n_left_ph := lay_n_left_ph st in
  let order1 :=
    fold_left (fun o imol => dict_set (dof_name "e" imol) (Z.of_nat n_left_ph) o)
              (seq 0 mol_num) (lay_order st) in
  mkLayout order1
           (list_insert_at n_left_ph (BasisMultiElectronVac mol_num) (lay_basis st))
           (lay_mapping st) (lay_idx st) (lay_nv st) n_left_ph.

Definition layout_of_scheme (scheme : Z) (mol_list : list Mol.t) : result layout :=
  if decide (scheme < 4) then Ok (layout_scheme123 mol_list)
  else if decide (scheme = 4) then Ok (layout_scheme4 mol_list)
  else Raise (ValueError ("invalid model.scheme: " +:+ pretty scheme)).

Definition OpNumber : Op := mkOp "a^\dagger a" 0.
Definition OpRaise : Op := mkOp "a^\dagger" 1.
Definition OpLower : Op := mkOp "a" (-1).

Definition Qc_half : Qc := Q2Qc (1 # 2).

(** Lines 229-237: the electronic terms. *)
Definition electronic_terms (mol_list : list Mol.t) (j_matrix : ndarray2)
    (model0 : pydict (list string) (list term))
  : result (pydict (list string) (list term)) :=
  let mol_num := length mol_list in
  for_each
    (fun m imol =>
       for_each
         (fun m jmol =>
            if decide (imol = jmol) then
              mol ← py_list_get mol_list (Z.of_nat imol);
              Ok (dict_set [dof_name "e" imol]
                    [[TOp OpNumber; TNum (Mol.elocalex mol + Mol.e0 mol)%Qc]] m)
            else
              j ← mat_get j_matrix (Z.of_nat imol) (Z.of_nat jmol);
              Ok (dict_set [dof_name "e" imol; dof_name "e" jmol]
                    [[TOp OpRaise; TOp OpLower; TNum j]] m))
         (seq 0 mol_num) m)
    (seq 0 mol_num) model0.

(** Lines 239-246: the harmonic part of every mode, guarded by the
    assertion on its cubic force constants.  The value assigned is evaluated
    before the key [mapping[(imol, iph)]]. *)
Definition vibration_terms (mol_list : list Mol.t)
    (mapping : pydict (nat * nat) string)
    (model0 : pydict (list string) (list term))
  : result (pydict (list string) (list term)) :=
  for_each
    (fun m '(imol, mol) =>
       for_each
         (fun m '(iph, ph) =>
            _ ← py_assert (np_allclose2 (Phonon.force3rd ph) (0, 0)%Qc);
            w0sq ← py_float_sq (Phonon.omega ph).1;
            v ← dict_getitem (imol, iph) mapping;
            Ok (dict_set [v]
                  [[TOp (mkOp "p^2" 0); TNum Qc_half];
                   [TOp (mkOp "x^2" 0); TNum (Qc_half * w0sq)%Qc]] m))
         (enumerate (Mol.ph_list mol)) m)
    (enumerate mol_list) model0.

(** Lines 249-259: the electron-vibration coupling.  The values assigned
    are evaluated before the key; [ph.omega[1] ** 2], which the second
    branch evaluates twice, is evaluated first in both branches. *)
Definition potential_terms (mol_list : list Mol.t)
    (mapping : pydict (nat * nat) string)
    (model0 : pydict (list string) (list term))
  : result (pydict (list string) (list term)) :=
  for_each
    (fun m '(imol, mol) =>
       for_each
         (fun m '(iph, ph) =>
            let w0 := (Phonon.omega ph).1 in
            let w1 := (Phonon.omega ph).2 in
            let d1 := (Phonon.dis ph).2 in
            let linear w1sq :=
              [TOp OpNumber; TOp (mkOp "x" 0); TNum (- w1sq * d1)%Qc] in
            if np_isclose w0 w1 then
              w1sq ← py_float_sq w1;
              v ← dict_getitem (imol, iph) mapping;
              Ok (dict_set [dof_name "e" imol; v] [linear w1sq] m)
            else
              w1sq ← py_float_sq w1;
              w0sq ← py_float_sq w0;
              v ← dict_getitem (imol, iph) mapping;
              Ok (dict_set [dof_name "e" imol; v]
                    [[TOp OpNumber; TOp (mkOp "x^2" 0);
                      TNum (Qc_half * (w1sq - w0sq))%Qc];
                     linear w1sq] m))
         (enumerate (Mol.ph_list mol)) m)
    (enumerate mol_list) model0.

Definition dipole_of (mol_list : list Mol.t) : pydict (list string) Qc :=
  fold_left (fun d '(imol, mol) => dict_set [dof_name "e" imol] (Mol.dipole mol) d)
            (enumerate mol_list) [].

(** Lines 164-174: normalising the coupling argument. *)
Definition coupling_matrix (mol_num : nat) (j_matrix : j_arg) (periodic : bool)
  : result ndarray2 :=
  j1 ← match j_matrix with
        | JNone => _ ← py_assert (bool_decide (mol_num = 1%nat));
                   Ok (JQuantity (mkQuantity 0%Qc))
        | _ => Ok j_matrix
        end;
  match j1 with
  | JQuantity q => construct_j_matrix mol_num q periodic
  | JArray a =>
      _ ← (if periodic then
             r0 ← py_list_get a 0;
             x ← py_list_get r0 (-1);
             if bool_decide (x <> 0%Qc) then
               r1 ← py_list_get a (-1);
               y ← py_list_get r1 0;
               py_assert (bool_decide (y <> 0%Qc))
             else Raise AssertionError
           else Ok tt);
      _ ← py_assert (bool_decide (length a = mol_num));
      Ok a
  | JNone => Raise AssertionError
  end.

Section HolsteinDef.
Context {CacheKey : Type} `{Countable CacheKey} {Mpos : Type}.

Definition HolsteinModel_init (mol_list : list Mol.t) (j_matrix : j_arg)
    (scheme : Z) (periodic : bool) : result (@HolsteinModel.t CacheKey _ _ Mpos) :=
  let mol_num := length mol_list in
  jm ← coupling_matrix mol_num j_matrix periodic;
  lay ← layout_of_scheme scheme mol_list;
  m1 ← electronic_terms mol_list jm [];
  m2 ← vibration_terms mol_list (lay_mapping lay) m1;
  m3 ← potential_terms mol_list (lay_mapping lay) m2;
  self ← Model_init (OrderDict (lay_order lay)) (BasisList (lay_basis lay)) m3
                    (Some (dipole_of mol_list));
  n ← n_edofs self;
  Ok (HolsteinModel.mk _ _ _ _ self mol_list jm scheme periodic (lay_mapping lay) n).

Definition switch_scheme (self : @HolsteinModel.t CacheKey _ _ Mpos) (scheme : Z)
  : result (@HolsteinModel.t CacheKey _ _ Mpos) :=
  HolsteinModel_init (HolsteinModel.mol_list self)
                     (JArray (HolsteinModel.j_matrix self)) scheme false.

(** [set.pop()] *)
Definition set_pop (s : gset Qc) : result Qc :=
  match elements s with
  | [] => Raise KeyError
  | x :: _ => Ok x
  end.

Definition j_constant (self : @HolsteinModel.t CacheKey _ _ Mpos) : result Qc :=
  let j_set : gset Qc := list_to_set (ravel (HolsteinModel.j_matrix self)) in
  if decide (size j_set = 0%nat) then set_pop j_set
  else if decide (size j_set = 2%nat /\ 0%Qc ∈ j_set) then
    set_pop (j_set ∖ {[ 0%Qc ]})
  else Raise (ValueError "J is not constant").
End HolsteinDef.

(** ** [VibronicModel] *)

(** The input term table, in the format of the class docstring.  An entry of
    the sub-dictionary of an electronic key is either ["J"] with a scalar or
    a tuple of vibrational DoFs with a list of operator terms; the
    sub-dictionary of the key ["I"] has only entries of the second kind.
    Both levels are dictionaries, listed in iteration order. *)
Inductive sub_entry : Type :=
  | SubJ (vv : Qc)
  | SubDofs (kk : list string) (vv : list term).

Inductive vibronic_entry : Type :=
  | PureVib (e_v : pydict (list string) (list term))
  | Electronic (e_k : list string) (e_v : list sub_entry).

(** [new_model[k].append(v)] on a [defaultdict(list)]. *)
Definition dd_append (k : list string) (v : term)
    (d : pydict (list string) (list term)) : pydict (list string) (list term) :=
  dict_set k (default [] (dict_get k d) ++ [v]) d.

(** [new_model[k]] on a [defaultdict(list)], as a value. *)
Definition dd_get (k : list string) (d : pydict (list string) (list term))
  : list term :=
  default [] (dict_get k d).

(** Lines 346-361: one entry of the sub-dictionary of an electronic key. *)
Definition translate_sub (e_k : list string)
    (new_model : pydict (list string) (list term)) (e : sub_entry)
  : result (pydict (list string) (list term)) :=
  _ ← py_assert (bool_decide (length e_k = 2%nat));
  let '(new_e_k, e_op) :=
    if decide (e_k !! 0%nat = e_k !! 1%nat)
    then (take 1 e_k, [TOp OpNumber])
    else (e_k, [TOp OpRaise; TOp OpLower]) in
  match e with
  | SubJ vv => Ok (dict_set new_e_k [e_op ++ [TNum vv]] new_model)
  | SubDofs kk vv =>
      Ok (fold_left
            (fun nm term0 =>
               let new_key := new_e_k ++ kk in
               let new_value := e_op ++ term0 in
               dd_append new_key new_value nm)
            vv new_model)
  end.

(** Lines 337-361: one entry of the outer dictionary. *)
Definition translate_entry (new_model : pydict (list string) (list term))
    (e : vibronic_entry) : result (pydict (list string) (list term)) :=
  match e with
  | PureVib e_v =>
      Ok (fold_left (fun nm '(kk, vv) => dict_set kk vv nm) e_v new_model)
  | Electronic e_k e_v => for_each (translate_sub e_k) e_v new_model
  end.

Definition vibronic_new_model (model0 : list vibronic_entry)
  : result (pydict (list string) (list term)) :=
  for_each translate_entry model0 [].

Section VibronicDef.
Context {CacheKey : Type} `{Countable CacheKey} {Mpos : Type}.

Definition VibronicModel_init (order0 : order_arg) (basis0 : basis_arg)
    (model0 : list vibronic_entry) (dipole0 : option (pydict (list string) Qc))
  : result (@Model CacheKey _ _ Mpos) :=
  new_model ← vibronic_new_model model0;
  Model_init order0 basis0 new_model dipole0.
End VibronicDef.

(** *** The documented format of the input table

    The class docstring fixes the shape of the table: the outer keys other
    than ["I"] are pairs of electronic DoFs, the tuple sub-keys are non-empty
    tuples of vibrational DoFs, and both levels are dictionaries (no key
    occurs twice).  A DoF is electronic or vibrational by the part of its
    name before the first underscore, as in [e_dofs] and [v_dofs]. *)

Definition is_e_dof (s : string) : Prop := str_split "_" s !! 0%nat = Some "e".
Definition is_v_dof (s : string) : Prop := str_split "_" s !! 0%nat = Some "v".

#[global] Instance is_e_dof_dec (s : string) : Decision (is_e_dof s).
Proof. unfold is_e_dof. apply _. Defined.

Definition vib_key (kk : list string) : Prop := kk <> [] /\ Forall is_v_dof kk.

(** The outer key of an entry: [None] stands for ["I"]. *)
Definition entry_key (e : vibronic_entry) : option (list string) :=
  match e with
  | PureVib _ => None
  | Electronic e_k _ => Some e_k
  end.

(** The sub-key of an entry: [None] stands for ["J"]. *)
Definition sub_key (s : sub_entry) : option (list string) :=
  match s with
  | SubJ _ => None
  | SubDofs kk _ => Some kk
  end.

Definition sub_entry_ok (s : sub_entry) : Prop :=
  match s with
  | SubJ _ => True
  | SubDofs kk _ => vib_key kk
  end.

Definition entry_ok (e : vibronic_entry) : Prop :=
  match e with
  | PureVib e_v => NoDup e_v.*1 /\ Forall vib_key e_v.*1
  | Electronic e_k e_v =>
      (exists a b, e_k = [a; b] /\ is_e_dof a /\ is_e_dof b)
      /\ NoDup (sub_key <$> e_v) /\ Forall sub_entry_ok e_v
  end.

Definition documented_format (model0 : list vibronic_entry) : Prop :=
  NoDup (entry_key <$> model0) /\ Forall entry_ok model0.

(** The key and the electronic operators an electronic key [e_k] gives
    rise to (lines 347-354). *)
Definition new_e_k_of (e_k : list string) : list string :=
  if decide (e_k !! 0%nat = e_k !! 1%nat) then take 1 e_k else e_k.

Definition e_op_of (e_k : list string) : term :=
  if decide (e_k !! 0%nat = e_k !! 1%nat)
  then [TOp OpNumber] else [TOp OpRaise; TOp OpLower].

(** *** The table as a sequence of writes

    Used in the proofs only: the two nested loops visit the pairs
    (outer key, sub-entry) one after the other; each visit writes one key of
    [new_model]. *)
Inductive write : Type :=
  | WPure (kk : list string) (vv : list term)
  | WSub (e_k : list string) (s : sub_entry).

Definition writes_of (e : vibronic_entry) : list write :=
  match e with
  | PureVib e_v => (fun p => WPure p.1 p.2) <$> e_v
  | Electronic e_k e_v => WSub e_k <$> e_v
  end.

Definition do_write (nm : pydict (list string) (list term)) (w : write)
  : result (pydict (list string) (list term)) :=
  match w with
  | WPure kk vv => Ok (dict_set kk vv nm)
  | WSub e_k s => translate_sub e_k nm s
  end.

Definition write_key (w : write) : list string :=
  match w with
  | WPure kk _ => kk
  | WSub e_k (SubJ _) => new_e_k_of e_k
  | WSub e_k (SubDofs kk _) => new_e_k_of e_k ++ kk
  end.

Definition write_value (w : write) : list term :=
  match w with
  | WPure _ vv => vv
  | WSub e_k (SubJ c) => [e_op_of e_k ++ [TNum c]]
  | WSub e_k (SubDofs _ vv) => (fun t => e_op_of e_k ++ t) <$> vv
  end.

Definition write_ok (w : write) : Prop :=
  match w with
  | WPure kk _ => vib_key kk
  | WSub e_k s =>
      (exists a b, e_k = [a; b] /\ is_e_dof a /\ is_e_dof b) /\ sub_entry_ok s
  end.

(** The outer key a written key comes from. *)
Definition origin_of_key (k : list string) : option (list string) :=
  match k with
  | a :: rest =>
      if decide (is_e_dof a) then
        match rest with
        | b :: _ => if decide (is_e_dof b) then Some [a; b] else Some [a; a]
        | [] => Some [a; a]
        end
      else None
  | [] => None
  end.

(** ** [Phonon.gs_mps] of [ephMPS/model/phonon.py] *)

Module EphPhonon.

(** A three-dimensional [ndarray] of floats, outermost axis first. *)
Definition ndarray3 : Type := list (list (list R)).

(** The attributes [gs_mps] reads.  [base] is stored by [__init__] as
    [int(round(n_phys_dim ** (1. / nqboson)))]. *)
Record Phonon : Type := mkPhonon {
  n_phys_dim : Z;
  nqboson : Z;
  base : Z;
}.

(** [np.zeros((a, b, c))] *)
Definition np_zeros3 (a b c : Z) : result ndarray3 :=
  if decide (a < 0 \/ b < 0 \/ c < 0)
  then Raise (ValueError "negative dimensions are not allowed")
  else Ok (replicate (Z.to_nat a) (replicate (Z.to_nat b) (replicate (Z.to_nat c) 0%R))).

(** [ms[i, j, k] = x] *)
Definition setitem3 (ms : ndarray3) (i j k : Z) (x : R) : result ndarray3 :=
  plane ← py_list_get ms i;
  row ← py_list_get plane j;
  row' ← py_list_set row k x;
  plane' ← py_list_set plane j row';
  py_list_set ms i plane'.

(** [ms[i, :, k] = x] *)
Definition setslice3 (ms : ndarray3) (i k : Z) (x : R) : result ndarray3 :=
  plane ← py_list_get ms i;
  plane' ← for_each (fun acc row => row' ← py_list_set row k x; Ok (acc ++ [row']))
                    plane [];
  py_list_set ms i plane'.

(** One iteration of the loop body, up to the [yield]. *)
Definition gs_tensor (self : Phonon) (max_entangled : bool) : result ndarray3 :=
  ms ← np_zeros3 1 (base self) 1;
  if max_entangled
  then setslice3 ms 0 0 (1 / sqrt (IZR (base self)))%R
  else setitem3 ms 0 1 0 1%R.

(** The generator, run to exhaustion: the tensors it yields, in order, and
    the exception that ended it, if any. *)
Fixpoint gs_loop (self : Phonon) (max_entangled : bool) (n : nat)
  : list ndarray3 * option exn :=
  match n with
  | O => ([], None)
  | S n' =>
      match gs_tensor self max_entangled with
      | Ok ms =>
          let '(rest, e) := gs_loop self max_entangled n' in (ms :: rest, e)
      | Raise e => ([], Some e)
      end
  end.

Definition gs_mps (self : Phonon) (max_entangled : bool)
  : list ndarray3 * option exn :=
  gs_loop self max_entangled (Z.to_nat (nqboson self)).

Definition has_shape3 (ms : ndarray3) (a b c : nat) : Prop :=
  length ms = a /\
  Forall (fun plane => length plane = b /\ Forall (fun row => length row = c) plane) ms.

(** [ms[0, j, 0]] *)
Definition entry (ms : ndarray3) (j : nat) : option R :=
  plane ← ms !! 0%nat; row ← plane !! j; row !! 0%nat.

Definition sum_R (l : list R) : R := foldr Rplus 0%R l.

(** The squared Frobenius norm. *)
Definition norm_sq (ms : ndarray3) : R :=
  sum_R ((fun plane => sum_R ((fun row => sum_R ((fun x => x * x)%R <$> row)) <$> plane)) <$> ms).

End EphPhonon.

(** The number of vibrational modes of a list of molecules. *)
Definition n_modes (mols : list Mol.t) : nat :=
  sum_list (length ∘ Mol.ph_list <$> mols).

(** ** Concrete molecules used in the examples *)

Definition example_phonon (w : Qc) (n : Z) : Phonon.t :=
  Phonon.mk (w, w) (0%Qc, 1%Qc) (0%Qc, 0%Qc) n.

Definition example_mol (phs : list Phonon.t) : Mol.t :=
  Mol.mk 1%Qc 0%Qc phs 1%Qc 0%Qc.

(** A mode whose cubic force constant on the ground surface is [2^-30],
    a float64 below the absolute tolerance of [np.allclose]. *)
Definition tiny_force_phonon : Phonon.t :=
  Phonon.mk (1, 1)%Qc (0, 1)%Qc (Q2Qc (1 # 1073741824), 0%Qc) 4.

(** A two-state vibronic table in the documented format. *)
Definition example_pure : pydict (list string) (list term) :=
  [(["v_0"], [[TOp (mkOp "p^2" 0); TNum Qc_half]])].

Definition example_diag : list sub_entry :=
  [SubJ 1%Qc; SubDofs ["v_0"] [[TOp (mkOp "x" 0); TNum Qc_half]]].

Definition example_offdiag : list sub_entry :=
  [SubJ Qc_half;
   SubDofs ["v_0"; "v_1"]
     [[TOp (mkOp "x" 0); TOp (mkOp "x" 0); TNum 1%Qc];
      [TOp (mkOp "p" 0); TOp (mkOp "p" 0); TNum Qc_half]]].

Definition example_vibronic : list vibronic_entry :=
  [ PureVib example_pure;
    Electronic ["e_0"; "e_0"] example_diag;
    Electronic ["e_0"; "e_1"] example_offdiag ].

(** The dictionary [self.order] that [Model.__init__] builds from its
    [order] argument (lines 58-64). *)
Definition order_of (order0 : order_arg) : pydict string Z :=
  match order0 with
  | OrderDict d => d
  | OrderList l =>
      fold_left (fun d '(i, o) => dict_set o (Z.of_nat i) d) (enumerate l) []
  end.

(** The values of a dictionary are exactly [0 .. n-1], [n] being the number
    of distinct values. *)
Definition contiguous_from_0 (vs : list Z) : Prop :=
  vs <> []
  /\ forall z, z ∈ vs <-> 0 <= z < Z.of_nat (size (list_to_set vs : gset Z)).

(** An entry of the vibronic table on which the assertion of line 346
    fails: an electronic key that is not a pair, with at least one sub-entry
    (the assertion sits inside the loop over the sub-entries). *)
Definition bad_electronic_key (e : vibronic_entry) : Prop :=
  match e with
  | Electronic e_k (_ :: _) => length e_k <> 2%nat
  | _ => False
  end.

#[global] Instance bad_electronic_key_dec (e : vibronic_entry) :
  Decision (bad_electronic_key e).
Proof. destruct e as [|e_k [|s e_v]]; simpl; apply _. Defined.

(** A visit that creates its key when the key is new: all but the visits of
    a tuple sub-key with an empty list of terms, whose loop body never
    runs. *)
Definition creates_key (w : write) : Prop :=
  match w with
  | WSub _ (SubDofs _ []) => False
  | _ => True
  end.

(** ** Remaining accessors *)

Section Accessors.
Context {CacheKey : Type} `{Countable CacheKey} {Mpos : Type}.

(** [Model.is_electron(idx)]: [self.basis[idx].is_electron]. *)
Definition Model_is_electron (self : @Model CacheKey _ _ Mpos) (idx : Z)
  : result bool :=
  is_electron <$> py_list_get (basis self) idx.

(** [Model.pure_dmrg] *)
Definition pure_dmrg (self : @Model CacheKey _ _ Mpos) : bool := true.

(** [Model.to_dict()]: an ordered dictionary with the entries ["order"] and
    ["model"], in that order. *)
Definition to_dict (self : @Model CacheKey _ _ Mpos)
  : pydict string Z * pydict (list string) (list term) :=
  (order self, model self).

(** [HolsteinModel.gs_zpe] *)
Definition gs_zpe (self : @HolsteinModel.t CacheKey _ _ Mpos) : Qc :=
  foldr Qcplus 0%Qc (Mol.gs_zpe <$> HolsteinModel.mol_list self).

(** [HolsteinModel.__getitem__(item)] *)
Definition Holstein_getitem (self : @HolsteinModel.t CacheKey _ _ Mpos) (item : Z)
  : result Mol.t :=
  py_list_get (HolsteinModel.mol_list self) item.

(** [HolsteinModel.__len__()] *)
Definition Holstein_len (self : @HolsteinModel.t CacheKey _ _ Mpos) : nat :=
  length (HolsteinModel.mol_list self).
End Accessors.

(** [Phonon.pbond] of [ephMPS/model/phonon.py]: [[self.base] * self.nqboson];
    a non-positive repetition count gives the empty list. *)
Definition pbond (self : EphPhonon.Phonon) : list Z :=
  replicate (Z.to_nat (EphPhonon.nqboson self)) (EphPhonon.base self).

(** [Phonon.nlevels] *)
Definition nlevels (self : EphPhonon.Phonon) : Z := EphPhonon.n_phys_dim self.

(** ** Closed forms used to reason about [HolsteinModel.__init__]

    None of the definitions below is part of the program: they describe
    what its loops compute (the key-value pairs assigned, in sequence) and
    are related to the loops of the source by the lemmas that follow. *)

(** Every character of [s] satisfies [P]. *)
Fixpoint all_chars (P : ascii -> Prop) (s : string) : Prop :=
  match s with
  | EmptyString => True
  | String c s' => P c /\ all_chars P s'
  end.

Definition is_digit (c : ascii) : Prop := is_Some (digit_of c).

(** The name of a DoF given as the pair of its kind and its index. *)
Definition dn (x : string * nat) : string := dof_name x.1 x.2.

(** [d.update(kvs)] for a list of pairs: the assignments [d[k] = v] made one
    after the other. *)
Definition dict_update {K V : Type} `{EqDecision K} (kvs : list (K * V))
    (d : pydict K V) : pydict K V :=
  fold_left (fun d kv => dict_set kv.1 kv.2 d) kvs d.

(** The assignments to [order] made by the loop of lines 185-197 on the
    molecules [mols], entered with molecule counter [k], site counter [idx]
    and mode counter [nv]. *)
Fixpoint order123 (k idx nv : nat) (mols : list Mol.t) : pydict string Z :=
  match mols with
  | [] => []
  | mol :: mols' =>
      let n := length (Mol.ph_list mol) in
      (dof_name "e" k, Z.of_nat idx)
      :: ((fun i => (dof_name "v" (nv + i), Z.of_nat (idx + 1 + i))) <$> seq 0 n)
      ++ order123 (S k) (idx + 1 + n) (nv + n) mols'
  end.

(** The assignments to [mapping] made by the layout loops (the same in every
    scheme). *)
Fixpoint mapping_of (k nv : nat) (mols : list Mol.t) : pydict (nat * nat) string :=
  match mols with
  | [] => []
  | mol :: mols' =>
      let n := length (Mol.ph_list mol) in
      ((fun i => ((k, i), dof_name "v" (nv + i))) <$> seq 0 n)
      ++ mapping_of (S k) (nv + n) mols'
  end.

(** The basis list appended by the loop of lines 185-197. *)
Definition basis123 (mols : list Mol.t) : list BasisSet :=
  concat ((fun mol => BasisSimpleElectron :: (sho_basis <$> Mol.ph_list mol)) <$> mols).

(** The assignments to [order] made by the loop of lines 206-218 (scheme 4),
    [nl] being [n_left_mol]. *)
Fixpoint order4v (nl k idx nv : nat) (mols : list Mol.t) : pydict string Z :=
  match mols with
  | [] => []
  | mol :: mols' =>
      let n := length (Mol.ph_list mol) in
      ((fun i => (dof_name "v" (nv + i),
                  if bool_decide (k < nl)%nat then Z.of_nat (idx + i)
                  else Z.of_nat (idx + i) + 1)) <$> seq 0 n)
      ++ order4v nl (S k) (idx + n) (nv + n) mols'
  end.

(** Sites [i] and [j] of a chain of [n] sites are coupled: they are nearest
    neighbours, or the chain is closed to a ring and they are its two ends. *)
Definition coupled (n : nat) (periodic : bool) (i j : nat) : Prop :=
  (i = S j \/ j = S i)
  \/ (periodic = true /\ ((i = (n - 1)%nat /\ j = 0%nat)
                          \/ (i = 0%nat /\ j = (n - 1)%nat))).

#[global] Instance coupled_dec n periodic i j : Decision (coupled n periodic i j).
Proof. unfold coupled. apply _. Defined.

(** The assignment to [model] made by one pass through the body of the
    electronic loop, lines 230-237. *)
Definition el_write (ml : list Mol.t) (jm : ndarray2) (imol jmol : nat)
  : list string * list term :=
  if decide (imol = jmol) then
    ([dof_name "e" imol],
     match py_list_get ml (Z.of_nat imol) with
     | Ok mol => [[TOp OpNumber; TNum (Mol.elocalex mol + Mol.e0 mol)%Qc]]
     | Raise _ => []
     end)
  else
    ([dof_name "e" imol; dof_name "e" jmol],
     match mat_get jm (Z.of_nat imol) (Z.of_nat jmol) with
     | Ok c => [[TOp OpRaise; TOp OpLower; TNum c]]
     | Raise _ => []
     end).

(** The value assigned at lines 243-246: the harmonic terms of one mode. *)
Definition harmonic_terms (ph : Phonon.t) : list term :=
  let w0 := (Phonon.omega ph).1 in
  [[TOp (mkOp "p^2" 0); TNum Qc_half];
   [TOp (mkOp "x^2" 0); TNum (Qc_half * (w0 * w0))%Qc]].

(** The value assigned at lines 251-259: the electron-vibration terms of one
    mode. *)
Definition coupling_terms (ph : Phonon.t) : list term :=
  let w0 := (Phonon.omega ph).1 in
  let w1 := (Phonon.omega ph).2 in
  let d1 := (Phonon.dis ph).2 in
  let linear := [TOp OpNumber; TOp (mkOp "x" 0); TNum (- (w1 * w1) * d1)%Qc] in
  if np_isclose w0 w1 then [linear]
  else [[TOp OpNumber; TOp (mkOp "x^2" 0); TNum (Qc_half * (w1 * w1 - w0 * w0))%Qc];
        linear].

(** The name of mode [iph] of molecule [imol]: modes are numbered through
    the molecules. *)
Definition mode_name (ml : list Mol.t) (imol iph : nat) : string :=
  dof_name "v" (n_modes (take imol ml) + iph).

(** The assignments to [model] made by each of the three term loops. *)
Definition el_writes (ml : list Mol.t) (jm : ndarray2)
  : list (list string * list term) :=
  concat ((fun i => el_write ml jm i <$> seq 0 (length ml)) <$> seq 0 (length ml)).

Definition vib_writes (ml : list Mol.t) : list (list string * list term) :=
  concat ((fun x : nat * Mol.t =>
             (fun y : nat * Phonon.t =>
                ([mode_name ml x.1 y.1], harmonic_terms y.2))
               <$> enumerate (Mol.ph_list x.2))
            <$> enumerate ml).

Definition pot_writes (ml : list Mol.t) : list (list string * list term) :=
  concat ((fun x : nat * Mol.t =>
             (fun y : nat * Phonon.t =>
                ([dof_name "e" x.1; mode_name ml x.1 y.1], coupling_terms y.2))
               <$> enumerate (Mol.ph_list x.2))
            <$> enumerate ml).

(** The squares that the two term loops of a mode take are in the range of
    float64. *)
Definition squares_in_range (ph : Phonon.t) : Prop :=
  ((Phonon.omega ph).1 * (Phonon.omega ph).1 < float_overflow)%Qc
  /\ ((Phonon.omega ph).2 * (Phonon.omega ph).2 < float_overflow)%Qc.

(** The same mode, molecule and model with the cubic force constants set to
    zero: what [np.allclose] compares [force3rd] with. *)
Definition harmonic_ph (ph : Phonon.t) : Phonon.t :=
  Phonon.mk (Phonon.omega ph) (Phonon.dis ph) (0, 0)%Qc (Phonon.n_phys_dim ph).

Definition harmonic_mol (mol : Mol.t) : Mol.t :=
  Mol.mk (Mol.elocalex mol) (Mol.e0 mol) (harmonic_ph <$> Mol.ph_list mol)
         (Mol.dipole mol) (Mol.gs_zpe mol).

Definition with_mol_list {CacheKey : Type} `{Countable CacheKey} {Mpos : Type}
    (ml : list Mol.t) (h : @HolsteinModel.t CacheKey _ _ Mpos)
  : @HolsteinModel.t CacheKey _ _ Mpos :=
  HolsteinModel.mk _ _ _ _ (HolsteinModel.to_Model h) ml (HolsteinModel.j_matrix h)
    (HolsteinModel.scheme h) (HolsteinModel.periodic h) (HolsteinModel.map h)
    (HolsteinModel.mol_num h).

(** * Properties *)

(** ** Generic facts about results, loops and dictionaries *)

Lemma result_bind_Ok {A B} (a : A) (f : A -> result B) : Ok a ≫= f = f a.
Proof. reflexivity. Qed.

Lemma bind_Ok_inv {A B} (m : result A) (f : A -> result B) (b : B) :
  m ≫= f = Ok b -> exists a, m = Ok a /\ f a = Ok b.
Proof. destruct m as [a|e]; simpl; [eauto | discriminate]. Qed.

Lemma raises_not_Ok {A} (r : result A) : raises r <-> ~ is_Ok r.
Proof.
  unfold raises, is_Ok. destruct r as [a|e]; split.
  - intros [e He]. discriminate.
  - intros Hn. exfalso. apply Hn. eauto.
  - intros _ [a Ha]. discriminate.
  - eauto.
Qed.

Lemma for_each_app {A S} (body : S -> A -> result S) (l1 l2 : list A) (s : S) :
  for_each body (l1 ++ l2) s = for_each body l1 s ≫= for_each body l2.
Proof.
  revert s. induction l1 as [|x l1 IH]; intros s; simpl; [done|].
  destruct (body s x) as [s'|e]; simpl; [apply IH | done].
Qed.

(** A loop that meets an element on which the body raises whatever the
    state never completes. *)
Lemma for_each_raises {A S} (body : S -> A -> result S) (l : list A) (x : A) :
  x ∈ l -> (forall s, raises (body s x)) -> forall s, raises (for_each body l s).
Proof.
  intros Hin Hx. induction l as [|y l IH]; intros s.
  - by apply elem_of_nil in Hin.
  - simpl. apply elem_of_cons in Hin as [->|Hin].
    + destruct (Hx s) as [e ->]. by exists e.
    + destruct (body s y) as [s'|e]; simpl; [by apply IH | by exists e].
Qed.

Section PyDictFacts.
Context {K V : Type} `{EqDecision K}.
Implicit Types (d : pydict K V) (k : K) (v : V).

Lemma dict_get_set_eq d k v : dict_get k (dict_set k v d) = Some v.
Proof.
  induction d as [|[k' v'] d IH]; simpl.
  - by rewrite decide_True.
  - destruct (decide (k' = k)) as [->|Hne]; simpl.
    + by rewrite decide_True.
    + by rewrite decide_False.
Qed.

Lemma dict_get_set_ne d k k' v :
  k <> k' -> dict_get k' (dict_set k v d) = dict_get k' d.
Proof.
  intros Hne. induction d as [|[k0 v0] d IH]; simpl.
  - by rewrite decide_False.
  - destruct (decide (k0 = k)) as [->|Hne0]; simpl.
    + by rewrite !decide_False.
    + destruct (decide (k0 = k')); [done | apply IH].
Qed.
End PyDictFacts.

Lemma enumerate_from_elem {A} (l : list A) (start : nat) (x : A) :
  x ∈ l -> exists i, (i, x) ∈ enumerate_from start l.
Proof.
  revert start. induction l as [|y l IH]; intros start Hin.
  - by apply elem_of_nil in Hin.
  - apply elem_of_cons in Hin as [->|Hin]; simpl.
    + exists start. apply elem_of_cons. by left.
    + destruct (IH (S start) Hin) as [i Hi]. exists i. apply elem_of_cons. by right.
Qed.

(** ** Spectra job *)

Lemma run_steps_autocorr {MolList Temperature MpoT Sample BraKetPair : Type}
    (ft : BraKetPair -> Sample)
    (self : @Spectra.SpectraTdMpsJobBase MolList Temperature MpoT Sample)
    (pairs : list BraKetPair) :
  Spectra.autocorr (Spectra.run_steps ft self pairs)
  = Spectra.autocorr self ++ (ft <$> pairs).
Proof.
  unfold Spectra.run_steps.
  revert self. induction pairs as [|p ps IH]; intros self; simpl.
  - by rewrite app_nil_r.
  - rewrite IH. unfold Spectra.autocorr; simpl. by rewrite <- app_assoc.
Qed.

Lemma init_fields_Ok_inv {MolList Temperature Offset MpoT Sample : Type}
    (Mpo : MolList -> Offset -> result MpoT)
    (m : MolList) (s : string) (t : Temperature) (o : Offset)
    (job : @Spectra.SpectraTdMpsJobBase MolList Temperature MpoT Sample) :
  Spectra.init_fields Mpo m s t o = Ok job ->
  (s = "emi" \/ s = "abs") /\
  Spectra.spectratype job = s /\
  Spectra.nexciton job = (if decide (s = "emi") then 1 else 0) /\
  Spectra._autocorr job = [].
Proof.
  unfold Spectra.init_fields. intros Hinit.
  apply bind_Ok_inv in Hinit as [[] [Hassert Hrest]].
  apply bind_Ok_inv in Hrest as [h [_ Hjob]].
  injection Hjob as <-. simpl. split; [|done].
  unfold py_assert in Hassert. case_bool_decide as Hin; [|discriminate].
  apply elem_of_cons in Hin as [->|Hin]; [by left|].
  apply elem_of_cons in Hin as [->|Hin]; [by right|].
  by apply elem_of_nil in Hin.
Qed.

(** C7.  Provided the collaborators [Mpo] and [TdMpsJob.__init__] do not
    raise, constructing a spectra job succeeds exactly when the spectral type
    is the string "emi" or "abs".  For "emi" the job that [__init__] hands to
    the base-class initialiser, whose result is the result of [__init__], has
    the excitation number 1, for "abs" it has the excitation number 0, and in
    both cases it has the given spectral type; so has the job constructed,
    when the base-class initialiser leaves these two attributes as they are.
    Any other spectral type fails the assertion, whatever the collaborators
    do. *)
Theorem spectratype_selects_nexciton
    {MolList Temperature EvolveConfig Offset MpoT Sample : Type}
    (Mpo : MolList -> Offset -> result MpoT)
    (TdMpsJob_init : option EvolveConfig ->
       @Spectra.SpectraTdMpsJobBase MolList Temperature MpoT Sample ->
       result (@Spectra.SpectraTdMpsJobBase MolList Temperature MpoT Sample))
    (m : MolList) (s : string) (t : Temperature) (cfg : option EvolveConfig)
    (o : Offset) :
  is_Ok (Mpo m o) ->
  (forall job, is_Ok (TdMpsJob_init cfg job)) ->
  (is_Ok (Spectra.__init__ Mpo TdMpsJob_init m s t cfg o)
     <-> s = "emi" \/ s = "abs")
  /\ (s = "emi" ->
      exists job : @Spectra.SpectraTdMpsJobBase MolList Temperature MpoT Sample,
        Spectra.init_fields Mpo m s t o = Ok job
        /\ Spectra.spectratype job = "emi" /\ Spectra.nexciton job = 1
        /\ Spectra.__init__ Mpo TdMpsJob_init m s t cfg o = TdMpsJob_init cfg job)
  /\ (s = "abs" ->
      exists job : @Spectra.SpectraTdMpsJobBase MolList Temperature MpoT Sample,
        Spectra.init_fields Mpo m s t o = Ok job
        /\ Spectra.spectratype job = "abs" /\ Spectra.nexciton job = 0
        /\ Spectra.__init__ Mpo TdMpsJob_init m s t cfg o = TdMpsJob_init cfg job)
  /\ ((forall job job', TdMpsJob_init cfg job = Ok job' ->
         Spectra.spectratype job' = Spectra.spectratype job
         /\ Spectra.nexciton job' = Spectra.nexciton job) ->
      forall job', Spectra.__init__ Mpo TdMpsJob_init m s t cfg o = Ok job' ->
        Spectra.spectratype job' = s
        /\ Spectra.nexciton job' = (if decide (s = "emi") then 1 else 0))
  /\ (s <> "emi" -> s <> "abs" ->
      Spectra.__init__ Mpo TdMpsJob_init m s t cfg o = Raise AssertionError).
Proof.
  intros [h Hh] Hsuper.
  assert (Hacc : s = "emi" \/ s = "abs" ->
            exists job : @Spectra.SpectraTdMpsJobBase MolList Temperature MpoT Sample,
              Spectra.init_fields Mpo m s t o = Ok job
              /\ Spectra.spectratype job = s
              /\ Spectra.nexciton job = (if decide (s = "emi") then 1 else 0)
              /\ Spectra.__init__ Mpo TdMpsJob_init m s t cfg o
                 = TdMpsJob_init cfg job).
  { intros Hs.
    assert (Hfields : Spectra.init_fields Mpo m s t o
              = Ok (Spectra.mkJob m s (if decide (s = "emi") then 1 else 0) t h
                      (@nil Sample))).
    { unfold Spectra.init_fields.
      rewrite bool_decide_eq_true_2; simpl.
      - by rewrite Hh.
      - destruct Hs as [->| ->]; set_solver. }
    eexists. split; [exact Hfields|]. split; [done|]. split; [done|].
    unfold Spectra.__init__. by rewrite Hfields. }
  split; [|split; [|split; [|split]]].
  - split.
    + intros [job Hjob]. unfold Spectra.__init__ in Hjob.
      apply bind_Ok_inv in Hjob as [self [Hself _]].
      by apply init_fields_Ok_inv in Hself as [Hs _].
    + intros Hs. destruct (Hacc Hs) as (job & _ & _ & _ & ->). apply Hsuper.
  - intros ->. destruct (Hacc (or_introl eq_refl)) as (job & Hjob & Hst & Hn & Heq).
    by exists job.
  - intros ->. destruct (Hacc (or_intror eq_refl)) as (job & Hjob & Hst & Hn & Heq).
    by exists job.
  - intros Hkeep job' Hjob'. pose proof Hjob' as Hinit.
    unfold Spectra.__init__ in Hinit.
    apply bind_Ok_inv in Hinit as [self [Hself Hbase]].
    apply init_fields_Ok_inv in Hself as (_ & Hst & Hn & _).
    destruct (Hkeep self job' Hbase) as [-> ->]. done.
  - intros Hemi Habs. unfold Spectra.__init__, Spectra.init_fields.
    rewrite bool_decide_eq_false_2; [done|].
    intros Hin. apply elem_of_cons in Hin as [->|Hin]; [done|].
    apply elem_of_cons in Hin as [->|Hin]; [done|].
    by apply elem_of_nil in Hin.
Qed.

Lemma spectratype_selects_nexciton_witness :
  let Mpo := fun (_ : unit) (_ : unit) => Ok tt in
  let super := fun (_ : option unit)
                   (j : @Spectra.SpectraTdMpsJobBase unit unit unit Z) => Ok j in
  is_Ok (Spectra.__init__ Mpo super tt "abs" tt None tt)
  /\ (forall job', Spectra.__init__ Mpo super tt "emi" tt None tt = Ok job' ->
        Spectra.spectratype job' = "emi" /\ Spectra.nexciton job' = 1)
  /\ Spectra.__init__ Mpo super tt "raman" tt None tt = Raise AssertionError.
Proof.
  intros Mpo super.
  destruct (spectratype_selects_nexciton Mpo super tt "abs" tt None tt)
    as (Hiff & _ & _ & _ & _); [by exists tt | intros j; by exists j |].
  destruct (spectratype_selects_nexciton Mpo super tt "emi" tt None tt)
    as (_ & _ & _ & Hjob & _); [by exists tt | intros j; by exists j |].
  destruct (spectratype_selects_nexciton Mpo super tt "raman" tt None tt)
    as (_ & _ & _ & _ & Hfail); [by exists tt | intros j; by exists j |].
  split; [apply Hiff; by right|]. split; [|by apply Hfail].
  apply Hjob. intros job job' Heq. by injection Heq as <-.
Defined.

(** C8.  On a freshly initialised spectra job, after [n] invocations of the
    per-step callback [process_mps] with the pairs [p_1 .. p_n], [autocorr]
    has length [n] and its [i]-th element is the [ft] value of the [i]-th
    pair: one sample per step, in step order. *)
Theorem autocorr_one_sample_per_step
    {MolList Temperature Offset MpoT Sample BraKetPair : Type}
    (Mpo : MolList -> Offset -> result MpoT) (ft : BraKetPair -> Sample)
    (m : MolList) (s : string) (t : Temperature) (o : Offset)
    (job : @Spectra.SpectraTdMpsJobBase MolList Temperature MpoT Sample)
    (pairs : list BraKetPair) :
  Spectra.init_fields Mpo m s t o = Ok job ->
  let job' := Spectra.run_steps ft job pairs in
  length (Spectra.autocorr job') = length pairs
  /\ (forall i : nat, Spectra.autocorr job' !! i = ft <$> pairs !! i)
  /\ Spectra.autocorr job' = ft <$> pairs.
Proof.
  intros Hinit job'.
  apply init_fields_Ok_inv in Hinit as (_ & _ & _ & Hempty).
  assert (Heq : Spectra.autocorr job' = ft <$> pairs).
  { unfold job'. rewrite run_steps_autocorr. unfold Spectra.autocorr.
    by rewrite Hempty. }
  rewrite Heq. repeat split.
  - by rewrite length_fmap.
  - intros i. by rewrite list_lookup_fmap.
Qed.

Lemma autocorr_one_sample_per_step_witness :
  let Mpo := fun (_ : unit) (_ : unit) => Ok tt in
  let job := @Spectra.mkJob unit unit unit Z tt "emi" 1 tt tt [] in
  let job' := Spectra.run_steps (fun p : Z * Z => p.1 * p.2) job [(2, 3); (5, 7); (1, 1)] in
  length (Spectra.autocorr job') = 3%nat
  /\ (forall i : nat, Spectra.autocorr job' !! i
                      = (fun p : Z * Z => p.1 * p.2) <$> [(2, 3); (5, 7); (1, 1)] !! i)
  /\ Spectra.autocorr job' = [6; 35; 1].
Proof.
  intros Mpo job.
  apply (autocorr_one_sample_per_step Mpo (fun p : Z * Z => p.1 * p.2)
           tt "emi" tt tt job [(2, 3); (5, 7); (1, 1)]).
  reflexivity.
Defined.

(** ** The operator cache *)

Section CacheFacts.
Context {CacheKey : Type} `{Countable CacheKey} {Mpos : Type}.
Implicit Types (self : @Model CacheKey _ _ Mpos) (key : CacheKey).
Implicit Types (calls : list (CacheKey * @builder CacheKey _ _ Mpos)).
Implicit Types (inv : list (CacheKey * bool)).

Lemma Model_init_mpos o b md dp self :
  Model_init o b md dp = Ok self -> mpos self = ∅.
Proof.
  unfold Model_init. intros Hinit.
  apply bind_Ok_inv in Hinit as [slots [_ Hinit]].
  apply bind_Ok_inv in Hinit as [bs [_ Hinit]].
  by injection Hinit as <-.
Qed.

Lemma get_mpos_hit key (fun_ : @builder CacheKey _ _ Mpos) self r :
  mpos self !! key = Some r -> get_mpos key fun_ self = (Ok r, self, []).
Proof. unfold get_mpos, get_mpos_body. by intros ->. Qed.

(** Whatever the builder does, what [get_mpos] returns is what the cache
    holds under the key when the call ends. *)
Lemma get_mpos_stores key (fun_ : @builder CacheKey _ _ Mpos) self r self' inv :
  get_mpos key fun_ self = (Ok r, self', inv) -> mpos self' !! key = Some r.
Proof.
  unfold get_mpos, get_mpos_body. destruct (mpos self !! key) as [r0|] eqn:Hk.
  - intros Heq. by injection Heq as <- <- <-.
  - destruct (call_builder fun_ self) as [[[r0|e] self1] inv1]; intros Heq;
      [|discriminate].
    injection Heq as <- <- <-. simpl. by rewrite lookup_insert_eq.
Qed.

(** On a miss with a builder that leaves the cache alone, [get_mpos] is the
    call of the builder followed by the assignment. *)
Lemma get_mpos_miss key (fun_ : @builder CacheKey _ _ Mpos) self :
  leaves_cache_alone fun_ -> mpos self !! key = None ->
  exists r self1,
    call_builder fun_ self = (r, self1, []) /\ mpos self1 = mpos self
    /\ get_mpos key fun_ self
       = match r with
         | Ok mpos0 =>
             (Ok mpos0, set_mpos self1 (<[key := mpos0]> (mpos self)), [(key, true)])
         | Raise e => (Raise e, self1, [(key, false)])
         end.
Proof.
  intros Hquiet Hk. destruct (Hquiet self) as [Hm Hinv].
  destruct (call_builder fun_ self) as [[r self1] inv1] eqn:Hcall.
  simpl in Hm, Hinv. subst inv1. exists r, self1. split; [done|]. split; [done|].
  unfold get_mpos, get_mpos_body. rewrite Hk, Hcall, Hm. by destruct r.
Qed.

Lemma get_mpos_step key (fun_ : @builder CacheKey _ _ Mpos) self r self' inv :
  leaves_cache_alone fun_ ->
  get_mpos key fun_ self = (r, self', inv) -> cache_step self self' inv.
Proof.
  intros Hquiet. unfold cache_step.
  destruct (mpos self !! key) as [r0|] eqn:Hk.
  - rewrite (get_mpos_hit _ _ _ _ Hk). intros Heq. injection Heq as <- <- <-.
    split; [done|]. split; [by intros k ?%elem_of_nil|].
    split; [by intros k ?%elem_of_nil | done].
  - destruct (get_mpos_miss key fun_ self Hquiet Hk)
      as (r1 & self1 & _ & Hm & ->).
    destruct r1 as [r0|e]; intros Heq; injection Heq as <- <- <-; simpl.
    + split; [|split; [|split]].
      * intros k v Hv. destruct (decide (key = k)) as [->|Hne]; [congruence|].
        by rewrite lookup_insert_ne.
      * by intros k ->%list_elem_of_singleton.
      * intros k Hin%list_elem_of_singleton. injection Hin as ->.
        rewrite lookup_insert_eq. eauto.
      * split; [|done]. by intros _ ?%elem_of_nil.
    + rewrite Hm. split; [done|]. split; [by intros k ->%list_elem_of_singleton|].
      split; [|split; [discriminate | done]].
      intros k Hin%list_elem_of_singleton. discriminate.
Qed.

Lemma once_built_app inv1 inv2 :
  once_built inv1 -> once_built inv2 ->
  (forall k, (k, true) ∈ inv1 -> k ∉ inv2.*1) ->
  once_built (inv1 ++ inv2).
Proof.
  intros H1 H2 Hcross. induction inv1 as [|[k b] inv1 IH]; simpl; [done|].
  destruct H1 as [Hk H1]. split.
  - intros ->. rewrite fmap_app. intros Hin. apply elem_of_app in Hin as [Hin|Hin].
    + by apply Hk.
    + apply (Hcross k); [by left | done].
  - apply IH; [done|]. intros k' Hk'. apply Hcross. by right.
Qed.

Lemma cache_step_trans self1 self2 self3 inv1 inv2 :
  cache_step self1 self2 inv1 -> cache_step self2 self3 inv2 ->
  cache_step self1 self3 (inv1 ++ inv2).
Proof.
  intros (Hkeep1 & Hnew1 & Hret1 & Honce1) (Hkeep2 & Hnew2 & Hret2 & Honce2).
  split; [|split; [|split]].
  - eauto.
  - intros k Hin. rewrite fmap_app in Hin. apply elem_of_app in Hin as [Hin|Hin].
    + by apply Hnew1.
    + destruct (mpos self1 !! k) as [v|] eqn:Hk; [|done].
      apply Hkeep1 in Hk. rewrite (Hnew2 k Hin) in Hk. discriminate.
  - intros k Hin. apply elem_of_app in Hin as [Hin|Hin].
    + destruct (Hret1 k Hin) as [v Hv]. exists v. by apply Hkeep2.
    + by apply Hret2.
  - apply once_built_app; [done..|].
    intros k Hin1 Hin2. destruct (Hret1 k Hin1) as [v Hv].
    rewrite (Hnew2 k Hin2) in Hv. discriminate.
Qed.

Lemma run_get_mpos_step calls self self' inv :
  Forall (fun c => leaves_cache_alone c.2) calls ->
  run_get_mpos calls self = (self', inv) -> cache_step self self' inv.
Proof.
  intros Hquiet. revert self self' inv.
  induction Hquiet as [|[key fun_] calls Hq Hquiet IH]; intros self self' inv; simpl.
  - intros Heq. injection Heq as <- <-. unfold cache_step. simpl.
    split; [done|]. split; [by intros k ?%elem_of_nil|].
    split; [by intros k ?%elem_of_nil | done].
  - destruct (get_mpos key fun_ self) as [[r s1] inv1] eqn:Hget.
    destruct (run_get_mpos calls s1) as [s2 inv2] eqn:Hrun.
    intros Heq. injection Heq as <- <-.
    eapply cache_step_trans; [by eapply get_mpos_step | by apply IH].
Qed.

(** When every invocation returned, no key occurs twice among them. *)
Lemma once_built_all_returned inv :
  once_built inv -> Forall (fun ev => ev.2 = true) inv -> NoDup inv.*1.
Proof.
  induction inv as [|[k b] inv IH]; simpl; intros Honce Hall; [constructor|].
  destruct Honce as [Hk Honce]. apply Forall_cons in Hall as [Hb Hall].
  apply NoDup_cons. split; [by apply Hk | by apply IH].
Qed.
End CacheFacts.


(** It fails as well when every builder returns: a builder of ["h"] that
    first calls [self.get_mpos("h", g)] has two builder invocations return
    for ["h"] ([g]'s, then its own), and what the cache holds afterwards,
    and a later call returns, is not what [g] returned to it.  So does a
    builder that deletes the entry of another key. *)
Lemma reentrant_builder_builds_twice :
  let m0 : @Model string _ _ Z :=
    mkModel [("e_0", 0)] [BasisSimpleElectron] false [] None ∅ [2] in
  let g : @builder string _ _ Z := BReturn 20 in
  let f : @builder string _ _ Z := BGetMpos "h" g (fun _ => BReturn 10) in
  let evict : @builder string _ _ Z :=
    BUpdate (fun self => set_mpos self (delete "h" (mpos self))) (BReturn 30) in
  (exists m1, get_mpos "h" f m0 = (Ok 10, m1, [("h", true); ("h", true)])
              /\ get_mpos "h" g m1 = (Ok 10, m1, []))
  /\ (exists m2, run_get_mpos [("h", g); ("a", evict); ("h", g)] m0
                 = (m2, [("h", true); ("a", true); ("h", true)])).
Proof. intros m0 g f evict. split; eexists; [split|]; reflexivity. Qed.



(** ** [j_constant] *)

(** C2, at the input on which the code departs from it.  A Holstein model of
    no molecules with a 0 x 0 coupling matrix is constructed without error;
    its [j_matrix] has no entries, the branch [len(j_set) == 0] is taken and
    [j_set.pop()] raises [KeyError], not [ValueError]. *)
Theorem j_constant_empty_matrix_KeyError :
  exists h : @HolsteinModel.t string _ _ unit,
    HolsteinModel_init [] (JArray []) 2 false = Ok h
    /\ ravel (HolsteinModel.j_matrix h) = []
    /\ j_constant h = Raise KeyError.
Proof. eexists. split; [vm_compute; reflexivity|]. split; reflexivity. Qed.

(** *** On a matrix with entries *)

(** On a coupling matrix that has at least one entry, [j_constant] returns
    [c] exactly when the entries are zeros and the one non-zero value [c],
    and raises [ValueError] otherwise. *)
Lemma j_constant_on_entries {CacheKey : Type} `{Countable CacheKey} {Mpos : Type}
    (h : @HolsteinModel.t CacheKey _ _ Mpos) :
  ravel (HolsteinModel.j_matrix h) <> [] ->
  let j_set : gset Qc := list_to_set (ravel (HolsteinModel.j_matrix h)) in
  match j_constant h with
  | Ok c => c <> 0%Qc /\ j_set = {[ 0%Qc; c ]}
  | Raise e =>
      e = ValueError "J is not constant"
      /\ forall c, c <> 0%Qc -> j_set <> {[ 0%Qc; c ]}
  end.
Proof.
  intros Hne j_set. unfold j_constant. fold j_set.
  assert (Hsize : size j_set <> 0%nat).
  { apply size_non_empty_iff. intros Hempty.
    destruct (ravel (HolsteinModel.j_matrix h)) as [|x l]; [done|].
    assert (Hx : x ∈ j_set) by (apply elem_of_list_to_set; by left).
    rewrite Hempty in Hx. by apply elem_of_empty in Hx. }
  rewrite decide_False by done.
  destruct (decide (size j_set = 2%nat /\ 0%Qc ∈ j_set)) as [[H2 H0]|Hno].
  - assert (Hsub : ({[ 0%Qc ]} : gset Qc) ⊆ j_set) by (by apply singleton_subseteq_l).
    assert (H1 : size (j_set ∖ {[ 0%Qc ]}) = 1%nat).
    { rewrite size_difference by done. rewrite size_singleton. lia. }
    apply size_1_elem_of in H1 as [c Hc]. apply leibniz_equiv in Hc.
    unfold set_pop. rewrite Hc, elements_singleton.
    assert (Hcin : c ∈ j_set ∖ {[ 0%Qc ]}) by (rewrite Hc; by apply elem_of_singleton).
    split.
    + apply elem_of_difference in Hcin as [_ Hn]. intros ->. apply Hn.
      by apply elem_of_singleton.
    + rewrite (union_difference_L {[ 0%Qc ]} j_set Hsub), Hc. done.
  - split; [done|]. intros c Hc Heq. apply Hno. rewrite Heq. split.
    + rewrite size_union, !size_singleton; [done|].
      apply disjoint_singleton_l. intros Hin%elem_of_singleton. by apply Hc.
    + apply elem_of_union. left. by apply elem_of_singleton.
Qed.

(** ** Layout scheme selector *)

(** C3, at the input on which the code departs from it.  Scheme 0 is not one
    of the layout schemes 1-4, yet the guard [scheme < 4] sends it down the
    path of schemes 1-3 and a model is assembled. *)
Theorem scheme_zero_is_accepted :
  exists h : @HolsteinModel.t string _ _ unit,
    HolsteinModel_init [example_mol [example_phonon 1%Qc 4]] JNone 0 false = Ok h
    /\ HolsteinModel.scheme h = 0
    /\ order (HolsteinModel.to_Model h) = [("e_0", 0); ("v_0", 1)]
    /\ dict_keys (model (HolsteinModel.to_Model h)) = [["e_0"]; ["v_0"]; ["e_0"; "v_0"]].
Proof. eexists. split; [vm_compute; reflexivity|]. repeat split. Qed.

(** ** Order validation in [Model.__init__] *)

(** C4, at the input on which the code departs from it.  With [basis] given
    as a list, an [order] whose only value is 5 (not the range [0..0] of the
    one-site basis) is accepted: the check of lines 70-72 sits in the
    dict-form branch only. *)
Theorem order_not_validated_with_list_basis :
  exists m : @Model string _ _ unit,
    Model_init (OrderDict [("e_0", 5)]) (BasisList [BasisSimpleElectron]) [] None
      = Ok m
    /\ nsite m = 1%nat
    /\ dict_values (order m) = [5].
Proof. eexists. split; [reflexivity|]. split; reflexivity. Qed.

(** *** With a dict-form basis *)

Lemma foldr_min_spec (x : Z) (l : list Z) :
  foldr Z.min x l ∈ x :: l /\ Forall (fun y => foldr Z.min x l <= y) (x :: l).
Proof.
  induction l as [|y l [Hin Hall]]; simpl.
  - split; [by left | repeat constructor; lia].
  - apply Forall_cons in Hall as [Hx Hall]. split.
    + destruct (Z.min_spec y (foldr Z.min x l)) as [[_ ->]|[_ ->]].
      * right. by left.
      * apply elem_of_cons in Hin as [->|Hin]; [by left | right; by right].
    + repeat apply Forall_cons_2; [lia | lia |].
      eapply Forall_impl; [exact Hall|]. simpl. intros z Hz. lia.
Qed.

Lemma foldr_max_spec (x : Z) (l : list Z) :
  foldr Z.max x l ∈ x :: l /\ Forall (fun y => y <= foldr Z.max x l) (x :: l).
Proof.
  induction l as [|y l [Hin Hall]]; simpl.
  - split; [by left | repeat constructor; lia].
  - apply Forall_cons in Hall as [Hx Hall]. split.
    + destruct (Z.max_spec y (foldr Z.max x l)) as [[_ ->]|[_ ->]].
      * apply elem_of_cons in Hin as [->|Hin]; [by left | right; by right].
      * right. by left.
    + repeat apply Forall_cons_2; [lia | lia |].
      eapply Forall_impl; [exact Hall|]. simpl. intros z Hz. lia.
Qed.

(** A finite set of integers with minimum 0 and maximum [size - 1] is the
    range [0 .. size-1]. *)
Lemma range_of_min_max (s : gset Z) :
  (forall z, z ∈ s -> 0 <= z <= Z.of_nat (size s) - 1) ->
  forall z, z ∈ s <-> 0 <= z < Z.of_nat (size s).
Proof.
  intros Hbound.
  set (r := list_to_set (Z.of_nat <$> seq 0 (size s)) : gset Z).
  assert (Hr : forall z, z ∈ r <-> 0 <= z < Z.of_nat (size s)).
  { intros z. unfold r. rewrite elem_of_list_to_set, list_elem_of_fmap. split.
    - intros [n [-> Hn%elem_of_seq]]. lia.
    - intros Hz. exists (Z.to_nat z). split; [lia|]. apply elem_of_seq. lia. }
  assert (Hsize : size r = size s).
  { unfold r. rewrite size_list_to_set, length_fmap, length_seq; [done|].
    apply NoDup_fmap; [apply _ | apply NoDup_seq]. }
  assert (Heq : s = r).
  { apply set_subseteq_size_eq; [|lia].
    intros z Hz. apply Hr. specialize (Hbound z Hz). lia. }
  intros z. rewrite Heq at 1. apply Hr.
Qed.

(** With [basis] given as a dict, construction returns only when the values
    of [order] are exactly [0 .. n-1], [n] being the number of distinct
    values; otherwise it raises at lines 71-72. *)
Lemma dict_basis_validates_order {CacheKey : Type} `{Countable CacheKey}
    {Mpos : Type} (order0 : order_arg) (d : pydict string BasisSet)
    (md : pydict (list string) (list term))
    (dp : option (pydict (list string) Qc)) (m : @Model CacheKey _ _ Mpos) :
  Model_init order0 (BasisDict d) md dp = Ok m ->
  dict_values (order m) <> []
  /\ forall z, z ∈ dict_values (order m)
       <-> 0 <= z < Z.of_nat (size (list_to_set (dict_values (order m)) : gset Z)).
Proof.
  unfold Model_init. intros Hinit.
  apply bind_Ok_inv in Hinit as [slots [Hslots Hinit]].
  apply bind_Ok_inv in Hinit as [bs [_ Hinit]].
  injection Hinit as <-. cbn [order].
  match type of Hslots with basis_from_dict ?o _ = _ => set (self_order := o) in * end.
  unfold basis_from_dict in Hslots.
  set (s := list_to_set (dict_values self_order) : gset Z) in *.
  apply bind_Ok_inv in Hslots as [mn [Hmn Hslots]].
  apply bind_Ok_inv in Hslots as [mx [Hmx Hslots]].
  destruct (elements s) as [|x l] eqn:Hel; [discriminate|].
  injection Hmn as <-. injection Hmx as <-.
  destruct (negb (bool_decide (foldr Z.min x l = 0))
            || negb (bool_decide (foldr Z.max x l = Z.of_nat (size s) - 1)))
    eqn:Hcheck; [discriminate|].
  apply orb_false_iff in Hcheck as [Hmin Hmax].
  apply negb_false_iff, bool_decide_eq_true in Hmin, Hmax.
  destruct (foldr_min_spec x l) as [_ Hlow].
  destruct (foldr_max_spec x l) as [_ Hhigh].
  rewrite Hmin in Hlow. rewrite Hmax in Hhigh. rewrite <- Hel in Hlow, Hhigh.
  rewrite Forall_forall in Hlow, Hhigh.
  split.
  - intros Hnil. unfold s in Hel. rewrite Hnil in Hel. simpl in Hel.
    rewrite elements_empty in Hel. discriminate.
  - intros z. rewrite <- (elem_of_list_to_set (C := gset Z)). fold s.
    apply range_of_min_max. intros y Hy. apply elem_of_elements in Hy.
    specialize (Hlow y Hy). specialize (Hhigh y Hy). lia.
Qed.

(** The same order with the basis given as a dict is rejected. *)
Lemma order_validated_with_dict_basis :
  @Model_init string _ _ unit (OrderDict [("e_0", 5)])
    (BasisDict [("e_0", BasisSimpleElectron)]) [] None
  = Raise (ValueError "order is not continuous integers from 0").
Proof. vm_compute. reflexivity. Qed.

(** ** Stages of [HolsteinModel.__init__] *)

Section HolsteinFacts.
Context {CacheKey : Type} `{Countable CacheKey} {Mpos : Type}.
Implicit Types (h : @HolsteinModel.t CacheKey _ _ Mpos).

Lemma HolsteinModel_init_inv mol_list j scheme periodic h :
  HolsteinModel_init mol_list j scheme periodic = Ok h ->
  exists jm lay m1 m2 m3 self n,
    coupling_matrix (length mol_list) j periodic = Ok jm
    /\ layout_of_scheme scheme mol_list = Ok lay
    /\ electronic_terms mol_list jm [] = Ok m1
    /\ vibration_terms mol_list (lay_mapping lay) m1 = Ok m2
    /\ potential_terms mol_list (lay_mapping lay) m2 = Ok m3
    /\ Model_init (OrderDict (lay_order lay)) (BasisList (lay_basis lay)) m3
         (Some (dipole_of mol_list)) = Ok self
    /\ n_edofs self = Ok n
    /\ h = HolsteinModel.mk _ _ _ _ self mol_list jm scheme periodic
             (lay_mapping lay) n.
Proof.
  unfold HolsteinModel_init. intros Hinit.
  apply bind_Ok_inv in Hinit as [jm [Hjm Hinit]].
  apply bind_Ok_inv in Hinit as [lay [Hlay Hinit]].
  apply bind_Ok_inv in Hinit as [m1 [Hm1 Hinit]].
  apply bind_Ok_inv in Hinit as [m2 [Hm2 Hinit]].
  apply bind_Ok_inv in Hinit as [m3 [Hm3 Hinit]].
  apply bind_Ok_inv in Hinit as [self [Hself Hinit]].
  apply bind_Ok_inv in Hinit as [n [Hn Hinit]].
  injection Hinit as <-. by exists jm, lay, m1, m2, m3, self, n.
Qed.

Lemma Model_init_list_basis o bs md dp (self : @Model CacheKey _ _ Mpos) :
  Model_init (OrderDict o) (BasisList bs) md dp = Ok self ->
  order self = o /\ basis self = bs /\ model self = md /\ dipole self = dp.
Proof.
  unfold Model_init. intros Hinit.
  apply bind_Ok_inv in Hinit as [slots [Hslots Hinit]].
  apply bind_Ok_inv in Hinit as [bs' [Hbs Hinit]].
  injection Hslots as <-. injection Hinit as <-. simpl.
  assert (bs' = bs) as ->; [|done].
  revert bs' Hbs. induction bs as [|b bs IH]; intros bs' Hbs; simpl in Hbs.
  - by injection Hbs as <-.
  - apply bind_Ok_inv in Hbs as [bs0 [Hbs0 Hbs]]. injection Hbs as <-.
    f_equal. by apply IH.
Qed.

(** A scheme above 4 is rejected: construction never returns a model, and
    when the coupling argument is well formed the error is the one of line
    225, raised before any term of the model is assembled. *)
Lemma scheme_above_4_is_rejected mol_list j scheme periodic :
  4 < scheme ->
  raises (@HolsteinModel_init CacheKey _ _ Mpos mol_list j scheme periodic)
  /\ (is_Ok (coupling_matrix (length mol_list) j periodic) ->
      @HolsteinModel_init CacheKey _ _ Mpos mol_list j scheme periodic
      = Raise (ValueError ("invalid model.scheme: " +:+ pretty scheme))).
Proof.
  intros Hs.
  assert (Hlay : layout_of_scheme scheme mol_list
                 = Raise (ValueError ("invalid model.scheme: " +:+ pretty scheme))).
  { unfold layout_of_scheme. rewrite !decide_False; [done | lia | lia]. }
  unfold HolsteinModel_init.
  destruct (coupling_matrix (length mol_list) j periodic) as [jm|e]; simpl.
  - rewrite Hlay. simpl. split; [by eexists | done].
  - split; [by eexists | intros [a Ha]; discriminate].
Qed.

Lemma np_isclose_zero (x : Qc) :
  np_isclose x 0%Qc = bool_decide (Qcabs x <= atol)%Qc.
Proof.
  unfold np_isclose.
  replace (x - 0)%Qc with x by ring.
  replace (atol + rtol * Qcabs 0)%Qc with atol; [done|].
  replace (Qcabs 0%Qc) with 0%Qc by done. ring.
Qed.

Lemma vibration_terms_raises mol_list mapping m0 mol ph :
  mol ∈ mol_list -> ph ∈ Mol.ph_list mol ->
  np_allclose2 (Phonon.force3rd ph) (0, 0)%Qc = false ->
  raises (vibration_terms mol_list mapping m0).
Proof.
  intros Hmol Hph Hclose. unfold vibration_terms.
  destruct (enumerate_from_elem _ 0 _ Hmol) as [imol Himol].
  destruct (enumerate_from_elem _ 0 _ Hph) as [iph Hiph].
  eapply for_each_raises; [exact Himol|]. intros m. simpl.
  eapply for_each_raises; [exact Hiph|]. intros m'. simpl.
  rewrite Hclose. by eexists.
Qed.
End HolsteinFacts.

(** ** The assertion on cubic force constants *)

(** C9 as stated fails: a mode whose cubic force constant is [2^-30] on one
    surface (not both zero) is accepted, because the assertion compares with
    [np.allclose]. *)
Lemma tiny_force3rd_is_accepted :
  ~ (forall (mol_list : list Mol.t) (j : j_arg) (scheme : Z) (periodic : bool),
       (exists mol ph, mol ∈ mol_list /\ ph ∈ Mol.ph_list mol
                       /\ Phonon.force3rd ph <> (0, 0)%Qc) ->
       raises (@HolsteinModel_init string _ _ unit mol_list j scheme periodic)).
Proof.
  intros Hclaim.
  destruct (Hclaim [example_mol [tiny_force_phonon]] JNone 2 false) as [e He].
  - exists (example_mol [tiny_force_phonon]), tiny_force_phonon.
    split; [set_solver|]. split; [set_solver|].
    intros Heq. apply (f_equal (fun p : Qc * Qc => this p.1)) in Heq.
    vm_compute in Heq. discriminate.
  - vm_compute in He. discriminate.
Qed.

(** The constructor reads [force3rd] only in the assertion: with every cubic
    force constant within the tolerance the stages run as on the list with
    the constants set to zero. *)
Lemma layout_ph123_harmonic (imol : nat) (phs : list Phonon.t) (k : nat) (st : layout) :
  fold_left (layout_ph123 imol) (enumerate_from k (harmonic_ph <$> phs)) st
  = fold_left (layout_ph123 imol) (enumerate_from k phs) st.
Proof.
  revert k st. induction phs as [|ph phs IH]; intros k st; [done|].
  rewrite fmap_cons. cbn [enumerate_from fold_left]. by rewrite IH.
Qed.

Lemma layout_mol123_harmonic (ml : list Mol.t) (k : nat) (st : layout) :
  fold_left layout_mol123 (enumerate_from k (harmonic_mol <$> ml)) st
  = fold_left layout_mol123 (enumerate_from k ml) st.
Proof.
  revert k st. induction ml as [|mol ml IH]; intros k st; [done|].
  rewrite fmap_cons. cbn [enumerate_from fold_left]. rewrite IH. f_equal.
  unfold layout_mol123, enumerate. cbn [harmonic_mol Mol.ph_list].
  apply layout_ph123_harmonic.
Qed.

Lemma layout_ph4_harmonic (nl imol : nat) (phs : list Phonon.t) (k : nat) (st : layout) :
  fold_left (layout_ph4 nl imol) (enumerate_from k (harmonic_ph <$> phs)) st
  = fold_left (layout_ph4 nl imol) (enumerate_from k phs) st.
Proof.
  revert k st. induction phs as [|ph phs IH]; intros k st; [done|].
  rewrite fmap_cons. cbn [enumerate_from fold_left]. by rewrite IH.
Qed.

Lemma layout_mol4_harmonic (nl : nat) (ml : list Mol.t) (k : nat) (st : layout) :
  fold_left (layout_mol4 nl) (enumerate_from k (harmonic_mol <$> ml)) st
  = fold_left (layout_mol4 nl) (enumerate_from k ml) st.
Proof.
  revert k st. induction ml as [|mol ml IH]; intros k st; [done|].
  rewrite fmap_cons. cbn [enumerate_from fold_left]. rewrite IH. f_equal.
  unfold layout_mol4, enumerate. cbn [harmonic_mol Mol.ph_list].
  apply layout_ph4_harmonic.
Qed.

Lemma layout_of_scheme_harmonic (scheme : Z) (ml : list Mol.t) :
  layout_of_scheme scheme (harmonic_mol <$> ml) = layout_of_scheme scheme ml.
Proof.
  unfold layout_of_scheme, layout_scheme123, layout_scheme4, enumerate.
  by rewrite length_fmap, layout_mol123_harmonic, layout_mol4_harmonic.
Qed.

Lemma dipole_of_harmonic (ml : list Mol.t) :
  dipole_of (harmonic_mol <$> ml) = dipole_of ml.
Proof.
  unfold dipole_of, enumerate. generalize (@nil (list string * Qc)) 0%nat.
  induction ml as [|mol ml IH]; intros d k; [done|].
  rewrite fmap_cons. cbn [enumerate_from fold_left]. by rewrite IH.
Qed.

Lemma py_list_get_fmap {A B} (f : A -> B) (l : list A) (i : Z) :
  py_list_get (f <$> l) i = f <$> py_list_get l i.
Proof.
  unfold py_list_get. rewrite length_fmap.
  destruct (py_index (length l) i) as [n|]; [|done].
  rewrite list_lookup_fmap. by destruct (l !! n).
Qed.

Lemma for_each_same {A S} (body1 body2 : S -> A -> result S) (l1 l2 : list A) :
  Forall2 (fun x1 x2 => forall s, body1 s x1 = body2 s x2) l1 l2 ->
  forall s, for_each body1 l1 s = for_each body2 l2 s.
Proof.
  induction 1 as [|x1 x2 l1 l2 Hx _ IH]; intros s; [done|].
  cbn [for_each]. rewrite Hx. destruct (body2 s x2) as [s'|e]; [apply IH | done].
Qed.

Lemma enumerate_from_Forall2 {A B} (R : A -> B -> Prop) (l1 : list A)
    (l2 : list B) (k : nat) :
  Forall2 R l1 l2 ->
  Forall2 (fun x1 x2 => x1.1 = x2.1 /\ R x1.2 x2.2)
          (enumerate_from k l1) (enumerate_from k l2).
Proof.
  intros Hl. revert k. induction Hl as [|x1 x2 l1 l2 Hx _ IH]; intros k;
    cbn [enumerate_from]; constructor; [done | apply IH].
Qed.

Lemma Forall2_fmap_self {A} (f : A -> A) (R : A -> A -> Prop) (l : list A) :
  (forall x, x ∈ l -> R (f x) x) -> Forall2 R (f <$> l) l.
Proof.
  induction l as [|x l IH]; intros HR; [constructor|].
  rewrite fmap_cons. constructor; [apply HR; by left|].
  apply IH. intros y Hy. apply HR. by right.
Qed.

Lemma electronic_terms_harmonic (ml : list Mol.t) (jm : ndarray2)
    (m0 : pydict (list string) (list term)) :
  electronic_terms (harmonic_mol <$> ml) jm m0 = electronic_terms ml jm m0.
Proof.
  unfold electronic_terms. rewrite length_fmap. revert m0.
  apply for_each_same. apply Forall_Forall2_diag, Forall_forall. intros imol _ m.
  revert m. apply for_each_same. apply Forall_Forall2_diag, Forall_forall.
  intros jmol _ m. destruct (decide (imol = jmol)) as [_|_]; [|done].
  rewrite py_list_get_fmap. by destruct (py_list_get ml (Z.of_nat imol)).
Qed.

Lemma vibration_terms_harmonic (ml : list Mol.t)
    (mapping : pydict (nat * nat) string) (m0 : pydict (list string) (list term)) :
  (forall mol ph, mol ∈ ml -> ph ∈ Mol.ph_list mol ->
     np_allclose2 (Phonon.force3rd ph) (0, 0)%Qc = true) ->
  vibration_terms (harmonic_mol <$> ml) mapping m0 = vibration_terms ml mapping m0.
Proof.
  intros Hclose. unfold vibration_terms, enumerate. revert m0.
  apply for_each_same.
  eapply Forall2_impl;
    [apply (enumerate_from_Forall2
              (fun mol0 mol => mol0 = harmonic_mol mol /\ mol ∈ ml)),
       Forall2_fmap_self; by intros mol Hmol|].
  intros [imol0 mol0] [imol mol] Hx m. cbn [fst snd] in Hx.
  destruct Hx as (-> & -> & Hmol).
  cbn [harmonic_mol Mol.ph_list]. revert m. apply for_each_same.
  eapply Forall2_impl;
    [apply (enumerate_from_Forall2
              (fun ph0 ph => ph0 = harmonic_ph ph /\ ph ∈ Mol.ph_list mol)),
       Forall2_fmap_self; by intros ph Hph|].
  intros [iph0 ph0] [iph ph] Hx m. cbn [fst snd] in Hx.
  destruct Hx as (-> & -> & Hph).
  cbn [harmonic_ph Phonon.force3rd Phonon.omega].
  rewrite (Hclose mol ph Hmol Hph).
  by replace (np_allclose2 (0, 0)%Qc (0, 0)%Qc) with true by (by vm_compute).
Qed.

Lemma potential_terms_harmonic (ml : list Mol.t)
    (mapping : pydict (nat * nat) string) (m0 : pydict (list string) (list term)) :
  potential_terms (harmonic_mol <$> ml) mapping m0 = potential_terms ml mapping m0.
Proof.
  unfold potential_terms, enumerate. revert m0.
  apply for_each_same.
  eapply Forall2_impl;
    [apply (enumerate_from_Forall2 (fun mol0 mol => mol0 = harmonic_mol mol)),
       Forall2_fmap_self; by intros mol Hmol|].
  intros [imol0 mol0] [imol mol] Hx m. cbn [fst snd] in Hx.
  destruct Hx as (-> & ->).
  cbn [harmonic_mol Mol.ph_list]. revert m. apply for_each_same.
  eapply Forall2_impl;
    [apply (enumerate_from_Forall2 (fun ph0 ph => ph0 = harmonic_ph ph)),
       Forall2_fmap_self; by intros ph Hph|].
  intros [iph0 ph0] [iph ph] Hx m. cbn [fst snd] in Hx.
  by destruct Hx as (-> & ->).
Qed.

Lemma np_allclose2_zero (p : Qc * Qc) :
  np_allclose2 p (0, 0)%Qc = true
  <-> (Qcabs p.1 <= atol)%Qc /\ (Qcabs p.2 <= atol)%Qc.
Proof.
  unfold np_allclose2. cbn [fst snd]. rewrite !np_isclose_zero, andb_true_iff.
  by rewrite !bool_decide_eq_true.
Qed.

(** C9, amended.  The assertion on the cubic force constants of a mode
    passes exactly when their magnitudes on both surfaces are at most the
    absolute tolerance of [np.allclose] (the float64 nearest [1e-8]).  If
    some mode of some molecule exceeds the tolerance on one of the two
    surfaces, construction of a [HolsteinModel] fails, for every coupling
    argument and scheme.  If every mode is within the tolerance, the modes
    are accepted as harmonic: construction has the outcome it has on the
    same list with every cubic force constant set to zero, the same
    exception or the same model (which records the list as given). *)
Theorem force3rd_is_compared_with_tolerance {CacheKey : Type} `{Countable CacheKey}
    {Mpos : Type} (mol_list : list Mol.t) (j : j_arg) (scheme : Z)
    (periodic : bool) :
  (forall ph : Phonon.t,
     np_allclose2 (Phonon.force3rd ph) (0, 0)%Qc = true
     <-> (Qcabs (Phonon.force3rd ph).1 <= atol)%Qc
         /\ (Qcabs (Phonon.force3rd ph).2 <= atol)%Qc)
  /\ ((exists mol ph, mol ∈ mol_list /\ ph ∈ Mol.ph_list mol
         /\ (atol < Qcabs (Phonon.force3rd ph).1
             \/ atol < Qcabs (Phonon.force3rd ph).2)%Qc) ->
      raises (@HolsteinModel_init CacheKey _ _ Mpos mol_list j scheme periodic))
  /\ ((forall mol ph, mol ∈ mol_list -> ph ∈ Mol.ph_list mol ->
         (Qcabs (Phonon.force3rd ph).1 <= atol)%Qc
         /\ (Qcabs (Phonon.force3rd ph).2 <= atol)%Qc) ->
      @HolsteinModel_init CacheKey _ _ Mpos mol_list j scheme periodic
      = with_mol_list mol_list
          <$> HolsteinModel_init (harmonic_mol <$> mol_list) j scheme periodic).
Proof.
  split; [intros ph; apply np_allclose2_zero|]. split.
  - intros (mol & ph & Hmol & Hph & Hbig).
    assert (Hclose : np_allclose2 (Phonon.force3rd ph) (0, 0)%Qc = false).
    { apply not_true_is_false. intros [H1 H2]%np_allclose2_zero.
      destruct Hbig as [Hbig|Hbig]; by apply Qclt_not_le in Hbig. }
    unfold HolsteinModel_init.
    destruct (coupling_matrix _ _ _) as [jm|e]; simpl; [|by eexists].
    destruct (layout_of_scheme _ _) as [lay|e]; simpl; [|by eexists].
    destruct (electronic_terms _ _ _) as [m1|e]; simpl; [|by eexists].
    destruct (vibration_terms_raises mol_list (lay_mapping lay) m1 mol ph
                Hmol Hph Hclose) as [e ->].
    by eexists.
  - intros Hsmall.
    assert (Hclose : forall mol ph, mol ∈ mol_list -> ph ∈ Mol.ph_list mol ->
                       np_allclose2 (Phonon.force3rd ph) (0, 0)%Qc = true).
    { intros mol ph Hmol Hph. apply np_allclose2_zero.
      exact (Hsmall mol ph Hmol Hph). }
    unfold HolsteinModel_init.
    rewrite length_fmap, layout_of_scheme_harmonic, dipole_of_harmonic.
    destruct (coupling_matrix _ _ _) as [jm|e]; [|done].
    rewrite !result_bind_Ok.
    destruct (layout_of_scheme _ _) as [lay|e]; [|done].
    rewrite !result_bind_Ok, electronic_terms_harmonic.
    destruct (electronic_terms _ _ _) as [m1|e]; [|done].
    rewrite !result_bind_Ok, (vibration_terms_harmonic _ _ _ Hclose).
    destruct (vibration_terms _ _ _) as [m2|e]; [|done].
    rewrite !result_bind_Ok, potential_terms_harmonic.
    destruct (potential_terms _ _ _) as [m3|e]; [|done].
    rewrite !result_bind_Ok.
    destruct (Model_init _ _ _ _) as [self|e]; [|done].
    rewrite !result_bind_Ok.
    by destruct (n_edofs self) as [n|e].
Qed.

Lemma force3rd_is_compared_with_tolerance_witness :
  raises (@HolsteinModel_init string _ _ unit
            [example_mol [Phonon.mk (1, 1)%Qc (0, 1)%Qc (0, 1)%Qc 4]]
            JNone 2 false)
  /\ @HolsteinModel_init string _ _ unit [example_mol [tiny_force_phonon]]
       JNone 2 false
     = with_mol_list [example_mol [tiny_force_phonon]]
         <$> HolsteinModel_init (harmonic_mol <$> [example_mol [tiny_force_phonon]])
               JNone 2 false
  /\ is_Ok (@HolsteinModel_init string _ _ unit [example_mol [tiny_force_phonon]]
              JNone 2 false).
Proof.
  split; [|split].
  - apply (proj1 (proj2 (force3rd_is_compared_with_tolerance
             [example_mol [Phonon.mk (1, 1)%Qc (0, 1)%Qc (0, 1)%Qc 4]]
             JNone 2 false))).
    exists (example_mol [Phonon.mk (1, 1)%Qc (0, 1)%Qc (0, 1)%Qc 4]),
           (Phonon.mk (1, 1)%Qc (0, 1)%Qc (0, 1)%Qc 4).
    split; [constructor|]. split; [constructor|]. right. reflexivity.
  - apply (proj2 (proj2 (force3rd_is_compared_with_tolerance
             [example_mol [tiny_force_phonon]] JNone 2 false))).
    intros mol ph Hmol Hph.
    apply list_elem_of_singleton in Hmol. subst mol.
    apply list_elem_of_singleton in Hph. subst ph.
    split; vm_compute; discriminate.
  - vm_compute. by eexists.
Defined.

(** ** The layout of scheme 4 *)

Lemma layout_ph4_fold (nl imol : nat) (phs : list Phonon.t) (k : nat) (st : layout) :
  lay_basis (fold_left (layout_ph4 nl imol) (enumerate_from k phs) st)
  = lay_basis st ++ (sho_basis <$> phs)
  /\ lay_n_left_ph (fold_left (layout_ph4 nl imol) (enumerate_from k phs) st)
     = (lay_n_left_ph st + if bool_decide (imol < nl)%nat then length phs else 0)%nat.
Proof.
  revert k st. induction phs as [|ph phs IH]; intros k st;
    cbn [enumerate_from fold_left fmap list_fmap length].
  - rewrite app_nil_r. split; [done|]. case_bool_decide; lia.
  - destruct (IH (S k) (layout_ph4 nl imol st (k, ph))) as [Hb Hn].
    rewrite Hb, Hn. cbn [layout_ph4 lay_basis lay_n_left_ph].
    rewrite <- app_assoc. split; [done|]. case_bool_decide; lia.
Qed.

Lemma n_modes_cons (mol : Mol.t) (mols : list Mol.t) :
  n_modes (mol :: mols) = (length (Mol.ph_list mol) + n_modes mols)%nat.
Proof. reflexivity. Qed.

Lemma layout_mol4_fold (nl : nat) (mols : list Mol.t) (k : nat) (st : layout) :
  lay_basis (fold_left (layout_mol4 nl) (enumerate_from k mols) st)
  = lay_basis st ++ concat ((fun mol => sho_basis <$> Mol.ph_list mol) <$> mols)
  /\ lay_n_left_ph (fold_left (layout_mol4 nl) (enumerate_from k mols) st)
     = (lay_n_left_ph st + n_modes (take (nl - k) mols))%nat.
Proof.
  revert k st. induction mols as [|mol mols IH]; intros k st;
    cbn [enumerate_from fold_left fmap list_fmap concat].
  - rewrite app_nil_r, take_nil. unfold n_modes. simpl. split; [done | lia].
  - destruct (IH (S k) (layout_mol4 nl st (k, mol))) as [Hb Hn].
    rewrite Hb, Hn. cbn [layout_mol4].
    destruct (layout_ph4_fold nl k (Mol.ph_list mol) 0 st) as [Hb1 Hn1].
    unfold enumerate. rewrite Hb1, Hn1. rewrite <- app_assoc. split; [done|].
    case_bool_decide as Hlt.
    + replace (nl - k)%nat with (S (nl - S k)) by lia.
      cbn [take]. rewrite n_modes_cons. lia.
    + replace (nl - k)%nat with 0%nat by lia.
      replace (nl - S k)%nat with 0%nat by lia. rewrite !take_0.
      unfold n_modes. simpl. lia.
Qed.

Lemma n_modes_concat (mols : list Mol.t) :
  length (concat ((fun mol => sho_basis <$> Mol.ph_list mol) <$> mols)) = n_modes mols.
Proof.
  induction mols as [|mol mols IH]; [done|].
  rewrite n_modes_cons, <- IH. cbn [fmap list_fmap concat].
  by rewrite length_app, length_fmap.
Qed.

Lemma n_modes_take_le (n : nat) (mols : list Mol.t) :
  (n_modes (take n mols) <= n_modes mols)%nat.
Proof.
  revert n. induction mols as [|mol mols IH]; intros [|n]; cbn [take];
    rewrite ?n_modes_cons; try (unfold n_modes; simpl; lia).
  specialize (IH n). lia.
Qed.

Lemma dict_set_const_fold {A} (f : A -> string) (xs : list A) (v : Z)
    (o : pydict string Z) (k : string) :
  (exists x, x ∈ xs /\ f x = k) \/ dict_get k o = Some v ->
  dict_get k (fold_left (fun o x => dict_set (f x) v o) xs o) = Some v.
Proof.
  revert o. induction xs as [|x xs IH]; intros o Hk; simpl.
  - destruct Hk as [[x [Hx _]]|Hk]; [by apply elem_of_nil in Hx | done].
  - apply IH. destruct (decide (f x = k)) as [<-|Hne].
    + right. apply dict_get_set_eq.
    + destruct Hk as [[y [Hy Hfy]]|Hk].
      * apply elem_of_cons in Hy as [->|Hy]; [done | left; eauto].
      * right. by rewrite dict_get_set_ne.
Qed.

Lemma list_insert_at_lookup {A} (i : nat) (x : A) (l : list A) :
  (i <= length l)%nat -> list_insert_at i x l !! i = Some x.
Proof.
  intros Hi. unfold list_insert_at.
  rewrite lookup_app_r; rewrite length_take; [|lia].
  by replace (i - i `min` length l)%nat with 0%nat by lia.
Qed.

Lemma list_insert_at_other {A} (i j : nat) (x y : A) (l : list A) :
  (i <= length l)%nat -> j <> i -> list_insert_at i x l !! j = Some y -> y ∈ l.
Proof.
  intros Hi Hne. unfold list_insert_at. intros Hj.
  apply lookup_app_Some in Hj as [Hj|[Hlen Hj]].
  - apply list_elem_of_lookup_2 in Hj. by apply (subseteq_take i l).
  - rewrite length_take in *.
    destruct (j - i `min` length l)%nat as [|n] eqn:Hd; simpl in Hj; [lia|].
    apply list_elem_of_lookup_2 in Hj. by apply (subseteq_drop i l).
Qed.

Lemma elem_of_concat_inv {A} (x : A) (ls : list (list A)) :
  x ∈ concat ls -> exists l, x ∈ l /\ l ∈ ls.
Proof.
  induction ls as [|l ls IH]; simpl; intros Hx.
  - by apply elem_of_nil in Hx.
  - apply elem_of_app in Hx as [Hx|Hx].
    + exists l. split; [done | by left].
    + destruct (IH Hx) as [l' [Hl' Hin]]. exists l'. split; [done | by right].
Qed.

Lemma layout_scheme4_spec (mol_list : list Mol.t) :
  let site := n_modes (take (length mol_list / 2) mol_list) in
  lay_n_left_ph (layout_scheme4 mol_list) = site
  /\ (forall imol, (imol < length mol_list)%nat ->
        dict_get (dof_name "e" imol) (lay_order (layout_scheme4 mol_list))
        = Some (Z.of_nat site))
  /\ lay_basis (layout_scheme4 mol_list) !! site
     = Some (BasisMultiElectronVac (length mol_list))
  /\ (forall i b, i <> site -> lay_basis (layout_scheme4 mol_list) !! i = Some b ->
        is_electron b = false).
Proof.
  intros site. unfold layout_scheme4. cbn [lay_n_left_ph lay_order lay_basis].
  destruct (layout_mol4_fold (length mol_list / 2) mol_list 0 layout_init)
    as [Hb Hn].
  unfold enumerate. rewrite Hb, Hn. cbn [layout_init lay_basis lay_n_left_ph].
  rewrite Nat.sub_0_r, app_nil_l, Nat.add_0_l. fold site.
  assert (Hle : (site <= length (concat ((fun mol => sho_basis <$> Mol.ph_list mol)
                                           <$> mol_list)))%nat).
  { rewrite n_modes_concat. apply n_modes_take_le. }
  split; [done|]. split; [|split].
  - intros imol Hlt. apply (dict_set_const_fold (dof_name "e")). left.
    exists imol. split; [|done]. apply elem_of_seq. lia.
  - by apply list_insert_at_lookup.
  - intros i b Hne Hb'. apply list_insert_at_other in Hb'; [|done..].
    apply elem_of_concat_inv in Hb' as [bs [Hb' Hbs]].
    apply list_elem_of_fmap in Hbs as [mol [-> _]].
    by apply list_elem_of_fmap in Hb' as [ph [-> _]].
Qed.

(** C5.  In a [HolsteinModel] built with scheme 4 from [mol_num] molecules,
    [order] sends every electronic DoF [e_0 .. e_{mol_num-1}] to one site,
    whose index is the number of vibrational modes of the first
    [mol_num // 2] molecules; the basis at that site is the
    multi-electron-vacuum basis over [mol_num] electronic DoFs, and every
    other site carries a vibrational basis. *)
Theorem scheme4_merges_electronic_dofs {CacheKey : Type} `{Countable CacheKey}
    {Mpos : Type} (mol_list : list Mol.t) (j : j_arg) (periodic : bool)
    (h : @HolsteinModel.t CacheKey _ _ Mpos) :
  HolsteinModel_init mol_list j 4 periodic = Ok h ->
  let mol_num := length mol_list in
  let site := n_modes (take (mol_num / 2) mol_list) in
  (forall imol, (imol < mol_num)%nat ->
     dict_get (dof_name "e" imol) (order (HolsteinModel.to_Model h))
     = Some (Z.of_nat site))
  /\ basis (HolsteinModel.to_Model h) !! site = Some (BasisMultiElectronVac mol_num)
  /\ (forall i b, i <> site -> basis (HolsteinModel.to_Model h) !! i = Some b ->
        is_electron b = false).
Proof.
  intros Hinit mol_num site.
  apply HolsteinModel_init_inv in Hinit
    as (jm & lay & m1 & m2 & m3 & self & n & _ & Hlay & _ & _ & _ & Hself & _ & ->).
  unfold layout_of_scheme in Hlay. rewrite decide_False, decide_True in Hlay by lia.
  injection Hlay as <-.
  apply Model_init_list_basis in Hself as (Ho & Hb & _ & _).
  cbn [HolsteinModel.to_Model]. rewrite Ho, Hb.
  destruct (layout_scheme4_spec mol_list) as (_ & He & Hsite & Hother).
  split; [exact He|]. split; [exact Hsite | exact Hother].
Qed.

Lemma scheme4_merges_electronic_dofs_witness :
  exists h : @HolsteinModel.t string _ _ unit,
    HolsteinModel_init
      [example_mol [example_phonon 1%Qc 4; example_phonon 1%Qc 3];
       example_mol [example_phonon 1%Qc 5];
       example_mol [example_phonon 1%Qc 2; example_phonon 1%Qc 6]]
      (JQuantity (mkQuantity 1%Qc)) 4 false = Ok h
    /\ dict_get "e_2" (order (HolsteinModel.to_Model h)) = Some 2
    /\ basis (HolsteinModel.to_Model h) !! 2%nat = Some (BasisMultiElectronVac 3).
Proof.
  eexists. split; [vm_compute; reflexivity|].
  refine (let H := scheme4_merges_electronic_dofs
                     [example_mol [example_phonon 1%Qc 4; example_phonon 1%Qc 3];
                      example_mol [example_phonon 1%Qc 5];
                      example_mol [example_phonon 1%Qc 2; example_phonon 1%Qc 6]]
                     (JQuantity (mkQuantity 1%Qc)) false _ _ in _).
  destruct H as (He & Hb & _). split.
  - apply (He 2%nat). simpl. lia.
  - exact Hb.
  Unshelve. vm_compute; reflexivity.
Defined.

(** ** The re-keying transform of [VibronicModel] *)

Lemma for_each_fmap {A B S} (body : S -> B -> result S) (f : A -> B)
    (l : list A) (s : S) :
  for_each body (f <$> l) s = for_each (fun s x => body s (f x)) l s.
Proof.
  revert s. induction l as [|x l IH]; intros s; simpl; [done|].
  destruct (body s (f x)); simpl; [apply IH | done].
Qed.

Lemma for_each_pure {A S} (f : S -> A -> S) (l : list A) (s : S) :
  for_each (fun s x => Ok (f s x)) l s = Ok (fold_left f l s).
Proof. revert s. induction l as [|x l IH]; intros s; simpl; [done | apply IH]. Qed.

Lemma for_each_ext {A S} (body1 body2 : S -> A -> result S) (l : list A) (s : S) :
  (forall s x, body1 s x = body2 s x) -> for_each body1 l s = for_each body2 l s.
Proof.
  intros Hext. revert s. induction l as [|x l IH]; intros s; simpl; [done|].
  rewrite Hext. destruct (body2 s x); simpl; [apply IH | done].
Qed.

Lemma translate_entry_writes (nm : pydict (list string) (list term))
    (e : vibronic_entry) :
  translate_entry nm e = for_each do_write (writes_of e) nm.
Proof.
  destruct e as [e_v|e_k e_v]; simpl.
  - rewrite for_each_fmap. simpl. rewrite <- for_each_pure.
    apply for_each_ext. by intros s [kk vv].
  - by rewrite for_each_fmap.
Qed.

Lemma vibronic_new_model_writes (model0 : list vibronic_entry) :
  vibronic_new_model model0 = for_each do_write (concat (writes_of <$> model0)) [].
Proof.
  unfold vibronic_new_model. generalize ([] : pydict (list string) (list term)).
  induction model0 as [|e model0 IH]; intros nm; simpl; [done|].
  rewrite for_each_app, translate_entry_writes.
  destruct (for_each do_write (writes_of e) nm); simpl; [apply IH | done].
Qed.

Lemma dd_append_fold (k : list string) (op : term) (vv : list term)
    (nm : pydict (list string) (list term)) :
  (forall k', k' <> k ->
     dict_get k' (fold_left (fun nm t => dd_append k (op ++ t) nm) vv nm)
     = dict_get k' nm)
  /\ dd_get k (fold_left (fun nm t => dd_append k (op ++ t) nm) vv nm)
     = dd_get k nm ++ ((fun t => op ++ t) <$> vv).
Proof.
  revert nm. induction vv as [|t vv IH]; intros nm; cbn [fold_left].
  - split; [done | by rewrite app_nil_r].
  - destruct (IH (dd_append k (op ++ t) nm)) as [Hframe Hget]. split.
    + intros k' Hne. rewrite Hframe by done. unfold dd_append.
      by rewrite dict_get_set_ne.
    + rewrite Hget. rewrite fmap_cons.
      assert (Hk : dd_get k (dd_append k (op ++ t) nm) = dd_get k nm ++ [op ++ t]).
      { unfold dd_get at 1, dd_append. by rewrite dict_get_set_eq. }
      rewrite Hk. by rewrite <- app_assoc.
Qed.

Lemma translate_sub_unfold (e_k : list string) (s : sub_entry)
    (nm : pydict (list string) (list term)) :
  length e_k = 2%nat ->
  translate_sub e_k nm s
  = Ok match s with
       | SubJ c => dict_set (new_e_k_of e_k) [e_op_of e_k ++ [TNum c]] nm
       | SubDofs kk vv =>
           fold_left (fun nm t => dd_append (new_e_k_of e_k ++ kk) (e_op_of e_k ++ t) nm)
                     vv nm
       end.
Proof.
  intros Hlen. unfold translate_sub, new_e_k_of, e_op_of.
  rewrite bool_decide_eq_true_2 by done. simpl.
  destruct (decide (e_k !! 0%nat = e_k !! 1%nat)); by destruct s.
Qed.

(** One visit writes its own key and no other. *)
Lemma do_write_spec (w : write) (nm : pydict (list string) (list term)) :
  write_ok w ->
  exists nm', do_write nm w = Ok nm'
    /\ (forall k', k' <> write_key w -> dict_get k' nm' = dict_get k' nm)
    /\ (dd_get (write_key w) nm = [] -> dd_get (write_key w) nm' = write_value w).
Proof.
  destruct w as [kk vv|e_k s]; simpl.
  - intros _. eexists. split; [done|]. split.
    + intros k' Hne. by rewrite dict_get_set_ne.
    + intros _. unfold dd_get. by rewrite dict_get_set_eq.
  - intros [(a & b & -> & _) _]. rewrite translate_sub_unfold by done.
    eexists. split; [done|]. destruct s as [c|kk vv].
    + split.
      * intros k' Hne. by rewrite dict_get_set_ne.
      * intros _. unfold dd_get. by rewrite dict_get_set_eq.
    + destruct (dd_append_fold (new_e_k_of [a; b] ++ kk) (e_op_of [a; b]) vv nm)
        as [Hframe Hget].
      split; [exact Hframe|]. intros Hempty. by rewrite Hget, Hempty.
Qed.

Lemma writes_run (ws : list write) (nm0 : pydict (list string) (list term)) :
  Forall write_ok ws ->
  NoDup (write_key <$> ws) ->
  (forall w, w ∈ ws -> dd_get (write_key w) nm0 = []) ->
  exists nm, for_each do_write ws nm0 = Ok nm
    /\ (forall w, w ∈ ws -> dd_get (write_key w) nm = write_value w)
    /\ (forall k, k ∉ write_key <$> ws -> dict_get k nm = dict_get k nm0).
Proof.
  revert nm0. induction ws as [|w ws IH]; intros nm0 Hok Hnd Hempty.
  - exists nm0. split; [done|]. split; [by intros w ?%elem_of_nil | done].
  - apply Forall_cons in Hok as [Hw Hok].
    rewrite fmap_cons in Hnd. apply NoDup_cons in Hnd as [Hnotin Hnd].
    destruct (do_write_spec w nm0 Hw) as (nm1 & Hdo & Hframe1 & Hval1).
    destruct (IH nm1 Hok Hnd) as (nm & Hrun & Hvals & Hframe).
    { intros w' Hw'. unfold dd_get. rewrite Hframe1.
      - apply Hempty. by right.
      - intros Heq. apply Hnotin. rewrite <- Heq.
        apply list_elem_of_fmap. by exists w'. }
    exists nm. simpl. rewrite Hdo. simpl. split; [done|]. split.
    + intros w' Hw'. apply elem_of_cons in Hw' as [->|Hw']; [|by apply Hvals].
      unfold dd_get. rewrite (Hframe _ Hnotin). apply Hval1, Hempty. by left.
    + intros k Hk. change (write_key <$> w :: ws)
        with (write_key w :: (write_key <$> ws)) in Hk.
      apply not_elem_of_cons in Hk as [Hne Hk].
      rewrite (Hframe _ Hk). by apply Hframe1.
Qed.

Lemma e_dof_not_v_dof (s : string) : is_e_dof s -> is_v_dof s -> False.
Proof. unfold is_e_dof, is_v_dof. intros -> Hv. discriminate. Qed.

Lemma vib_key_head (kk : list string) :
  vib_key kk -> exists x rest, kk = x :: rest /\ is_v_dof x.
Proof.
  intros [Hne Hall]. destruct kk as [|x rest]; [done|].
  apply Forall_cons in Hall as [Hx _]. by exists x, rest.
Qed.

Lemma new_e_k_of_pair (a b : string) :
  new_e_k_of [a; b] = if decide (a = b) then [a] else [a; b].
Proof.
  unfold new_e_k_of. simpl.
  destruct (decide (Some a = Some b)) as [Heq|Hne]; destruct (decide (a = b));
    try done; congruence.
Qed.

Lemma e_op_of_pair (a b : string) :
  e_op_of [a; b]
  = if decide (a = b) then [TOp OpNumber] else [TOp OpRaise; TOp OpLower].
Proof.
  unfold e_op_of. simpl.
  destruct (decide (Some a = Some b)) as [Heq|Hne]; destruct (decide (a = b));
    try done; congruence.
Qed.

(** A written key tells which outer key it comes from. *)
Lemma origin_of_write (w : write) :
  write_ok w ->
  origin_of_key (write_key w)
  = match w with WPure _ _ => None | WSub e_k _ => Some e_k end.
Proof.
  destruct w as [kk vv|e_k s]; simpl.
  - intros (x & rest & -> & Hv)%vib_key_head. simpl.
    rewrite decide_False; [done|]. intros He. by eapply e_dof_not_v_dof.
  - intros [(a & b & -> & Ha & Hb) Hs]. rewrite new_e_k_of_pair.
    destruct s as [c|kk vv]; simpl in *.
    + destruct (decide (a = b)) as [<-|Hne]; simpl.
      * by rewrite decide_True.
      * by rewrite !decide_True.
    + apply vib_key_head in Hs as (x & rest & -> & Hv).
      destruct (decide (a = b)) as [<-|Hne]; simpl.
      * rewrite decide_True by done. rewrite decide_False; [done|].
        intros He. by eapply e_dof_not_v_dof.
      * by rewrite !decide_True.
Qed.

Lemma NoDup_fmap_on {A B C} (f : A -> B) (g : A -> C) (l : list A) :
  NoDup (f <$> l) ->
  (forall x y, x ∈ l -> y ∈ l -> g x = g y -> f x = f y) ->
  NoDup (g <$> l).
Proof.
  induction l as [|x l IH]; intros Hnd Hinj; [constructor|].
  rewrite fmap_cons in *. apply NoDup_cons in Hnd as [Hnotin Hnd].
  apply NoDup_cons. split.
  - intros Hin. apply list_elem_of_fmap in Hin as [y [Hxy Hy]].
    apply Hnotin. apply list_elem_of_fmap. exists y. split; [|done].
    apply Hinj; [by left | by right | done].
  - apply IH; [done|]. intros y z Hy Hz. apply Hinj; by right.
Qed.

Lemma writes_of_ok (e : vibronic_entry) :
  entry_ok e ->
  Forall write_ok (writes_of e)
  /\ NoDup (write_key <$> writes_of e)
  /\ (forall w, w ∈ writes_of e -> origin_of_key (write_key w) = entry_key e).
Proof.
  destruct e as [e_v|e_k e_v]; simpl.
  - intros [Hnd Hvib].
    assert (Hok : Forall write_ok ((fun p => WPure p.1 p.2) <$> e_v)).
    { apply Forall_forall. intros w Hw.
      apply list_elem_of_fmap in Hw as [[kk vv] [-> Hin]]. simpl.
      rewrite Forall_forall in Hvib. apply Hvib.
      apply list_elem_of_fmap. by exists (kk, vv). }
    split; [done|]. split.
    + rewrite <- list_fmap_compose. exact Hnd.
    + intros w Hw. rewrite origin_of_write.
      * by apply list_elem_of_fmap in Hw as [[kk vv] [-> _]].
      * rewrite Forall_forall in Hok. by apply Hok.
  - intros (Hpair & Hnd & Hsub).
    assert (Hok : Forall write_ok (WSub e_k <$> e_v)).
    { apply Forall_forall. intros w Hw.
      apply list_elem_of_fmap in Hw as [s [-> Hin]]. simpl. split; [done|].
      rewrite Forall_forall in Hsub. by apply Hsub. }
    split; [done|]. split.
    + rewrite <- list_fmap_compose. apply (NoDup_fmap_on sub_key); [done|].
      intros s s' Hs Hs' Heq. simpl in Heq.
      rewrite Forall_forall in Hsub.
      pose proof (Hsub s Hs) as Hoks. pose proof (Hsub s' Hs') as Hoks'.
      destruct s as [c|kk vv], s' as [c'|kk' vv']; simpl in *.
      * done.
      * apply vib_key_head in Hoks' as (x & rest & -> & _).
        rewrite <- (app_nil_r (new_e_k_of e_k)) in Heq at 1.
        by apply app_inv_head in Heq.
      * apply vib_key_head in Hoks as (x & rest & -> & _).
        rewrite <- (app_nil_r (new_e_k_of e_k)) in Heq at 2.
        by apply app_inv_head in Heq.
      * by apply app_inv_head in Heq as ->.
    + intros w Hw. rewrite origin_of_write.
      * by apply list_elem_of_fmap in Hw as [s [-> _]].
      * rewrite Forall_forall in Hok. by apply Hok.
Qed.

Lemma documented_format_writes (model0 : list vibronic_entry) :
  documented_format model0 ->
  Forall write_ok (concat (writes_of <$> model0))
  /\ NoDup (write_key <$> concat (writes_of <$> model0))
  /\ (forall w, w ∈ concat (writes_of <$> model0) ->
        origin_of_key (write_key w) ∈ entry_key <$> model0).
Proof.
  intros [Hnd Hok]. induction model0 as [|e model0 IH]; simpl.
  - split; [constructor|]. split; [constructor | by intros w ?%elem_of_nil].
  - rewrite fmap_cons in Hnd. apply NoDup_cons in Hnd as [Hnotin Hnd].
    apply Forall_cons in Hok as [He Hok].
    destruct (IH Hnd Hok) as (Hok' & Hnd' & Horig').
    destruct (writes_of_ok e He) as (Hoke & Hnde & Horige).
    split; [by apply Forall_app|]. split.
    + rewrite fmap_app. apply NoDup_app. split; [done|]. split; [|done].
      intros k Hk1 Hk2.
      apply list_elem_of_fmap in Hk1 as [w1 [-> Hw1]].
      apply list_elem_of_fmap in Hk2 as [w2 [Heq Hw2]].
      apply Hnotin. rewrite <- (Horige w1 Hw1), Heq. by apply Horig'.
    + intros w Hw. apply elem_of_app in Hw as [Hw|Hw].
      * rewrite (Horige w Hw). by left.
      * right. by apply Horig'.
Qed.

(** Whatever the table, a term found in the translated model is the
    re-keyed image of a term of the table. *)
Lemma do_write_sound (Q : list string -> term -> Prop) (w : write)
    (nm nm' : pydict (list string) (list term)) :
  do_write nm w = Ok nm' ->
  (forall t, t ∈ write_value w -> Q (write_key w) t) ->
  (forall k ts t, dict_get k nm = Some ts -> t ∈ ts -> Q k t) ->
  forall k ts t, dict_get k nm' = Some ts -> t ∈ ts -> Q k t.
Proof.
  intros Hdo Hw Hinv k ts t Hk Ht.
  assert (Hold : k <> write_key w -> dict_get k nm' = dict_get k nm ->
                 Q k t).
  { intros _ Heq. rewrite Heq in Hk. by eapply Hinv. }
  destruct w as [kk vv|e_k s]; simpl in *.
  - injection Hdo as <-. destruct (decide (kk = k)) as [->|Hne].
    + rewrite dict_get_set_eq in Hk. injection Hk as <-. by apply Hw.
    + apply Hold; [done|]. by rewrite dict_get_set_ne.
  - destruct (decide (length e_k = 2%nat)) as [Hlen|Hlen].
    2:{ unfold translate_sub in Hdo. rewrite bool_decide_eq_false_2 in Hdo by done.
        discriminate. }
    rewrite translate_sub_unfold in Hdo by done. injection Hdo as <-.
    destruct s as [c|kk vv].
    + destruct (decide (new_e_k_of e_k = k)) as [<-|Hne].
      * rewrite dict_get_set_eq in Hk. injection Hk as <-. by apply Hw.
      * apply Hold; [done|]. by rewrite dict_get_set_ne.
    + destruct (dd_append_fold (new_e_k_of e_k ++ kk) (e_op_of e_k) vv nm)
        as [Hframe Hget].
      destruct (decide (new_e_k_of e_k ++ kk = k)) as [<-|Hne].
      * unfold dd_get in Hget. rewrite Hk in Hget. simpl in Hget. subst ts.
        apply elem_of_app in Ht as [Ht|Ht]; [|by apply Hw].
        destruct (dict_get (new_e_k_of e_k ++ kk) nm) as [ts0|] eqn:Hk0.
        -- by eapply Hinv.
        -- by apply elem_of_nil in Ht.
      * apply Hold; [done|]. by apply Hframe.
Qed.

Lemma vibronic_terms_sound (model0 : list vibronic_entry)
    (nm : pydict (list string) (list term)) :
  vibronic_new_model model0 = Ok nm ->
  forall k ts t, dict_get k nm = Some ts -> t ∈ ts ->
    exists e w, e ∈ model0 /\ w ∈ writes_of e
                /\ k = write_key w /\ t ∈ write_value w.
Proof.
  rewrite vibronic_new_model_writes.
  set (Q := fun k t => exists e w, e ∈ model0 /\ w ∈ writes_of e
                                   /\ k = write_key w /\ t ∈ write_value w).
  assert (Hall : forall w, w ∈ concat (writes_of <$> model0) ->
                   forall t, t ∈ write_value w -> Q (write_key w) t).
  { intros w Hw t Ht. apply elem_of_concat_inv in Hw as [ws [Hw Hws]].
    apply list_elem_of_fmap in Hws as [e [-> He]]. by exists e, w. }
  revert Hall. generalize (concat (writes_of <$> model0)). intros ws Hall.
  assert (Hgen : forall nm0,
            (forall k ts t, dict_get k nm0 = Some ts -> t ∈ ts -> Q k t) ->
            for_each do_write ws nm0 = Ok nm ->
            forall k ts t, dict_get k nm = Some ts -> t ∈ ts -> Q k t).
  { induction ws as [|w ws IH]; intros nm0 Hinv Hrun; simpl in Hrun.
    - by injection Hrun as <-.
    - apply bind_Ok_inv in Hrun as [nm1 [Hdo Hrun]].
      apply (IH (fun w' Hw' => Hall w' (list_elem_of_further _ _ _ Hw')) nm1); [|done].
      apply (do_write_sound Q w nm0 nm1 Hdo); [|done].
      apply Hall. by left. }
  intros Hrun. by apply (Hgen []).
Qed.

Lemma elem_of_concat_intro {A} (x : A) (l : list A) (ls : list (list A)) :
  x ∈ l -> l ∈ ls -> x ∈ concat ls.
Proof.
  intros Hx Hl. induction ls as [|l' ls IH]; simpl.
  - by apply elem_of_nil in Hl.
  - apply elem_of_app. apply elem_of_cons in Hl as [<-|Hl]; [by left | right; auto].
Qed.

Lemma Model_init_model {CacheKey : Type} `{Countable CacheKey} {Mpos : Type}
    o b md dp (self : @Model CacheKey _ _ Mpos) :
  Model_init o b md dp = Ok self -> model self = md.
Proof.
  unfold Model_init. intros Hinit.
  apply bind_Ok_inv in Hinit as [slots [_ Hinit]].
  apply bind_Ok_inv in Hinit as [bs [_ Hinit]].
  by injection Hinit as <-.
Qed.

(** On a table in the documented format the translation does not raise, and
    every visited pair (outer key, sub-entry) ends up under its own key. *)
Lemma vibronic_new_model_spec (model0 : list vibronic_entry) :
  documented_format model0 ->
  exists nm, vibronic_new_model model0 = Ok nm
    /\ forall e w, e ∈ model0 -> w ∈ writes_of e ->
         dd_get (write_key w) nm = write_value w.
Proof.
  intros Hfmt. destruct (documented_format_writes model0 Hfmt) as (Hok & Hnd & _).
  destruct (writes_run (concat (writes_of <$> model0)) [] Hok Hnd) as (nm & Hrun & Hvals & _).
  { done. }
  exists nm. rewrite vibronic_new_model_writes. split; [done|].
  intros e w He Hw. apply Hvals. apply (elem_of_concat_intro _ (writes_of e)); [done|].
  apply list_elem_of_fmap. by exists e.
Qed.



(** ** Ground-state tensors of [Phonon.gs_mps] *)

Lemma sum_R_replicate (n : nat) (c : R) :
  EphPhonon.sum_R (replicate n c) = (INR n * c)%R.
Proof.
  induction n as [|n IH]; [simpl; lra|].
  rewrite S_INR. cbn [replicate EphPhonon.sum_R foldr].
  unfold EphPhonon.sum_R in IH. rewrite IH. lra.
Qed.

Lemma py_index_in_range (len : nat) (i : nat) :
  (i < len)%nat -> py_index len (Z.of_nat i) = Some i.
Proof.
  intros Hlt. unfold py_index. rewrite decide_True by lia. by rewrite Nat2Z.id.
Qed.

Lemma np_zeros3_row (b : Z) :
  0 <= b -> EphPhonon.np_zeros3 1 b 1 = Ok [replicate (Z.to_nat b) [0%R]].
Proof. intros Hb. unfold EphPhonon.np_zeros3. rewrite decide_False by lia. done. Qed.

Lemma setslice_rows (n : nat) (x : R) (acc : list (list R)) :
  for_each (fun acc row => row' ← py_list_set row 0 x; Ok (acc ++ [row']))
           (replicate n [0%R]) acc
  = Ok (acc ++ replicate n [x]).
Proof.
  revert acc. induction n as [|n IH]; intros acc; simpl.
  - by rewrite app_nil_r.
  - rewrite IH. by rewrite <- app_assoc.
Qed.

(** The tensor of one iteration with [max_entangled=True]. *)
Lemma gs_tensor_entangled (self : EphPhonon.Phonon) :
  0 <= EphPhonon.base self ->
  EphPhonon.gs_tensor self true
  = Ok [replicate (Z.to_nat (EphPhonon.base self))
          [(1 / sqrt (IZR (EphPhonon.base self)))%R]].
Proof.
  intros Hb. unfold EphPhonon.gs_tensor. rewrite np_zeros3_row by done. simpl.
  unfold EphPhonon.setslice3. simpl. by rewrite setslice_rows.
Qed.

(** The tensor of one iteration with [max_entangled=False]. *)
Lemma gs_tensor_plain (self : EphPhonon.Phonon) :
  2 <= EphPhonon.base self ->
  EphPhonon.gs_tensor self false
  = Ok [<[1%nat := [1%R]]> (replicate (Z.to_nat (EphPhonon.base self)) [0%R])].
Proof.
  intros Hb. unfold EphPhonon.gs_tensor. rewrite np_zeros3_row by lia. simpl.
  unfold EphPhonon.setitem3. simpl.
  unfold py_list_get at 1. rewrite length_replicate.
  rewrite (py_index_in_range _ 1) by lia.
  rewrite lookup_replicate_2 by lia. simpl.
  unfold py_list_set. rewrite length_replicate.
  rewrite (py_index_in_range _ 1) by lia. reflexivity.
Qed.

Lemma gs_tensor_plain_out_of_bounds (self : EphPhonon.Phonon) :
  0 <= EphPhonon.base self <= 1 ->
  EphPhonon.gs_tensor self false = Raise IndexError.
Proof.
  intros Hb. unfold EphPhonon.gs_tensor. rewrite np_zeros3_row by lia. simpl.
  unfold EphPhonon.setitem3. simpl.
  unfold py_list_get at 1. rewrite length_replicate.
  unfold py_index. rewrite !decide_False by lia. done.
Qed.

Lemma gs_loop_Ok (self : EphPhonon.Phonon) (b : bool) (ms : EphPhonon.ndarray3)
    (n : nat) :
  EphPhonon.gs_tensor self b = Ok ms ->
  EphPhonon.gs_loop self b n = (replicate n ms, None).
Proof.
  intros Hms. induction n as [|n IH]; simpl; [done|]. by rewrite Hms, IH.
Qed.

Lemma gs_loop_Raise (self : EphPhonon.Phonon) (b : bool) (e : exn) (n : nat) :
  EphPhonon.gs_tensor self b = Raise e ->
  EphPhonon.gs_loop self b (S n) = ([], Some e).
Proof. intros He. simpl. by rewrite He. Qed.

Lemma norm_sq_uniform (b : Z) :
  1 <= b ->
  EphPhonon.norm_sq [replicate (Z.to_nat b) [(1 / sqrt (IZR b))%R]] = 1%R.
Proof.
  intros Hb. unfold EphPhonon.norm_sq. cbn [fmap list_fmap].
  change (list_fmap (list R) R ?f (replicate ?n ?r)) with (f <$> replicate n r).
  rewrite fmap_replicate. cbn [fmap list_fmap EphPhonon.sum_R foldr].
  change (foldr Rplus 0%R (replicate ?n ?c)) with (EphPhonon.sum_R (replicate n c)).
  rewrite sum_R_replicate. rewrite INR_IZR_INZ, Z2Nat.id by lia.
  assert (Hpos : (0 < IZR b)%R) by (apply IZR_lt; lia).
  assert (Hs : (0 < sqrt (IZR b))%R) by (by apply sqrt_lt_R0).
  assert (Hsq : (sqrt (IZR b) * sqrt (IZR b) = IZR b)%R) by (apply sqrt_sqrt; lra).
  rewrite <- Hsq at 1. field. lra.
Qed.

Lemma has_shape3_rows (b : nat) (rows : list (list R)) :
  length rows = b -> Forall (fun row => length row = 1%nat) rows ->
  EphPhonon.has_shape3 [rows] 1 b 1.
Proof. intros Hlen Hrows. split; [done|]. by repeat constructor. Qed.

(** C10 as stated fails: a phonon with [base = 0] (as [n_phys_dim = 0]
    gives) yields, with [max_entangled=True], a tensor of shape [(1, 0, 1)]
    whose squared norm is 0, not 1. *)
Lemma gs_mps_zero_base_norm :
  exists ms,
    EphPhonon.gs_mps (EphPhonon.mkPhonon 0 1 0) true = ([ms], None)
    /\ EphPhonon.has_shape3 ms 1 0 1
    /\ EphPhonon.norm_sq ms <> 1%R.
Proof.
  exists [[]]. split.
  - unfold EphPhonon.gs_mps. apply (gs_loop_Ok _ _ [[]] 1).
    by rewrite gs_tensor_entangled.
  - split; [by apply has_shape3_rows|].
    unfold EphPhonon.norm_sq. simpl. lra.
Qed.

(** C10, amended.  For a phonon with [nqboson] sub-sites and per-site
    dimension [base]:
    with [max_entangled=True] and [base >= 0], [gs_mps] yields exactly
    [nqboson] tensors of shape [(1, base, 1)], every entry of which is
    [1/sqrt(base)], and for [base >= 1] each has squared norm 1 (over the
    reals); with [max_entangled=False] and [base >= 2] it yields exactly
    [nqboson] tensors of that shape whose only non-zero entry, 1, sits at
    physical index 1; with [max_entangled=False], [base] 0 or 1 and at least
    one sub-site, the write is out of bounds and nothing is yielded. *)
Theorem gs_mps_tensors (self : EphPhonon.Phonon) :
  let n := Z.to_nat (EphPhonon.nqboson self) in
  let b := Z.to_nat (EphPhonon.base self) in
  (0 <= EphPhonon.base self ->
   exists ms,
     EphPhonon.gs_mps self true = (replicate n ms, None)
     /\ EphPhonon.has_shape3 ms 1 b 1
     /\ (forall j, (j < b)%nat ->
           EphPhonon.entry ms j = Some (1 / sqrt (IZR (EphPhonon.base self)))%R)
     /\ (1 <= EphPhonon.base self -> EphPhonon.norm_sq ms = 1%R))
  /\ (2 <= EphPhonon.base self ->
      exists ms,
        EphPhonon.gs_mps self false = (replicate n ms, None)
        /\ EphPhonon.has_shape3 ms 1 b 1
        /\ (forall j, (j < b)%nat ->
              EphPhonon.entry ms j = Some (if decide (j = 1%nat) then 1%R else 0%R)))
  /\ (0 <= EphPhonon.base self <= 1 -> 1 <= EphPhonon.nqboson self ->
      EphPhonon.gs_mps self false = ([], Some IndexError)).
Proof.
  intros n b. split; [|split].
  - intros Hb. eexists. split; [|split; [|split]].
    + unfold EphPhonon.gs_mps. apply gs_loop_Ok. by apply gs_tensor_entangled.
    + apply has_shape3_rows; [apply length_replicate|].
      apply Forall_replicate. done.
    + intros j Hj. unfold EphPhonon.entry. simpl.
      fold b. rewrite lookup_replicate_2 by done. done.
    + apply norm_sq_uniform.
  - intros Hb. eexists. split; [|split].
    + unfold EphPhonon.gs_mps. apply gs_loop_Ok. by apply gs_tensor_plain.
    + apply has_shape3_rows; [by rewrite length_insert, length_replicate|].
      apply Forall_insert; [|done]. by apply Forall_replicate.
    + intros j Hj. unfold EphPhonon.entry. simpl. fold b.
      destruct (decide (j = 1%nat)) as [->|Hne].
      * rewrite list_lookup_insert_eq by (rewrite length_replicate; lia). done.
      * rewrite list_lookup_insert_ne by done.
        rewrite lookup_replicate_2 by done. done.
  - intros Hb Hn. unfold EphPhonon.gs_mps.
    replace (Z.to_nat (EphPhonon.nqboson self))
      with (S (Z.to_nat (EphPhonon.nqboson self) - 1)) by lia.
    apply gs_loop_Raise. by apply gs_tensor_plain_out_of_bounds.
Qed.

Lemma gs_mps_tensors_witness :
  (exists ms,
     EphPhonon.gs_mps (EphPhonon.mkPhonon 4 2 2) false = ([ms; ms], None)
     /\ EphPhonon.entry ms 0 = Some 0%R /\ EphPhonon.entry ms 1 = Some 1%R)
  /\ (exists ms,
     EphPhonon.gs_mps (EphPhonon.mkPhonon 4 2 2) true = ([ms; ms], None)
     /\ EphPhonon.norm_sq ms = 1%R)
  /\ EphPhonon.gs_mps (EphPhonon.mkPhonon 1 1 1) false = ([], Some IndexError).
Proof.
  destruct (gs_mps_tensors (EphPhonon.mkPhonon 4 2 2)) as (Htrue & Hfalse & _).
  destruct (gs_mps_tensors (EphPhonon.mkPhonon 1 1 1)) as (_ & _ & Hoob).
  split; [|split].
  - destruct Hfalse as (ms & Hrun & _ & Hentry); [simpl; lia|].
    exists ms. split; [exact Hrun|].
    split; [apply (Hentry 0%nat) | apply (Hentry 1%nat)]; simpl; lia.
  - destruct Htrue as (ms & Hrun & _ & _ & Hnorm); [simpl; lia|].
    exists ms. split; [exact Hrun|]. apply Hnorm. simpl. lia.
  - apply Hoob; simpl; lia.
Defined.

(** * Further properties of the embedded code *)

(** ** Spectra job: steps only append *)

(** X1.  Whatever state a spectra job is in, a run of [process_mps] calls
    keeps every earlier sample of [autocorr] in place, appends one sample per
    call in call order, and changes no other attribute of the job. *)
Theorem process_mps_only_appends
    {MolList Temperature MpoT Sample BraKetPair : Type}
    (ft : BraKetPair -> Sample)
    (job : @Spectra.SpectraTdMpsJobBase MolList Temperature MpoT Sample)
    (first more : list BraKetPair) :
  let job1 := Spectra.run_steps ft job first in
  let job2 := Spectra.run_steps ft job1 more in
  Spectra.autocorr job2 = Spectra.autocorr job1 ++ (ft <$> more)
  /\ Spectra.autocorr job1 `prefix_of` Spectra.autocorr job2
  /\ Spectra.run_steps ft job (first ++ more) = job2
  /\ Spectra.mol_list job2 = Spectra.mol_list job
  /\ Spectra.spectratype job2 = Spectra.spectratype job
  /\ Spectra.nexciton job2 = Spectra.nexciton job
  /\ Spectra.temperature job2 = Spectra.temperature job
  /\ Spectra.h_mpo job2 = Spectra.h_mpo job.
Proof.
  intros job1 job2.
  assert (Hframe : forall ps (j : @Spectra.SpectraTdMpsJobBase MolList Temperature MpoT Sample),
            Spectra.mol_list (Spectra.run_steps ft j ps) = Spectra.mol_list j
            /\ Spectra.spectratype (Spectra.run_steps ft j ps) = Spectra.spectratype j
            /\ Spectra.nexciton (Spectra.run_steps ft j ps) = Spectra.nexciton j
            /\ Spectra.temperature (Spectra.run_steps ft j ps) = Spectra.temperature j
            /\ Spectra.h_mpo (Spectra.run_steps ft j ps) = Spectra.h_mpo j).
  { unfold Spectra.run_steps. induction ps as [|p ps IH]; intros j; [done|].
    simpl. destruct (IH (Spectra.process_mps ft j p)) as (-> & -> & -> & -> & ->).
    done. }
  assert (Hcat : Spectra.run_steps ft job (first ++ more) = job2).
  { unfold job2, job1, Spectra.run_steps. by rewrite fold_left_app. }
  split; [apply run_steps_autocorr|].
  split; [unfold job2; rewrite run_steps_autocorr; by eexists|].
  split; [done|]. unfold job2.
  destruct (Hframe more job1) as (-> & -> & -> & -> & ->).
  apply Hframe.
Qed.

(** ** [Model.__init__] with a list-form basis *)

(** X2.  With [basis] given as a list construction never raises, whatever
    [order] is: the basis list is kept as it is, [nsite] is its length,
    [pbond_list] holds the local dimension of each site,
    [multi_dof_basis] tells whether some site has a multi-DoF basis, and the
    operator cache starts empty. *)
Theorem Model_init_list_basis_never_raises {CacheKey : Type} `{Countable CacheKey}
    {Mpos : Type} (order0 : order_arg) (bs : list BasisSet)
    (md : pydict (list string) (list term))
    (dp : option (pydict (list string) Qc)) :
  exists m : @Model CacheKey _ _ Mpos,
    Model_init order0 (BasisList bs) md dp = Ok m
    /\ basis m = bs
    /\ nsite m = length bs
    /\ pbond_list m = nbas <$> bs
    /\ (multi_dof_basis m = true <-> exists b, b ∈ bs /\ multi_dof b = true)
    /\ model m = md /\ dipole m = dp /\ mpos m = ∅.
Proof.
  assert (Hslots : check_slots (Some <$> bs) = Ok bs).
  { induction bs as [|b bs IH]; [done|].
    rewrite fmap_cons. cbn [check_slots]. by rewrite IH. }
  unfold Model_init, mbind, result_bind. rewrite Hslots.
  eexists. split; [done|].
  unfold nsite, pbond_list. simpl. repeat split; try done.
  - intros Hex. apply existsb_exists in Hex as [b [Hin Hb]].
    exists b. split; [by apply list_elem_of_In | done].
  - intros [b [Hin Hb]]. apply existsb_exists. exists b.
    split; [by apply list_elem_of_In | done].
Qed.

(** ** [Model.__init__] with a list-form order *)

Lemma order_of_list_fold (l : list string) (start : nat) (d : pydict string Z) :
  NoDup l -> (forall o, o ∈ l -> o ∉ dict_keys d) ->
  fold_left (fun d '(i, o) => dict_set o (Z.of_nat i) d) (enumerate_from start l) d
  = d ++ zip l (Z.of_nat <$> seq start (length l)).
Proof.
  revert start d. induction l as [|o l IH]; intros start d Hnd Hfresh; simpl.
  - by rewrite app_nil_r.
  - apply NoDup_cons in Hnd as [Hnotin Hnd].
    assert (Hset : dict_set o (Z.of_nat start) d = d ++ [(o, Z.of_nat start)]).
    { assert (Ho : o ∉ dict_keys d) by (apply Hfresh; by left).
      clear -Ho. induction d as [|[k v] d IHd]; simpl; [done|].
      unfold dict_keys in Ho. rewrite fmap_cons in Ho. simpl in Ho.
      apply not_elem_of_cons in Ho as [Hne Ho].
      rewrite decide_False by done. by rewrite IHd. }
    rewrite Hset, IH; [by rewrite <- app_assoc | done |].
    intros o' Ho'. unfold dict_keys. rewrite fmap_app. simpl.
    intros Hin. apply elem_of_app in Hin as [Hin|Hin].
    + apply (Hfresh o'); [by right | done].
    + apply list_elem_of_singleton in Hin as ->. done.
Qed.

(** X3.  A list-form [order] without repeated names becomes the dictionary
    that sends the name at position [i] to site [i]: [dofs] is the list
    itself and the [order] values are [0 .. len-1]. *)
Theorem order_list_gives_positions {CacheKey : Type} `{Countable CacheKey}
    {Mpos : Type} (l : list string) (b : basis_arg)
    (md : pydict (list string) (list term))
    (dp : option (pydict (list string) Qc)) (m : @Model CacheKey _ _ Mpos) :
  NoDup l ->
  Model_init (OrderList l) b md dp = Ok m ->
  dofs m = l
  /\ dict_values (order m) = Z.of_nat <$> seq 0 (length l)
  /\ forall i o, l !! i = Some o -> dict_get o (order m) = Some (Z.of_nat i).
Proof.
  intros Hnd Hinit. unfold Model_init in Hinit.
  apply bind_Ok_inv in Hinit as [slots [_ Hinit]].
  apply bind_Ok_inv in Hinit as [bs [_ Hinit]].
  injection Hinit as <-. unfold dofs. cbn [order].
  unfold enumerate. rewrite (order_of_list_fold l 0 []) by (done || by intros o _ ?%elem_of_nil).
  rewrite app_nil_l.
  assert (Hlen : length l = length (Z.of_nat <$> seq 0 (length l)))
    by (by rewrite length_fmap, length_seq).
  split; [unfold dict_keys; by apply fst_zip; rewrite <- Hlen|].
  split; [unfold dict_values; by apply snd_zip; rewrite <- Hlen|].
  intros i o Hi.
  assert (Hgen : forall (vs : list Z) (ks : list string) j k v,
            NoDup ks -> ks !! j = Some k -> vs !! j = Some v ->
            dict_get k (zip ks vs) = Some v).
  { clear. intros vs ks. revert vs. induction ks as [|k0 ks IH];
      intros [|v0 vs] [|j] k v Hnd Hk Hv; simplify_eq/=.
    - by rewrite decide_True.
    - apply NoDup_cons in Hnd as [Hnotin Hnd].
      rewrite decide_False.
      + by apply (IH vs j).
      + intros ->. apply Hnotin. by eapply list_elem_of_lookup_2. }
  apply (Hgen _ _ i); [done | done |].
  rewrite list_lookup_fmap, lookup_seq_lt; [done|]. by eapply lookup_lt_Some.
Qed.

Lemma order_list_gives_positions_witness :
  exists m : @Model string _ _ unit,
    Model_init (OrderList ["e_0"; "v_0"; "v_1"])
      (BasisList [BasisSimpleElectron; BasisSHO 1%Qc 4; BasisSHO 1%Qc 4]) [] None
    = Ok m
    /\ dofs m = ["e_0"; "v_0"; "v_1"]
    /\ dict_get "v_1" (order m) = Some 2.
Proof.
  destruct (@Model_init string _ _ unit (OrderList ["e_0"; "v_0"; "v_1"])
              (BasisList [BasisSimpleElectron; BasisSHO 1%Qc 4; BasisSHO 1%Qc 4])
              [] None) as [m|e] eqn:Hinit; [|discriminate].
  exists m. split; [reflexivity|].
  assert (Hnd : NoDup ["e_0"; "v_0"; "v_1"])
    by (apply (bool_decide_unpack _); vm_compute; exact I).
  destruct (order_list_gives_positions _ _ _ _ m Hnd Hinit) as (Hd & _ & Hpos).
  split; [exact Hd|]. by apply (Hpos 2%nat).
Defined.

(** ** [Model.__init__] with a dict-form basis *)

Lemma Model_init_order {CacheKey : Type} `{Countable CacheKey} {Mpos : Type}
    (order0 : order_arg) (b : basis_arg) (md : pydict (list string) (list term))
    (dp : option (pydict (list string) Qc)) (m : @Model CacheKey _ _ Mpos) :
  Model_init order0 b md dp = Ok m -> order m = order_of order0.
Proof.
  unfold Model_init. intros Hinit.
  apply bind_Ok_inv in Hinit as [slots [_ Hinit]].
  apply bind_Ok_inv in Hinit as [bs [_ Hinit]].
  injection Hinit as <-. by destruct order0.
Qed.

Lemma py_list_set_in_range {A} (l : list A) (i : Z) (x : A) :
  0 <= i < Z.of_nat (length l) -> py_list_set l i x = Ok (<[Z.to_nat i := x]> l).
Proof. intros Hi. unfold py_list_set, py_index. by rewrite decide_True. Qed.

Lemma result_bind_Raise {A B} (e : exn) (f : A -> result B) :
  Raise e ≫= f = Raise e.
Proof. reflexivity. Qed.

(** The filling loop of lines 74-75. *)
Lemma fill_slots_spec (d : pydict string BasisSet) (o : pydict string Z)
    (slots : list (option BasisSet)) :
  (forall dof i, (dof, i) ∈ o -> 0 <= i < Z.of_nat (length slots)) ->
  match for_each (fun slots '(dof, dof_idx) =>
                    b ← dict_getitem dof d; py_list_set slots dof_idx (Some b))
                 o slots with
  | Ok slots' =>
      length slots' = length slots
      /\ (forall dof, dof ∈ o.*1 -> is_Some (dict_get dof d))
      /\ (forall j b0, slots !! j = Some (Some b0) ->
            exists b, slots' !! j = Some (Some b))
      /\ (forall dof i, (dof, i) ∈ o -> exists b, slots' !! Z.to_nat i = Some (Some b))
      /\ (forall j b, slots' !! j = Some (Some b) ->
            (exists dof, (dof, Z.of_nat j) ∈ o /\ dict_get dof d = Some b)
            \/ slots !! j = Some (Some b))
  | Raise e => e = KeyError /\ exists dof, dof ∈ o.*1 /\ dict_get dof d = None
  end.
Proof.
  revert slots.
  set (body := fun (slots : list (option BasisSet)) '(dof, dof_idx) =>
                 b ← dict_getitem dof d; py_list_set slots dof_idx (Some b)).
  induction o as [|[dof i] o IH]; intros slots Hrange.
  - cbn [for_each]. split; [done|]. split; [by intros dof ?%elem_of_nil|].
    split; [by eauto|]. split; [by intros dof i ?%elem_of_nil | by right].
  - cbn [for_each].
    assert (Hbody : body slots (dof, i)
                    = match dict_get dof d with
                      | Some b => py_list_set slots i (Some b)
                      | None => Raise KeyError
                      end).
    { unfold body, dict_getitem. by destruct (dict_get dof d). }
    rewrite Hbody. clear Hbody.
    destruct (dict_get dof d) as [b|] eqn:Hdof.
    2:{ rewrite result_bind_Raise. split; [done|]. exists dof. split; [by left | done]. }
    assert (Hi : 0 <= i < Z.of_nat (length slots)) by (apply (Hrange dof); by left).
    rewrite py_list_set_in_range by done. rewrite result_bind_Ok.
    specialize (IH (<[Z.to_nat i := Some b]> slots)).
    assert (Hrange' : forall dof' i', (dof', i') ∈ o ->
              0 <= i' < Z.of_nat (length (<[Z.to_nat i := Some b]> slots))).
    { intros dof' i' Hin. rewrite length_insert. apply (Hrange dof'). by right. }
    specialize (IH Hrange').
    assert (Hhead : <[Z.to_nat i := Some b]> slots !! Z.to_nat i = Some (Some b))
      by (apply list_lookup_insert_eq; lia).
    destruct (for_each body o _) as [slots'|e].
    + destruct IH as (Hlen & Hall & Hkeep & Hcov & Hsrc).
      rewrite length_insert in Hlen. split; [done|]. split; [|split; [|split]].
      * intros dof' Hin. rewrite fmap_cons in Hin.
        apply elem_of_cons in Hin as [Heq|Hin]; [|by apply Hall].
        simpl in Heq. subst dof'. by rewrite Hdof.
      * intros j b0 Hj. destruct (decide (Z.to_nat i = j)) as [<-|Hne].
        -- by eapply Hkeep.
        -- apply (Hkeep j b0). by rewrite list_lookup_insert_ne.
      * intros dof' i' Hin. apply elem_of_cons in Hin as [Heq|Hin]; [|by eapply Hcov].
        injection Heq as -> ->. by eapply Hkeep.
      * intros j b' Hj. destruct (Hsrc j b' Hj) as [[dof' [Hin Hd]]|Hold].
        -- left. exists dof'. split; [by right | done].
        -- destruct (decide (Z.to_nat i = j)) as [<-|Hne].
           ++ rewrite Hhead in Hold. injection Hold as <-. left. exists dof.
              split; [|done]. rewrite Z2Nat.id by lia. by left.
           ++ right. by rewrite list_lookup_insert_ne in Hold.
    + destruct IH as (-> & dof' & Hin & Hnone).
      split; [done|]. exists dof'. split; [by right | done].
Qed.

Lemma elements_list_to_set_nil (vs : list Z) :
  elements (list_to_set vs : gset Z) = [] <-> vs = [].
Proof.
  split.
  - intros Hel. destruct vs as [|v vs]; [done|]. exfalso.
    assert (Hv : v ∈ elements (list_to_set (v :: vs) : gset Z)).
    { apply elem_of_elements, elem_of_list_to_set. by left. }
    rewrite Hel in Hv. by apply elem_of_nil in Hv.
  - intros ->. simpl. apply elements_empty.
Qed.

(** The test of line 71 passes exactly on contiguous values. *)
Lemma order_check_iff (vs : list Z) (x : Z) (l : list Z) :
  elements (list_to_set vs : gset Z) = x :: l ->
  (foldr Z.min x l = 0
   /\ foldr Z.max x l = Z.of_nat (size (list_to_set vs : gset Z)) - 1)
  <-> contiguous_from_0 vs.
Proof.
  intros Hel. set (s := list_to_set vs : gset Z) in *.
  destruct (foldr_min_spec x l) as [Hmin_in Hmin_le].
  destruct (foldr_max_spec x l) as [Hmax_in Hmax_ge].
  rewrite <- Hel in Hmin_in, Hmin_le, Hmax_in, Hmax_ge.
  rewrite Forall_forall in Hmin_le, Hmax_ge.
  assert (Hne : vs <> []).
  { intros Hnil. apply (proj2 (elements_list_to_set_nil _)) in Hnil. fold s in Hnil.
    rewrite Hel in Hnil. discriminate. }
  split.
  - intros [Hmin Hmax]. split; [done|]. intros z.
    rewrite <- (elem_of_list_to_set (C := gset Z)). fold s.
    apply range_of_min_max. intros y Hy%elem_of_elements.
    specialize (Hmin_le y Hy). specialize (Hmax_ge y Hy). lia.
  - intros [_ Hrange].
    assert (Hs : forall z, z ∈ elements s <-> 0 <= z < Z.of_nat (size s)).
    { intros z. rewrite elem_of_elements. unfold s at 1.
      rewrite elem_of_list_to_set. apply Hrange. }
    assert (Hpos : (0 < size s)%nat).
    { apply Hs in Hmin_in. lia. }
    apply Hs in Hmin_in, Hmax_in.
    assert (H0 : 0 ∈ elements s) by (apply Hs; lia).
    assert (Hlast : Z.of_nat (size s) - 1 ∈ elements s) by (apply Hs; lia).
    specialize (Hmin_le 0 H0). specialize (Hmax_ge _ Hlast). lia.
Qed.

Lemma py_max_contiguous (vs : list Z) :
  contiguous_from_0 vs ->
  py_max vs = Ok (Z.of_nat (size (list_to_set vs : gset Z)) - 1).
Proof.
  intros [Hne Hrange]. destruct vs as [|v vs]; [done|]. unfold py_max.
  destruct (foldr_max_spec v vs) as [Hin Hge]. rewrite Forall_forall in Hge.
  set (s := list_to_set (v :: vs) : gset Z) in *.
  apply Hrange in Hin.
  assert (Hlast : Z.of_nat (size s) - 1 ∈ v :: vs) by (apply Hrange; lia).
  specialize (Hge _ Hlast). f_equal. lia.
Qed.

Lemma check_slots_filled (slots : list (option BasisSet)) :
  (forall j, (j < length slots)%nat -> exists b, slots !! j = Some (Some b)) ->
  exists bs, check_slots slots = Ok bs /\ slots = Some <$> bs.
Proof.
  induction slots as [|[b|] slots IH]; intros Hall.
  - by exists [].
  - destruct IH as (bs & Hbs & ->).
    { intros j Hj. apply (Hall (S j)). simpl. lia. }
    exists (b :: bs). cbn [check_slots]. by rewrite Hbs.
  - destruct (Hall 0%nat) as [b Hb]; [simpl; lia | discriminate].
Qed.

(** What the dict-form branch does on contiguous order values. *)
Lemma basis_from_dict_contiguous (o : pydict string Z) (d : pydict string BasisSet) :
  contiguous_from_0 (dict_values o) ->
  basis_from_dict o d
  = for_each (fun slots '(dof, dof_idx) =>
                b ← dict_getitem dof d; py_list_set slots dof_idx (Some b))
             o (replicate (size (list_to_set (dict_values o) : gset Z)) None).
Proof.
  intros Hcont. unfold basis_from_dict.
  set (s := list_to_set (dict_values o) : gset Z).
  destruct (elements s) as [|x l] eqn:Hel.
  { exfalso. destruct Hcont as [Hne _]. apply Hne.
    by apply (proj1 (elements_list_to_set_nil _)). }
  cbn [py_min py_max]. rewrite !result_bind_Ok.
  apply (order_check_iff _ x l Hel) in Hcont as Hcheck. destruct Hcheck as [-> ->].
  rewrite !bool_decide_eq_true_2 by done. cbn [negb orb].
  rewrite (py_max_contiguous _ Hcont), result_bind_Ok. fold s.
  by replace (Z.to_nat (Z.of_nat (size s) - 1 + 1)) with (size s) by lia.
Qed.

(** X4.  With [basis] given as a dict, an [order] whose values are not
    exactly [0 .. n-1] ([n] the number of distinct values), the empty order
    included, makes construction raise [ValueError]. *)
Theorem dict_basis_rejects_gaps {CacheKey : Type} `{Countable CacheKey}
    {Mpos : Type} (order0 : order_arg) (d : pydict string BasisSet)
    (md : pydict (list string) (list term))
    (dp : option (pydict (list string) Qc)) :
  ~ contiguous_from_0 (dict_values (order_of order0)) ->
  exists msg, @Model_init CacheKey _ _ Mpos order0 (BasisDict d) md dp
              = Raise (ValueError msg).
Proof.
  intros Hgap. unfold Model_init. fold (order_of order0).
  unfold basis_from_dict.
  set (s := list_to_set (dict_values (order_of order0)) : gset Z).
  destruct (elements s) as [|x l] eqn:Hel; [by eexists|].
  cbn [py_min py_max]. rewrite !result_bind_Ok.
  destruct (negb (bool_decide (foldr Z.min x l = 0))
            || negb (bool_decide (foldr Z.max x l = Z.of_nat (size s) - 1)))
    eqn:Hcheck; [by eexists|].
  exfalso. apply Hgap. apply (order_check_iff _ x l Hel).
  apply orb_false_iff in Hcheck as [Hmin Hmax].
  by apply negb_false_iff, bool_decide_eq_true in Hmin, Hmax.
Qed.

Lemma dict_basis_rejects_gaps_witness :
  exists msg,
    @Model_init string _ _ unit (OrderList ["e_0"; "v_0"; "e_0"])
      (BasisDict [("e_0", BasisSimpleElectron); ("v_0", BasisSHO 1%Qc 4)]) [] None
    = Raise (ValueError msg).
Proof.
  apply (dict_basis_rejects_gaps (OrderList ["e_0"; "v_0"; "e_0"])).
  intros [_ Hrange]. destruct (Hrange 0) as [_ Hin].
  assert (H0 : 0 ∈ dict_values (order_of (OrderList ["e_0"; "v_0"; "e_0"]))).
  { apply Hin. split; [lia | vm_compute; reflexivity]. }
  vm_compute in H0. clear Hin Hrange. rename H0 into Hin.
  apply elem_of_cons in Hin as [Heq|Hin]; [discriminate|].
  apply elem_of_cons in Hin as [Heq|Hin]; [discriminate|].
  by apply elem_of_nil in Hin.
Defined.

Lemma contiguous_in_range (o : pydict string Z) (dof : string) (i : Z) :
  contiguous_from_0 (dict_values o) -> (dof, i) ∈ o ->
  0 <= i < Z.of_nat (size (list_to_set (dict_values o) : gset Z)).
Proof.
  intros [_ Hrange] Hin. apply Hrange. unfold dict_values.
  apply list_elem_of_fmap. by exists (dof, i).
Qed.

(** X5.  With [basis] given as a dict, contiguous order values and a basis
    for every DoF, construction returns a model with one site per distinct
    order value; a DoF finds its basis at its site whenever the DoFs that
    share this site (as the electronic DoFs of a merged layout do) were given
    the same basis. *)
Theorem dict_basis_fills_sites {CacheKey : Type} `{Countable CacheKey}
    {Mpos : Type} (order0 : order_arg) (d : pydict string BasisSet)
    (md : pydict (list string) (list term))
    (dp : option (pydict (list string) Qc)) :
  contiguous_from_0 (dict_values (order_of order0)) ->
  (forall dof, dof ∈ dict_keys (order_of order0) -> is_Some (dict_get dof d)) ->
  exists m : @Model CacheKey _ _ Mpos,
    Model_init order0 (BasisDict d) md dp = Ok m
    /\ order m = order_of order0
    /\ nsite m = size (list_to_set (dict_values (order_of order0)) : gset Z)
    /\ forall dof i, (dof, i) ∈ order_of order0 ->
         (forall dof', (dof', i) ∈ order_of order0 ->
            dict_get dof' d = dict_get dof d) ->
         basis m !! Z.to_nat i = dict_get dof d.
Proof.
  intros Hcont Hall. set (o := order_of order0) in *.
  pose proof (basis_from_dict_contiguous o d Hcont) as Hfrom.
  pose proof (fill_slots_spec d o
                (replicate (size (list_to_set (dict_values o) : gset Z)) None))
    as Hfill.
  rewrite <- Hfrom in Hfill. clear Hfrom.
  assert (Hrange : forall dof i, (dof, i) ∈ o ->
            0 <= i < Z.of_nat (length (replicate
                       (size (list_to_set (dict_values o) : gset Z))
                       (None : option BasisSet)))).
  { intros dof i Hin. rewrite length_replicate. by eapply contiguous_in_range. }
  specialize (Hfill Hrange).
  destruct (basis_from_dict o d) as [slots|e] eqn:Hbfd.
  2:{ destruct Hfill as (_ & dof & Hin & Hnone).
      destruct (Hall dof Hin) as [b Hb]. congruence. }
  destruct Hfill as (Hlen & _ & _ & Hcov & Hsrc).
  rewrite length_replicate in Hlen.
  destruct (check_slots_filled slots) as (bs & Hbs & ->).
  { intros j Hj. destruct Hcont as [_ Hcont].
    assert (Hjin : Z.of_nat j ∈ dict_values o) by (apply Hcont; lia).
    unfold dict_values in Hjin. apply list_elem_of_fmap in Hjin as [[dof i] [Heq Hin]].
    simpl in Heq. subst i. destruct (Hcov dof _ Hin) as [b Hb].
    rewrite Nat2Z.id in Hb. by exists b. }
  rewrite length_fmap in Hlen.
  assert (Hinit : @Model_init CacheKey _ _ Mpos order0 (BasisDict d) md dp
                  = Ok {| order := o; basis := bs;
                          multi_dof_basis := existsb multi_dof bs;
                          model := md; dipole := dp; mpos := ∅;
                          _pbond_list := nbas <$> bs |}).
  { unfold Model_init. fold (order_of order0). fold o.
    rewrite Hbfd, result_bind_Ok, Hbs. done. }
  eexists. split; [exact Hinit|]. cbn [order basis]. unfold nsite. cbn [basis].
  split; [done|]. split; [done|].
  intros dof i Hin Hsame. destruct (Hcov dof i Hin) as [b Hb].
  rewrite list_lookup_fmap in Hb.
  destruct (bs !! Z.to_nat i) as [b'|] eqn:Hbs'; [|discriminate].
  injection Hb as ->.
  destruct (Hsrc (Z.to_nat i) b) as [[dof' [Hin' Hd']]|Hold].
  - by rewrite list_lookup_fmap, Hbs'.
  - rewrite Z2Nat.id in Hin' by (apply (Hrange dof i Hin)).
    by rewrite <- (Hsame dof' Hin').
  - apply lookup_replicate in Hold as [? _]. discriminate.
Qed.

Lemma dict_basis_fills_sites_witness :
  exists m : @Model string _ _ unit,
    Model_init (OrderDict [("v_0", 0); ("e_0", 1); ("e_1", 1)])
      (BasisDict [("e_0", BasisMultiElectronVac 2); ("e_1", BasisMultiElectronVac 2);
                  ("v_0", BasisSHO 1%Qc 4)]) [] None = Ok m
    /\ nsite m = 2%nat
    /\ basis m !! 1%nat = Some (BasisMultiElectronVac 2)
    /\ basis m !! 0%nat = Some (BasisSHO 1%Qc 4).
Proof.
  destruct (dict_basis_fills_sites (CacheKey := string) (Mpos := unit)
              (OrderDict [("v_0", 0); ("e_0", 1); ("e_1", 1)])
              [("e_0", BasisMultiElectronVac 2); ("e_1", BasisMultiElectronVac 2);
               ("v_0", BasisSHO 1%Qc 4)] [] None)
    as (m & Hinit & _ & Hn & Hsite).
  - split; [discriminate|]. intros z. cbn [order_of dict_values fmap list_fmap snd].
    change (size _) with 2%nat. split.
    + intros Hz. repeat (apply elem_of_cons in Hz as [->|Hz]; [lia|]).
      by apply elem_of_nil in Hz.
    + intros Hz. assert (z = 0 \/ z = 1) as [-> | ->] by lia;
        [by left | right; by left].
  - intros dof Hdof. cbn [order_of dict_keys fmap list_fmap fst] in Hdof.
    repeat (apply elem_of_cons in Hdof as [->|Hdof]; [by eexists|]).
    by apply elem_of_nil in Hdof.
  - exists m. split; [exact Hinit|]. split; [exact Hn|]. split.
    + apply (Hsite "e_0" 1); [right; by left|].
      intros dof' Hin. cbn [order_of] in Hin.
      repeat (apply elem_of_cons in Hin as [Heq|Hin]; [by simplify_eq|]).
      by apply elem_of_nil in Hin.
    + apply (Hsite "v_0" 0); [by left|].
      intros dof' Hin. cbn [order_of] in Hin.
      repeat (apply elem_of_cons in Hin as [Heq|Hin]; [by simplify_eq|]).
      by apply elem_of_nil in Hin.
Defined.

(** X6.  With [basis] given as a dict and contiguous order values, a DoF of
    [order] that has no entry in [basis] makes construction raise
    [KeyError]. *)
Theorem dict_basis_missing_dof_KeyError {CacheKey : Type} `{Countable CacheKey}
    {Mpos : Type} (order0 : order_arg) (d : pydict string BasisSet)
    (md : pydict (list string) (list term))
    (dp : option (pydict (list string) Qc)) (dof : string) :
  contiguous_from_0 (dict_values (order_of order0)) ->
  dof ∈ dict_keys (order_of order0) -> dict_get dof d = None ->
  @Model_init CacheKey _ _ Mpos order0 (BasisDict d) md dp = Raise KeyError.
Proof.
  intros Hcont Hdof Hnone. set (o := order_of order0) in *.
  pose proof (basis_from_dict_contiguous o d Hcont) as Hfrom.
  pose proof (fill_slots_spec d o
                (replicate (size (list_to_set (dict_values o) : gset Z)) None))
    as Hfill.
  rewrite <- Hfrom in Hfill. clear Hfrom.
  assert (Hrange : forall dof i, (dof, i) ∈ o ->
            0 <= i < Z.of_nat (length (replicate
                       (size (list_to_set (dict_values o) : gset Z))
                       (None : option BasisSet)))).
  { intros dof' i Hin. rewrite length_replicate. by eapply contiguous_in_range. }
  specialize (Hfill Hrange).
  unfold Model_init. fold (order_of order0). fold o.
  destruct (basis_from_dict o d) as [slots|e] eqn:Hbfd.
  - destruct Hfill as (_ & Hall & _). destruct (Hall dof Hdof) as [b Hb]. congruence.
  - destruct Hfill as [-> _]. done.
Qed.

Lemma dict_basis_missing_dof_KeyError_witness :
  @Model_init string _ _ unit (OrderDict [("e_0", 0); ("v_0", 1)])
    (BasisDict [("e_0", BasisSimpleElectron)]) [] None = Raise KeyError.
Proof.
  apply (dict_basis_missing_dof_KeyError (OrderDict [("e_0", 0); ("v_0", 1)])
           [("e_0", BasisSimpleElectron)] [] None "v_0").
  - split; [discriminate|]. intros z. cbn [order_of dict_values fmap list_fmap snd].
    change (size _) with 2%nat. split.
    + intros Hz. repeat (apply elem_of_cons in Hz as [->|Hz]; [lia|]).
      by apply elem_of_nil in Hz.
    + intros Hz. assert (z = 0 \/ z = 1) as [-> | ->] by lia;
        [by left | right; by left].
  - right. by left.
  - reflexivity.
Defined.

(** ** The operator cache: which keys it holds *)

Lemma get_mpos_keys {CacheKey : Type} `{Countable CacheKey} {Mpos : Type}
    (key : CacheKey) (fun_ : @builder CacheKey _ _ Mpos)
    (m m' : @Model CacheKey _ _ Mpos) (r : result Mpos)
    (inv : list (CacheKey * bool)) :
  leaves_cache_alone fun_ ->
  get_mpos key fun_ m = (r, m', inv) ->
  (forall k, is_Some (mpos m' !! k)
             <-> is_Some (mpos m !! k) \/ (k, true) ∈ inv)
  /\ (returns fun_ -> Forall (fun ev => ev.2 = true) inv).
Proof.
  intros Hquiet. destruct (mpos m !! key) as [r0|] eqn:Hk.
  - rewrite (get_mpos_hit _ _ _ _ Hk). intros Heq. injection Heq as <- <- <-.
    split; [|intros _; constructor]. intros k.
    split; [by left | intros [?|Hin]; [done | by apply elem_of_nil in Hin]].
  - destruct (get_mpos_miss key fun_ m Hquiet Hk) as (r1 & m1 & Hcall & Hm & ->).
    destruct r1 as [r0|e]; intros Heq; injection Heq as <- <- <-; simpl.
    + split; [|intros _; by repeat constructor]. intros k.
      destruct (decide (key = k)) as [->|Hne].
      * rewrite lookup_insert_eq. split; [right; by left | by eexists].
      * rewrite lookup_insert_ne by done.
        split; [by left | intros [?|Hin]; [done|]].
        apply list_elem_of_singleton in Hin. congruence.
    + split.
      * intros k. rewrite Hm. split; [by left | intros [?|Hin]; [done|]].
        apply list_elem_of_singleton in Hin. discriminate.
      * intros Hret. destruct (Hret m) as [v Hv]. rewrite Hcall in Hv. discriminate.
Qed.

(** X7.  When the builders of a sequence of [get_mpos] calls leave the cache
    alone (they neither change [self.mpos] nor build through [get_mpos]
    themselves), the keys cached afterwards are those cached before together
    with those whose builder returned. *)
Theorem cached_keys_are_the_built_keys {CacheKey : Type} `{Countable CacheKey}
    {Mpos : Type}
    (calls : list (CacheKey * @builder CacheKey _ _ Mpos))
    (m m' : @Model CacheKey _ _ Mpos) (inv : list (CacheKey * bool)) :
  Forall (fun c => leaves_cache_alone c.2) calls ->
  run_get_mpos calls m = (m', inv) ->
  forall k, is_Some (mpos m' !! k)
            <-> is_Some (mpos m !! k) \/ (k, true) ∈ inv.
Proof.
  intros Hquiet. revert m m' inv.
  induction Hquiet as [|[key fun_] calls Hq Hquiet IH]; intros m m' inv; simpl.
  - intros Heq. injection Heq as <- <-. intros k.
    split; [by left | intros [?|Hin]; [done | by apply elem_of_nil in Hin]].
  - destruct (get_mpos key fun_ m) as [[r m1] inv1] eqn:Hget.
    destruct (run_get_mpos calls m1) as [m2 inv2] eqn:Hrun.
    intros Heq. injection Heq as <- <-.
    destruct (get_mpos_keys _ _ _ _ _ _ Hq Hget) as [Hdom1 _].
    pose proof (IH _ _ _ Hrun) as Hdom2.
    intros k. rewrite Hdom2, Hdom1, elem_of_app. tauto.
Qed.

Lemma cached_keys_are_the_built_keys_witness :
  let m0 : @Model string _ _ Z :=
    mkModel [("e_0", 0)] [BasisSimpleElectron] false [] None ∅ [2] in
  let m1 := set_mpos m0 (<["a" := 10]> ∅) in
  is_Some (mpos m1 !! "a") <-> is_Some (mpos m0 !! "a")
                               \/ ("a", true) ∈ [("b", false); ("a", true)].
Proof.
  intros m0 m1.
  apply (cached_keys_are_the_built_keys
           [("b", BRaise KeyError); ("a", BReturn 10)] m0 m1
           [("b", false); ("a", true)]); [|reflexivity].
  repeat (apply List.Forall_cons; [intros self; split; reflexivity|]).
  apply List.Forall_nil.
Defined.

(** X8.  When the builders of a sequence of [get_mpos] calls leave the cache
    alone and none of them raises, every invocation made returns and no key
    has its builder invoked twice, whatever the cache held at the start. *)
Theorem builders_that_return_run_once {CacheKey : Type} `{Countable CacheKey}
    {Mpos : Type}
    (calls : list (CacheKey * @builder CacheKey _ _ Mpos))
    (m m' : @Model CacheKey _ _ Mpos) (inv : list (CacheKey * bool)) :
  Forall (fun c => leaves_cache_alone c.2) calls ->
  Forall (fun c => returns c.2) calls ->
  run_get_mpos calls m = (m', inv) ->
  Forall (fun ev => ev.2 = true) inv /\ NoDup inv.*1.
Proof.
  intros Hquiet Hret Hrun.
  assert (Hall : Forall (fun ev : CacheKey * bool => ev.2 = true) inv).
  { revert m m' inv Hret Hrun.
    induction Hquiet as [|[key fun_] calls Hq Hquiet IH]; intros m m' inv Hret; simpl.
    - intros Heq. injection Heq as <- <-. constructor.
    - apply Forall_cons in Hret as [Hf Hret]. simpl in Hf.
      destruct (get_mpos key fun_ m) as [[r m1] inv1] eqn:Hget.
      destruct (run_get_mpos calls m1) as [m2 inv2] eqn:Hrun.
      intros Heq. injection Heq as <- <-. apply Forall_app. split; [|by eapply IH].
      by apply (get_mpos_keys _ _ _ _ _ _ Hq Hget). }
  split; [done|]. apply once_built_all_returned; [|done].
  by destruct (run_get_mpos_step _ _ _ _ Hquiet Hrun) as (_ & _ & _ & Honce).
Qed.

Lemma builders_that_return_run_once_witness :
  let m0 : @Model string _ _ Z :=
    mkModel [("e_0", 0)] [BasisSimpleElectron] false [] None ∅ [2] in
  Forall (fun ev : string * bool => ev.2 = true) [("a", true); ("b", true)]
  /\ NoDup ([("a", true); ("b", true)] : list (string * bool)).*1.
Proof.
  intros m0.
  apply (builders_that_return_run_once
           [("a", BReturn 10); ("a", BReturn 20); ("b", BReturn 30)]
           m0 (set_mpos m0 (<["b" := 30]> (<["a" := 10]> ∅)))
           [("a", true); ("b", true)]).
  - repeat (apply List.Forall_cons; [intros self; split; reflexivity|]).
    apply List.Forall_nil.
  - repeat (apply List.Forall_cons; [intros self; by eexists|]).
    apply List.Forall_nil.
  - reflexivity.
Defined.

(** ** [VibronicModel]: failure, provenance of terms, keys *)

Lemma translate_sub_bad (e_k : list string) (s : sub_entry)
    (nm : pydict (list string) (list term)) :
  length e_k <> 2%nat -> translate_sub e_k nm s = Raise AssertionError.
Proof.
  intros Hlen. unfold translate_sub. by rewrite bool_decide_eq_false_2.
Qed.

Lemma translate_entry_result (e : vibronic_entry)
    (nm : pydict (list string) (list term)) :
  if decide (bad_electronic_key e)
  then translate_entry nm e = Raise AssertionError
  else is_Ok (translate_entry nm e).
Proof.
  destruct e as [e_v|e_k e_v].
  - rewrite decide_False by (by intros []). by eexists.
  - destruct e_v as [|s e_v].
    + rewrite decide_False by (by intros []). by eexists.
    + destruct (decide (length e_k = 2%nat)) as [Hlen|Hlen].
      * rewrite decide_False by (simpl; by intros ?). cbn [translate_entry].
        generalize (s :: e_v). intros l. clear s e_v. revert nm.
        induction l as [|s l IH]; intros nm; [by eexists|].
        cbn [for_each]. rewrite translate_sub_unfold by done.
        rewrite result_bind_Ok. apply IH.
      * rewrite decide_True by done. simpl. by rewrite translate_sub_bad.
Qed.

Lemma vibronic_new_model_result (model0 : list vibronic_entry) :
  if decide (Exists bad_electronic_key model0)
  then vibronic_new_model model0 = Raise AssertionError
  else is_Ok (vibronic_new_model model0).
Proof.
  unfold vibronic_new_model. generalize (@nil (list string * list term)).
  induction model0 as [|e model0 IH]; intros nm0.
  - rewrite decide_False by (by intros ?%Exists_nil). by eexists.
  - cbn [for_each]. pose proof (translate_entry_result e nm0) as He.
    destruct (decide (bad_electronic_key e)) as [Hbad|Hok].
    + rewrite decide_True by (by left). by rewrite He.
    + destruct He as [nm1 ->]. rewrite result_bind_Ok. specialize (IH nm1).
      destruct (decide (Exists bad_electronic_key model0)) as [Hex|Hnex].
      * rewrite decide_True by (by right). done.
      * rewrite decide_False; [done|].
        intros Hex. apply Exists_cons in Hex as [?|?]; done.
Qed.

Lemma VibronicModel_init_inv {CacheKey : Type} `{Countable CacheKey}
    {Mpos : Type} (order0 : order_arg) (basis0 : basis_arg)
    (model0 : list vibronic_entry) (dipole0 : option (pydict (list string) Qc))
    (m : @Model CacheKey _ _ Mpos) :
  VibronicModel_init order0 basis0 model0 dipole0 = Ok m ->
  ~ Exists bad_electronic_key model0
  /\ vibronic_new_model model0 = Ok (model m).
Proof.
  unfold VibronicModel_init. intros Hinit.
  apply bind_Ok_inv in Hinit as [nm [Hnm Hinit]].
  apply Model_init_model in Hinit. subst nm. split; [|done].
  intros Hex. pose proof (vibronic_new_model_result model0) as Hres.
  rewrite decide_True in Hres by done. by rewrite Hres in Hnm.
Qed.





Lemma dict_set_is_Some {K V : Type} `{EqDecision K} (d : pydict K V) (k k' : K) (v : V) :
  is_Some (dict_get k (dict_set k' v d)) <-> is_Some (dict_get k d) \/ k' = k.
Proof.
  destruct (decide (k' = k)) as [->|Hne].
  - rewrite dict_get_set_eq. split; [by right | by eexists].
  - rewrite dict_get_set_ne by done. split; [by left | by intros [?|?]].
Qed.

Lemma dd_append_fold_is_Some (key : list string) (op : term) (vv : list term)
    (nm : pydict (list string) (list term)) (k : list string) :
  is_Some (dict_get k (fold_left (fun nm t => dd_append key (op ++ t) nm) vv nm))
  <-> is_Some (dict_get k nm) \/ (key = k /\ vv <> []).
Proof.
  revert nm. induction vv as [|t vv IH]; intros nm; cbn [fold_left].
  - split; [by left | by intros [?|[_ ?]]].
  - rewrite IH. unfold dd_append at 1. rewrite dict_set_is_Some. split.
    + intros [[?|?]|[? _]]; [by left | by right | by right].
    + intros [?|[? _]]; [left; by left | left; by right].
Qed.

Lemma do_write_is_Some (w : write) (nm nm' : pydict (list string) (list term))
    (k : list string) :
  do_write nm w = Ok nm' ->
  is_Some (dict_get k nm')
  <-> is_Some (dict_get k nm) \/ (write_key w = k /\ creates_key w).
Proof.
  intros Hdo. destruct w as [kk vv|e_k s]; simpl in *.
  - injection Hdo as <-. rewrite dict_set_is_Some. tauto.
  - destruct (decide (length e_k = 2%nat)) as [Hlen|Hlen].
    2:{ by rewrite translate_sub_bad in Hdo. }
    rewrite translate_sub_unfold in Hdo by done. injection Hdo as <-.
    destruct s as [c|kk vv].
    + rewrite dict_set_is_Some. tauto.
    + rewrite dd_append_fold_is_Some. destruct vv as [|t vv]; simpl.
      * split; [intros [?|[_ ?]]; [by left|done] | intros [?|[_ []]]; by left].
      * split; (intros [?|[? _]]; [by left | by right]).
Qed.

Lemma writes_keys (ws : list write) (nm0 nm : pydict (list string) (list term))
    (k : list string) :
  for_each do_write ws nm0 = Ok nm ->
  is_Some (dict_get k nm)
  <-> is_Some (dict_get k nm0)
      \/ exists w, w ∈ ws /\ write_key w = k /\ creates_key w.
Proof.
  revert nm0. induction ws as [|w ws IH]; intros nm0 Hrun; cbn [for_each] in Hrun.
  - injection Hrun as <-. split; [by left | intros [?|[w [Hw _]]]; [done|]].
    by apply elem_of_nil in Hw.
  - apply bind_Ok_inv in Hrun as [nm1 [Hdo Hrun]].
    rewrite (IH _ Hrun), (do_write_is_Some w nm0 nm1 k Hdo). split.
    + intros [[?|[? ?]]|[w' [Hw' ?]]]; [by left | right; exists w | right; exists w'].
      * split; [by left | done].
      * split; [by right | done].
    + intros [?|[w' [Hw' [? ?]]]]; [left; by left|].
      apply elem_of_cons in Hw' as [->|Hw']; [left; by right | right; by exists w'].
Qed.



(** * The Holstein model: constructor, layout and terms *)

(** ** Printing and parsing DoF indices *)

Lemma digits_value_app (s1 s2 : string) (acc : Z) :
  digits_value acc (s1 +:+ s2) = digits_value acc s1 ≫= fun a => digits_value a s2.
Proof.
  revert acc. induction s1 as [|c s1 IH]; intros acc; simpl; [done|].
  destruct (digit_of c) as [d|]; simpl; [apply IH | done].
Qed.

Lemma pretty_N_go_app (x : N) (s1 s2 : string) :
  pretty_N_go x (s1 +:+ s2) = pretty_N_go x s1 +:+ s2.
Proof.
  revert s1. induction (N.lt_wf_0 x) as [x _ IH]; intros s1.
  assert (x = 0 \/ 0 < x)%N as [->|Hx] by lia; [by rewrite !pretty_N_go_0|].
  rewrite (pretty_N_go_step x (s1 +:+ s2)), (pretty_N_go_step x s1) by done.
  apply (IH _ (N.div_lt x 10 Hx eq_refl) (String (pretty_N_char (x `mod` 10)) s1)).
Qed.

Lemma pretty_N_go_cons (x : N) (s : string) :
  pretty_N_go x s = pretty_N_go x "" +:+ s.
Proof. exact (pretty_N_go_app x "" s). Qed.

Lemma digit_of_pretty_N_char (d : N) :
  (d < 10)%N -> digit_of (pretty_N_char d) = Some (Z.of_N d).
Proof.
  intros Hd.
  assert (d = 0 \/ d = 1 \/ d = 2 \/ d = 3 \/ d = 4 \/ d = 5 \/ d = 6 \/ d = 7
          \/ d = 8 \/ d = 9)%N as Hcases by lia.
  repeat (destruct Hcases as [->|Hcases]; [reflexivity|]). by subst.
Qed.

Lemma digits_value_pretty_N_go (x : N) :
  digits_value 0 (pretty_N_go x "") = Some (Z.of_N x).
Proof.
  induction (N.lt_wf_0 x) as [x _ IH].
  assert (x = 0 \/ 0 < x)%N as [->|Hx] by lia; [done|].
  rewrite pretty_N_go_step by done.
  rewrite pretty_N_go_cons, digits_value_app.
  rewrite (IH (x `div` 10)%N) by (by apply N.div_lt). simpl.
  rewrite digit_of_pretty_N_char by (by apply N.mod_lt). simpl. f_equal.
  rewrite (N.div_mod x 10) at 3 by done. lia.
Qed.

Lemma all_chars_pretty_N_go (x : N) (s : string) :
  all_chars is_digit s -> all_chars is_digit (pretty_N_go x s).
Proof.
  revert s. induction (N.lt_wf_0 x) as [x _ IH]; intros s Hs.
  assert (x = 0 \/ 0 < x)%N as [->|Hx] by lia; [by rewrite pretty_N_go_0|].
  rewrite pretty_N_go_step by done. apply IH; [by apply N.div_lt|].
  split; [|done]. unfold is_digit.
  rewrite digit_of_pretty_N_char by (by apply N.mod_lt). by eexists.
Qed.

Lemma pretty_nat_digits (n : nat) :
  pretty n <> EmptyString /\ all_chars is_digit (pretty n)
  /\ digits_value 0 (pretty n) = Some (Z.of_nat n).
Proof.
  unfold pretty, pretty_nat, pretty, pretty_N.
  destruct (decide (N.of_nat n = 0%N)) as [Hz|Hnz].
  - split; [done|]. split; [split; [by eexists | done]|].
    simpl. f_equal. lia.
  - assert (Hpos : (0 < N.of_nat n)%N) by lia.
    split; [|split].
    + rewrite pretty_N_go_step by done.
      rewrite pretty_N_go_cons.
      intros Heq. destruct (pretty_N_go _ ""); discriminate.
    + by apply all_chars_pretty_N_go.
    + rewrite digits_value_pretty_N_go. f_equal. lia.
Qed.

Lemma py_int_pretty (n : nat) : py_int (pretty n) = Ok (Z.of_nat n).
Proof.
  destruct (pretty_nat_digits n) as (Hne & Hall & Hval).
  unfold py_int. destruct (pretty n) as [|c s] eqn:Hp; [done|].
  destruct Hall as [[d Hd] _].
  assert (c <> "-"%char /\ c <> "+"%char) as [Hm Hq].
  { split; intros ->; vm_compute in Hd; discriminate. }
  destruct c as [[] [] [] [] [] [] [] []]; try done; by rewrite Hval.
Qed.

Lemma str_split_digits (s : string) :
  all_chars is_digit s -> str_split "_" s = [s].
Proof.
  induction s as [|c s IH]; [done|]. intros [[d Hd] Hs]. simpl.
  destruct (Ascii.eqb c "_") eqn:Heq.
  - apply Ascii.eqb_eq in Heq. subst c. vm_compute in Hd. discriminate.
  - by rewrite IH.
Qed.

Lemma str_split_dof_name (p : string) (n : nat) :
  p = "e" \/ p = "v" -> str_split "_" (dof_name p n) = [p; pretty n].
Proof.
  destruct (pretty_nat_digits n) as (_ & Hall & _).
  intros [->| ->]; unfold dof_name; simpl; by rewrite str_split_digits.
Qed.

Lemma merge_sort_is_range (idxs : list Z) :
  merge_sort Z.le idxs = Z.of_nat <$> seq 0 (length idxs)
  <-> idxs ≡ₚ Z.of_nat <$> seq 0 (length idxs).
Proof.
  split.
  - intros <-. by rewrite merge_sort_Permutation.
  - intros Hperm. apply (StronglySorted_unique Z.le).
    + apply StronglySorted_merge_sort; apply _.
    + apply (StronglySorted_fmap Z.of_nat lt Z.le); [intros x y ?; lia|].
      generalize 0%nat. generalize (length idxs) as n.
      induction n as [|n IH]; intros k; simpl; constructor; [apply IH|].
      apply Forall_forall. intros y Hy%elem_of_seq. lia.
    + by rewrite merge_sort_Permutation.
Qed.

Section DofsFacts.
Context {CacheKey : Type} `{Countable CacheKey} {Mpos : Type}.

Lemma dofs_of_kind_loop (p : string) (pl : list (string * nat)) (acc : list Z) :
  p = "e" \/ p = "v" ->
  Forall (fun x => x.1 = "e" \/ x.1 = "v") pl ->
  for_each
    (fun acc key =>
       if decide (str_split "_" key !! 0%nat = Some p) then
         match str_split "_" key !! 1%nat with
         | Some t => n ← py_int t; Ok (acc ++ [n])
         | None => Raise IndexError
         end
       else Ok acc)
    (dn <$> pl) acc
  = Ok (acc ++ (Z.of_nat <$> (filter (fun x => x.1 = p) pl).*2)).
Proof.
  intros Hp Hpl. revert acc. induction Hpl as [|[q i] pl Hq Hpl IH]; intros acc.
  - simpl. by rewrite app_nil_r.
  - cbn [fmap list_fmap for_each]. change (dn (q, i)) with (dof_name q i).
    rewrite str_split_dof_name by exact Hq. cbn [lookup list_lookup].
    rewrite filter_cons. cbn [fst].
    destruct (decide (q = p)) as [->|Hne].
    + rewrite decide_True by done. rewrite py_int_pretty, !result_bind_Ok.
      rewrite IH. cbn [fmap list_fmap snd]. by rewrite <- app_assoc.
    + rewrite decide_False by congruence. rewrite result_bind_Ok. apply IH.
Qed.

Lemma dofs_of_kind_named (p : string) (self : @Model CacheKey _ _ Mpos)
    (pl : list (string * nat)) :
  p = "e" \/ p = "v" ->
  dict_keys (order self) = dn <$> pl ->
  Forall (fun x => x.1 = "e" \/ x.1 = "v") pl ->
  let idx := (filter (fun x => x.1 = p) pl).*2 in
  (idx ≡ₚ seq 0 (length idx) ->
   dofs_of_kind p self = Ok (dof_name p <$> seq 0 (length idx)))
  /\ (~ idx ≡ₚ seq 0 (length idx) -> dofs_of_kind p self = Raise AssertionError).
Proof.
  intros Hp Hkeys Hpl idx. unfold dofs_of_kind. rewrite Hkeys.
  rewrite (dofs_of_kind_loop p pl [] Hp Hpl), result_bind_Ok, app_nil_l.
  fold idx. rewrite length_fmap.
  assert (Hiff : merge_sort Z.le (Z.of_nat <$> idx) = Z.of_nat <$> seq 0 (length idx)
                 <-> idx ≡ₚ seq 0 (length idx)).
  { pose proof (merge_sort_is_range (Z.of_nat <$> idx)) as Hm.
    rewrite length_fmap in Hm. rewrite Hm. split.
    - intros Hperm. apply (fmap_Permutation Z.to_nat) in Hperm.
      rewrite <- !list_fmap_compose in Hperm.
      rewrite !(list_fmap_ext (Z.to_nat ∘ Z.of_nat) (fun n : nat => n)) in Hperm
        by (intros ? ? ?; simpl; lia).
      by rewrite !list_fmap_id in Hperm.
    - intros Hperm. by apply fmap_Permutation. }
  split; intros Hperm.
  - rewrite bool_decide_eq_true_2 by (by apply Hiff). done.
  - rewrite bool_decide_eq_false_2 by (by rewrite Hiff). done.
Qed.
End DofsFacts.

Lemma dict_set_fresh {K V : Type} `{EqDecision K} (k : K) (v : V) (d : pydict K V) :
  k ∉ dict_keys d -> dict_set k v d = d ++ [(k, v)].
Proof.
  induction d as [|[k' v'] d IH]; simpl; [done|].
  intros [Hne Hk]%not_elem_of_cons.
  rewrite decide_False by done. by rewrite IH.
Qed.

Lemma dict_update_app {K V : Type} `{EqDecision K} (a b : list (K * V))
    (d : pydict K V) :
  dict_update (a ++ b) d = dict_update b (dict_update a d).
Proof. unfold dict_update. by rewrite fold_left_app. Qed.

Lemma dict_update_fresh {K V : Type} `{EqDecision K} (kvs : list (K * V))
    (d : pydict K V) :
  NoDup (dict_keys d ++ kvs.*1) -> dict_update kvs d = d ++ kvs.
Proof.
  revert d. induction kvs as [|[k v] kvs IH]; intros d Hnd.
  - by rewrite app_nil_r.
  - cbn [dict_update fold_left fst snd]. fold (dict_update kvs (dict_set k v d)).
    rewrite fmap_cons in Hnd. cbn [fst] in Hnd.
    assert (Hk : k ∉ dict_keys d).
    { apply NoDup_app in Hnd as (_ & Hdis & _). intros Hin.
      apply (Hdis k Hin). by left. }
    rewrite dict_set_fresh by done. rewrite IH.
    + by rewrite <- app_assoc.
    + unfold dict_keys in *. rewrite fmap_app. cbn [fmap list_fmap fst].
      by rewrite <- app_assoc.
Qed.

Lemma dict_get_elem_of {K V : Type} `{EqDecision K} (d : pydict K V) (k : K) (v : V) :
  NoDup (dict_keys d) -> (k, v) ∈ d -> dict_get k d = Some v.
Proof.
  induction d as [|[k' v'] d IH]; intros Hnd Hin; [by apply elem_of_nil in Hin|].
  unfold dict_keys in Hnd. rewrite fmap_cons in Hnd. cbn [fst] in Hnd.
  apply NoDup_cons in Hnd as [Hk' Hnd]. simpl.
  apply elem_of_cons in Hin as [[= -> ->]|Hin].
  - by rewrite decide_True.
  - rewrite decide_False; [by apply IH|].
    intros ->. apply Hk'. apply list_elem_of_fmap. by exists (k, v).
Qed.

Lemma layout_ph123_closed (imol : nat) (phs : list Phonon.t) (i0 : nat) (st : layout) :
  fold_left (layout_ph123 imol) (enumerate_from i0 phs) st
  = mkLayout
      (dict_update ((fun i => (dof_name "v" (lay_nv st + i),
                                Z.of_nat (lay_idx st + i))) <$> seq 0 (length phs))
                   (lay_order st))
      (lay_basis st ++ (sho_basis <$> phs))
      (dict_update ((fun i => ((imol, (i0 + i)%nat), dof_name "v" (lay_nv st + i)))
                      <$> seq 0 (length phs))
                   (lay_mapping st))
      (lay_idx st + length phs) (lay_nv st + length phs) (lay_n_left_ph st).
Proof.
  revert i0 st. induction phs as [|ph phs IH]; intros i0 st.
  - destruct st. cbn. by rewrite app_nil_r, !Nat.add_0_r.
  - cbn [enumerate_from fold_left length]. rewrite IH.
    unfold layout_ph123.
    cbn [lay_order lay_basis lay_mapping lay_idx lay_nv lay_n_left_ph].
    cbn [seq fmap list_fmap]. rewrite <- !fmap_S_seq, <- !list_fmap_compose.
    unfold dict_update. cbn [fold_left fst snd]. rewrite !Nat.add_0_r.
    f_equal; try lia.
    + f_equal. apply list_fmap_ext. intros ? i _. simpl. f_equal; f_equal; lia.
    + by rewrite <- app_assoc.
    + f_equal. apply list_fmap_ext. intros ? i _. simpl. f_equal; f_equal; lia.
Qed.

Lemma layout_mol123_closed (mols : list Mol.t) (k : nat) (st : layout) :
  fold_left layout_mol123 (enumerate_from k mols) st
  = mkLayout
      (dict_update (order123 k (lay_idx st) (lay_nv st) mols) (lay_order st))
      (lay_basis st ++ basis123 mols)
      (dict_update (mapping_of k (lay_nv st) mols) (lay_mapping st))
      (lay_idx st + length mols + n_modes mols) (lay_nv st + n_modes mols)
      (lay_n_left_ph st).
Proof.
  revert k st. induction mols as [|mol mols IH]; intros k st.
  - destruct st. cbn. by rewrite app_nil_r, !Nat.add_0_r.
  - cbn [enumerate_from fold_left]. rewrite IH. cbn [layout_mol123].
    unfold enumerate. rewrite layout_ph123_closed.
    cbn [lay_order lay_basis lay_mapping lay_idx lay_nv lay_n_left_ph].
    cbn [order123 mapping_of]. rewrite n_modes_cons. cbn [length].
    rewrite dict_update_app.
    change (dict_update ((dof_name "e" k, Z.of_nat (lay_idx st)) :: ?l) ?d)
      with (dict_update l (dict_set (dof_name "e" k) (Z.of_nat (lay_idx st)) d)).
    rewrite dict_update_app.
    unfold basis123. cbn [fmap list_fmap concat].
    f_equal.
    + f_equal; [f_equal; lia|]. f_equal. apply list_fmap_ext.
      intros ? i _. simpl. do 2 f_equal; lia.
    + rewrite <- !app_assoc. done.
    + lia.
    + lia.
Qed.

Lemma layout_ph4_closed (nl imol : nat) (phs : list Phonon.t) (i0 : nat) (st : layout) :
  fold_left (layout_ph4 nl imol) (enumerate_from i0 phs) st
  = mkLayout
      (dict_update ((fun i => (dof_name "v" (lay_nv st + i),
                                if bool_decide (imol < nl)%nat
                                then Z.of_nat (lay_idx st + i)
                                else Z.of_nat (lay_idx st + i) + 1))
                      <$> seq 0 (length phs))
                   (lay_order st))
      (lay_basis st ++ (sho_basis <$> phs))
      (dict_update ((fun i => ((imol, (i0 + i)%nat), dof_name "v" (lay_nv st + i)))
                      <$> seq 0 (length phs))
                   (lay_mapping st))
      (lay_idx st + length phs) (lay_nv st + length phs)
      (lay_n_left_ph st + if bool_decide (imol < nl)%nat then length phs else 0).
Proof.
  revert i0 st. induction phs as [|ph phs IH]; intros i0 st.
  - destruct st. cbn. rewrite app_nil_r, !Nat.add_0_r.
    by destruct (bool_decide (imol < nl)%nat); rewrite ?Nat.add_0_r.
  - cbn [enumerate_from fold_left length]. rewrite IH.
    unfold layout_ph4.
    cbn [lay_order lay_basis lay_mapping lay_idx lay_nv lay_n_left_ph].
    cbn [seq fmap list_fmap]. rewrite <- !fmap_S_seq, <- !list_fmap_compose.
    unfold dict_update. cbn [fold_left fst snd]. rewrite !Nat.add_0_r.
    f_equal; try lia.
    + f_equal. apply list_fmap_ext. intros ? i _. simpl.
      f_equal; [f_equal; lia|]. destruct (bool_decide (imol < nl)%nat); lia.
    + by rewrite <- app_assoc.
    + f_equal. apply list_fmap_ext. intros ? i _. simpl. f_equal; f_equal; lia.
    + destruct (bool_decide (imol < nl)%nat); lia.
Qed.

Lemma layout_mol4_closed (nl : nat) (mols : list Mol.t) (k : nat) (st : layout) :
  fold_left (layout_mol4 nl) (enumerate_from k mols) st
  = mkLayout
      (dict_update (order4v nl k (lay_idx st) (lay_nv st) mols) (lay_order st))
      (lay_basis st ++ concat ((fun mol => sho_basis <$> Mol.ph_list mol) <$> mols))
      (dict_update (mapping_of k (lay_nv st) mols) (lay_mapping st))
      (lay_idx st + n_modes mols) (lay_nv st + n_modes mols)
      (lay_n_left_ph st + n_modes (take (nl - k) mols)).
Proof.
  revert k st. induction mols as [|mol mols IH]; intros k st.
  - destruct st. cbn. rewrite take_nil. unfold n_modes. cbn.
    by rewrite app_nil_r, !Nat.add_0_r.
  - cbn [enumerate_from fold_left]. rewrite IH. cbn [layout_mol4].
    unfold enumerate. rewrite layout_ph4_closed.
    cbn [lay_order lay_basis lay_mapping lay_idx lay_nv lay_n_left_ph].
    cbn [order4v mapping_of]. rewrite n_modes_cons.
    rewrite !dict_update_app. cbn [fmap list_fmap concat].
    f_equal; try lia.
    + by rewrite <- !app_assoc.
    + case_bool_decide as Hlt.
      * replace (nl - k)%nat with (S (nl - S k)) by lia.
        cbn [take]. rewrite n_modes_cons. lia.
      * replace (nl - k)%nat with 0%nat by lia.
        replace (nl - S k)%nat with 0%nat by lia. rewrite !take_0.
        unfold n_modes. simpl. lia.
Qed.

(** *** Facts about the closed forms *)

Lemma dn_inj (x y : string * nat) :
  x.1 = "e" \/ x.1 = "v" -> y.1 = "e" \/ y.1 = "v" -> dn x = dn y -> x = y.
Proof.
  destruct x as [p i], y as [q j]. unfold dn, dof_name. cbn [fst snd].
  intros [->| ->] [->| ->] Heq; simpl in Heq; try discriminate;
    injection Heq as Heq; cbn [String.append] in Heq;
    apply (pretty_nat_inj i j) in Heq; by subst.
Qed.

Lemma fmap_seq_shift {A} (f : nat -> A) (nv n : nat) :
  f <$> seq nv n = (fun i => f (nv + i)%nat) <$> seq 0 n.
Proof.
  replace (seq nv n) with (Nat.add nv <$> seq 0 n)
    by (rewrite fmap_add_seq; f_equal; lia).
  by rewrite <- list_fmap_compose.
Qed.

Lemma order123_keys (k idx nv : nat) (mols : list Mol.t) :
  exists pl,
    dict_keys (order123 k idx nv mols) = dn <$> pl
    /\ pl ≡ₚ (("e",.) <$> seq k (length mols)) ++ (("v",.) <$> seq nv (n_modes mols)).
Proof.
  revert k idx nv. induction mols as [|mol mols IH]; intros k idx nv.
  - exists []. done.
  - destruct (IH (S k) (idx + 1 + length (Mol.ph_list mol))%nat
                 (nv + length (Mol.ph_list mol))%nat) as (pl & Hkeys & Hperm).
    exists (("e", k) :: (("v",.) <$> seq nv (length (Mol.ph_list mol))) ++ pl).
    split.
    + cbn [order123]. unfold dict_keys in *. rewrite !fmap_cons, !fmap_app, Hkeys.
      cbn [fst]. rewrite <- !list_fmap_compose.
      by rewrite (fmap_seq_shift (dn ∘ pair "v") nv).
    + rewrite Hperm, n_modes_cons. cbn [length seq fmap list_fmap].
      constructor. rewrite seq_app, fmap_app.
      rewrite (app_assoc _ _ (("v",.) <$> seq (nv + _) _)).
      rewrite (app_assoc _ (("v",.) <$> seq nv _)).
      apply Permutation_app_tail. apply Permutation_app_comm.
Qed.

Lemma order4v_keys (nl k idx nv : nat) (mols : list Mol.t) :
  dict_keys (order4v nl k idx nv mols) = dof_name "v" <$> seq nv (n_modes mols).
Proof.
  revert k idx nv. induction mols as [|mol mols IH]; intros k idx nv; [done|].
  cbn [order4v]. unfold dict_keys in *. rewrite fmap_app, IH, n_modes_cons.
  rewrite seq_app, fmap_app, <- list_fmap_compose. f_equal.
  by rewrite (fmap_seq_shift (dof_name "v") nv).
Qed.

Lemma mapping_of_keys_ge (k nv : nat) (mols : list Mol.t) (x : nat * nat) :
  x ∈ dict_keys (mapping_of k nv mols) -> (k <= x.1)%nat.
Proof.
  revert k nv. induction mols as [|mol mols IH]; intros k nv Hx.
  - by apply elem_of_nil in Hx.
  - cbn [mapping_of] in Hx. unfold dict_keys in *. rewrite fmap_app in Hx.
    apply elem_of_app in Hx as [Hx|Hx].
    + rewrite <- list_fmap_compose in Hx.
      apply list_elem_of_fmap in Hx as [i [-> _]]. simpl. lia.
    + apply IH in Hx. lia.
Qed.

Lemma mapping_of_NoDup (k nv : nat) (mols : list Mol.t) :
  NoDup (dict_keys (mapping_of k nv mols)).
Proof.
  revert k nv. induction mols as [|mol mols IH]; intros k nv; [constructor|].
  cbn [mapping_of]. unfold dict_keys in *. rewrite fmap_app.
  apply NoDup_app. split; [|split].
  - rewrite <- list_fmap_compose. apply NoDup_fmap_2; [|apply NoDup_seq].
    intros i j [=]. done.
  - intros x Hx Hx'. rewrite <- list_fmap_compose in Hx.
    apply list_elem_of_fmap in Hx as [i [-> _]].
    apply mapping_of_keys_ge in Hx'. simpl in Hx'. lia.
  - apply IH.
Qed.

Lemma mapping_of_elem (k nv j iph : nat) (mols : list Mol.t) (mol : Mol.t) :
  mols !! j = Some mol -> (iph < length (Mol.ph_list mol))%nat ->
  (((k + j)%nat, iph), dof_name "v" (nv + n_modes (take j mols) + iph))
  ∈ mapping_of k nv mols.
Proof.
  revert k nv j. induction mols as [|mol0 mols IH]; intros k nv j Hj Hiph;
    [done|].
  cbn [mapping_of]. apply elem_of_app. destruct j as [|j].
  - injection Hj as ->. left. apply list_elem_of_fmap. exists iph.
    rewrite take_0. unfold n_modes. cbn. rewrite !Nat.add_0_r.
    split; [done|]. apply elem_of_seq. lia.
  - right. cbn [take]. rewrite n_modes_cons.
    replace (k + S j)%nat with (S k + j)%nat by lia.
    replace (nv + (length (Mol.ph_list mol0) + n_modes (take j mols)) + iph)%nat
      with (nv + length (Mol.ph_list mol0) + n_modes (take j mols) + iph)%nat by lia.
    by apply IH.
Qed.

Lemma mapping_of_lookup (ml : list Mol.t) (imol iph : nat) (mol : Mol.t) :
  ml !! imol = Some mol -> (iph < length (Mol.ph_list mol))%nat ->
  dict_get (imol, iph) (mapping_of 0 0 ml)
  = Some (dof_name "v" (n_modes (take imol ml) + iph)).
Proof.
  intros Hmol Hiph. apply dict_get_elem_of; [apply mapping_of_NoDup|].
  exact (mapping_of_elem 0 0 imol iph ml mol Hmol Hiph).
Qed.

Lemma dof_range_kinds (pl : list (string * nat)) (ne nv : nat) :
  pl ≡ₚ (("e",.) <$> seq 0 ne) ++ (("v",.) <$> seq 0 nv) ->
  Forall (fun x => x.1 = "e" \/ x.1 = "v") pl /\ NoDup (dn <$> pl).
Proof.
  intros Hperm.
  assert (Hkinds : Forall (fun x : string * nat => x.1 = "e" \/ x.1 = "v") pl).
  { rewrite Hperm. apply Forall_app. split; apply Forall_fmap, Forall_forall;
      intros i _; simpl; auto. }
  split; [done|]. apply NoDup_fmap_2_strong.
  - intros x y Hx Hy. apply dn_inj; by eapply (proj1 (Forall_forall _ _) Hkinds).
  - rewrite Hperm. apply NoDup_app. split; [|split].
    + apply NoDup_fmap_2; [intros ? ? [=]; done | apply NoDup_seq].
    + intros x [i [-> _]]%list_elem_of_fmap [j [[=] _]]%list_elem_of_fmap.
    + apply NoDup_fmap_2; [intros ? ? [=]; done | apply NoDup_seq].
Qed.

Lemma filter_kind (p q : string) (l : list nat) :
  filter (fun x : string * nat => x.1 = p) ((q,.) <$> l)
  = if decide (q = p) then (q,.) <$> l else [].
Proof.
  induction l as [|i l IH]; [by destruct (decide (q = p))|].
  rewrite fmap_cons, filter_cons, IH. cbn [fst].
  by destruct (decide (q = p)).
Qed.

Lemma dof_range_indices (pl : list (string * nat)) (ne nv : nat) :
  pl ≡ₚ (("e",.) <$> seq 0 ne) ++ (("v",.) <$> seq 0 nv) ->
  (filter (fun x : string * nat => x.1 = "e") pl).*2 ≡ₚ seq 0 ne
  /\ (filter (fun x : string * nat => x.1 = "v") pl).*2 ≡ₚ seq 0 nv.
Proof.
  intros Hperm. rewrite !Hperm, !filter_app, !filter_kind. simpl.
  rewrite app_nil_r, <- !list_fmap_compose. split; by rewrite list_fmap_id.
Qed.

Section DofsRange.
Context {CacheKey : Type} `{Countable CacheKey} {Mpos : Type}.

(** A model whose DoFs are [e_0 .. e_{ne-1}] and [v_0 .. v_{nv-1}], in any
    sequence, has exactly these electronic and vibrational DoFs. *)
Lemma dofs_of_range (self : @Model CacheKey _ _ Mpos) (pl : list (string * nat))
    (ne nv : nat) :
  dict_keys (order self) = dn <$> pl ->
  pl ≡ₚ (("e",.) <$> seq 0 ne) ++ (("v",.) <$> seq 0 nv) ->
  e_dofs self = Ok (dof_name "e" <$> seq 0 ne)
  /\ v_dofs self = Ok (dof_name "v" <$> seq 0 nv).
Proof.
  intros Hkeys Hperm.
  destruct (dof_range_kinds pl ne nv Hperm) as [Hkinds _].
  destruct (dof_range_indices pl ne nv Hperm) as [He Hv].
  split.
  - destruct (dofs_of_kind_named "e" self pl (or_introl eq_refl) Hkeys Hkinds)
      as [Hok _].
    assert (Hlen : length (filter (fun x : string * nat => x.1 = "e") pl).*2 = ne)
      by (by rewrite He, length_seq).
    rewrite Hlen in Hok. by apply Hok.
  - destruct (dofs_of_kind_named "v" self pl (or_intror eq_refl) Hkeys Hkinds)
      as [Hok _].
    assert (Hlen : length (filter (fun x : string * nat => x.1 = "v") pl).*2 = nv)
      by (by rewrite Hv, length_seq).
    rewrite Hlen in Hok. by apply Hok.
Qed.
End DofsRange.

Lemma dict_update_nil {K V : Type} `{EqDecision K} (kvs : list (K * V)) :
  NoDup kvs.*1 -> dict_update kvs [] = kvs.
Proof. intros Hnd. by rewrite dict_update_fresh. Qed.

Lemma order123_NoDup (ml : list Mol.t) : NoDup (dict_keys (order123 0 0 0 ml)).
Proof.
  destruct (order123_keys 0 0 0 ml) as (pl & -> & Hperm).
  by apply (dof_range_kinds pl (length ml) (n_modes ml)).
Qed.

Lemma layout_scheme123_closed (ml : list Mol.t) :
  layout_scheme123 ml
  = mkLayout (order123 0 0 0 ml) (basis123 ml) (mapping_of 0 0 ml)
             (length ml + n_modes ml) (n_modes ml) 0.
Proof.
  unfold layout_scheme123, enumerate. rewrite layout_mol123_closed.
  cbn [layout_init lay_order lay_basis lay_mapping lay_idx lay_nv lay_n_left_ph].
  rewrite !dict_update_nil; [done | apply mapping_of_NoDup | apply order123_NoDup].
Qed.

Lemma layout_scheme4_closed (ml : list Mol.t) :
  let n_left_ph := n_modes (take (length ml / 2) ml) in
  layout_scheme4 ml
  = mkLayout
      (order4v (length ml / 2) 0 0 0 ml
       ++ ((fun imol => (dof_name "e" imol, Z.of_nat n_left_ph)) <$> seq 0 (length ml)))
      (list_insert_at n_left_ph (BasisMultiElectronVac (length ml))
         (concat ((fun mol => sho_basis <$> Mol.ph_list mol) <$> ml)))
      (mapping_of 0 0 ml) (n_modes ml) (n_modes ml) n_left_ph.
Proof.
  intros n_left_ph. unfold layout_scheme4, enumerate. rewrite layout_mol4_closed.
  cbn [layout_init lay_order lay_basis lay_mapping lay_idx lay_nv lay_n_left_ph].
  rewrite Nat.sub_0_r. fold n_left_ph. cbn [Nat.add app].
  assert (Hv : NoDup (dict_keys (order4v (length ml / 2) 0 0 0 ml))).
  { rewrite order4v_keys. apply NoDup_fmap_2; [|apply NoDup_seq].
    intros i j Hij. by apply (dn_inj ("v", i) ("v", j)) in Hij; [injection Hij|auto..]. }
  rewrite !dict_update_nil; [| apply mapping_of_NoDup | exact Hv].
  f_equal.
  transitivity (dict_update
                  ((fun imol => (dof_name "e" imol, Z.of_nat n_left_ph))
                     <$> seq 0 (length ml))
                  (order4v (length ml / 2) 0 0 0 ml)).
  { unfold dict_update. generalize (order4v (length ml / 2) 0 0 0 ml).
    generalize (seq 0 (length ml)). intros l. induction l as [|i l IH]; intros o; [done|].
    cbn [fold_left fmap list_fmap fst snd]. apply IH. }
  apply dict_update_fresh. rewrite order4v_keys, <- list_fmap_compose.
  apply NoDup_app. split; [|split].
  - apply NoDup_fmap_2; [|apply NoDup_seq].
    intros i j Hij. by apply (dn_inj ("v", i) ("v", j)) in Hij; [injection Hij|auto..].
  - intros x [i [-> _]]%list_elem_of_fmap [j [Hij _]]%list_elem_of_fmap.
    simpl in Hij. by apply (dn_inj ("v", i) ("e", j)) in Hij; [|auto..].
  - apply NoDup_fmap_2; [|apply NoDup_seq].
    intros i j Hij. simpl in Hij.
    by apply (dn_inj ("e", i) ("e", j)) in Hij; [injection Hij|auto..].
Qed.

(** The DoFs, the mode table and the number of sites that the layout stage
    produces for a scheme that is accepted. *)
Lemma layout_of_scheme_dofs (scheme : Z) (ml : list Mol.t) (lay : layout) :
  layout_of_scheme scheme ml = Ok lay ->
  (exists pl, dict_keys (lay_order lay) = dn <$> pl
     /\ pl ≡ₚ (("e",.) <$> seq 0 (length ml)) ++ (("v",.) <$> seq 0 (n_modes ml)))
  /\ lay_mapping lay = mapping_of 0 0 ml
  /\ length (lay_basis lay)
     = if decide (scheme < 4) then (length ml + n_modes ml)%nat
       else (n_modes ml + 1)%nat.
Proof.
  unfold layout_of_scheme. intros Hlay.
  destruct (decide (scheme < 4)) as [Hlt|Hge].
  - injection Hlay as <-. rewrite layout_scheme123_closed.
    cbn [lay_order lay_basis lay_mapping]. split; [apply order123_keys|].
    split; [done|]. unfold basis123. clear. induction ml as [|mol ml IH]; [done|].
    rewrite fmap_cons. cbn [concat]. cbn beta.
    rewrite length_app, length_cons, length_fmap, IH, n_modes_cons. cbn [length]. lia.
  - destruct (decide (scheme = 4)) as [->|Hne]; [|discriminate].
    injection Hlay as <-. rewrite layout_scheme4_closed.
    cbn [lay_order lay_basis lay_mapping]. split; [|split; [done|]].
    + exists ((("v",.) <$> seq 0 (n_modes ml)) ++ (("e",.) <$> seq 0 (length ml))).
      split; [|apply Permutation_app_comm].
      unfold dict_keys. rewrite !fmap_app, <- !list_fmap_compose.
      f_equal. apply (order4v_keys (length ml / 2) 0 0 0 ml).
    + unfold list_insert_at. rewrite length_app. cbn [length].
      rewrite length_take, length_drop, n_modes_concat.
      pose proof (n_modes_take_le (length ml / 2) ml). lia.
Qed.

(** ** The coupling matrix *)

Lemma mat_build_ext (n : nat) (f g : nat -> nat -> Qc) :
  (forall i j, (i < n)%nat -> (j < n)%nat -> f i j = g i j) ->
  mat_build n f = mat_build n g.
Proof.
  intros Hext. unfold mat_build. apply list_fmap_ext. intros ? i Hi.
  apply lookup_seq in Hi as [-> Hi]. apply list_fmap_ext. intros ? j Hj.
  apply lookup_seq in Hj as [-> Hj]. by apply Hext.
Qed.

Lemma mat_build_lookup (n : nat) (f : nat -> nat -> Qc) (i : nat) :
  (i < n)%nat -> mat_build n f !! i = Some (f i <$> seq 0 n).
Proof.
  intros Hi. unfold mat_build, ndarray2.
  rewrite list_lookup_fmap, lookup_seq_lt by done. done.
Qed.

Lemma mat_build_length (n : nat) (f : nat -> nat -> Qc) :
  length (mat_build n f) = n /\ Forall (fun row => length row = n) (mat_build n f).
Proof.
  unfold mat_build. rewrite length_fmap, length_seq. split; [done|].
  apply Forall_fmap, Forall_forall. intros i _. simpl.
  by rewrite length_fmap, length_seq.
Qed.

Lemma py_list_get_index {A} (l : list A) (z : Z) (i : nat) (x : A) :
  py_index (length l) z = Some i -> l !! i = Some x -> py_list_get l z = Ok x.
Proof. intros Hz Hi. unfold py_list_get. by rewrite Hz, Hi. Qed.

Lemma mat_get_build (n : nat) (f : nat -> nat -> Qc) (i j : nat) :
  (i < n)%nat -> (j < n)%nat ->
  mat_get (mat_build n f) (Z.of_nat i) (Z.of_nat j) = Ok (f i j).
Proof.
  intros Hi Hj. unfold mat_get.
  rewrite (py_list_get_index _ _ i (f i <$> seq 0 n)).
  - rewrite result_bind_Ok. apply (py_list_get_index _ _ j).
    + rewrite length_fmap, length_seq. by apply py_index_in_range.
    + by rewrite list_lookup_fmap, lookup_seq_lt.
  - rewrite (proj1 (mat_build_length n f)). by apply py_index_in_range.
  - by apply mat_build_lookup.
Qed.

Lemma mat_add_build (n : nat) (f g : nat -> nat -> Qc) :
  mat_add (mat_build n f) (mat_build n g)
  = mat_build n (fun i j => (f i j + g i j)%Qc).
Proof.
  assert (Hzip : forall {A B C D} (h : B -> C -> D) (f1 : A -> B) (f2 : A -> C) l,
            zip_with h (f1 <$> l) (f2 <$> l) = (fun x => h (f1 x) (f2 x)) <$> l).
  { intros A B C D h f1 f2 l. induction l as [|x l IH]; [done|].
    rewrite !fmap_cons. cbn [zip_with]. by rewrite IH. }
  unfold mat_add, mat_build. rewrite Hzip. apply list_fmap_ext. intros ? i _.
  apply Hzip.
Qed.

Lemma insert_fmap_seq {A} (g : nat -> A) (n i0 : nat) (y : A) :
  <[i0 := y]> (g <$> seq 0 n)
  = (fun i => if decide (i = i0) then y else g i) <$> seq 0 n.
Proof.
  apply list_eq. intros k.
  destruct (decide (k < n)%nat) as [Hk|Hk].
  - rewrite list_lookup_fmap, lookup_seq_lt by done. simpl.
    destruct (decide (k = i0)) as [->|Hne].
    + rewrite list_lookup_insert_eq; [done|]. by rewrite length_fmap, length_seq.
    + rewrite list_lookup_insert_ne by done.
      by rewrite list_lookup_fmap, lookup_seq_lt.
  - rewrite !lookup_ge_None_2; [done|..];
      rewrite ?length_insert, length_fmap, length_seq; lia.
Qed.

Lemma mat_set_build (n : nat) (f : nat -> nat -> Qc) (zi zj : Z) (i0 j0 : nat)
    (x : Qc) :
  (i0 < n)%nat -> py_index n zi = Some i0 -> py_index n zj = Some j0 ->
  mat_set (mat_build n f) zi zj x
  = Ok (mat_build n (fun i j => if decide (i = i0 /\ j = j0) then x else f i j)).
Proof.
  intros Hi0 Hzi Hzj. unfold mat_set.
  rewrite (py_list_get_index _ _ i0 (f i0 <$> seq 0 n));
    [| by rewrite (proj1 (mat_build_length n f)) | by apply mat_build_lookup].
  rewrite result_bind_Ok. unfold py_list_set.
  rewrite length_fmap, length_seq, Hzj, result_bind_Ok.
  rewrite (proj1 (mat_build_length n f)), Hzi. f_equal.
  unfold mat_build. rewrite !insert_fmap_seq. apply list_fmap_ext. intros ? i _.
  destruct (decide (i = i0)) as [->|Hne].
  - apply list_fmap_ext. intros ? j _. destruct (decide (j = j0)) as [->|Hnej].
    + by rewrite decide_True.
    + rewrite decide_False; [done|]. by intros [_ ?].
  - apply list_fmap_ext. intros ? j _. rewrite decide_False; [done|]. by intros [? _].
Qed.

Lemma construct_j_matrix_closed (n : nat) (q : Quantity) (p : bool) :
  n <> 0%nat ->
  construct_j_matrix n q p
  = Ok (mat_build n (fun i j => if decide (coupled n p i j) then as_au q else 0%Qc)).
Proof.
  intros Hn. unfold construct_j_matrix. rewrite decide_False by done.
  unfold np_diag. rewrite length_replicate.
  change (Z.abs_nat (-1)) with 1%nat. change (Z.abs_nat 1) with 1%nat.
  replace (n - 1 + 1)%nat with n by lia. rewrite mat_add_build.
  set (c := as_au q).
  assert (Hbase : forall i j, (i < n)%nat -> (j < n)%nat ->
            Qcplus
              (if decide (Z.of_nat j - Z.of_nat i = -1)
               then default 0%Qc (replicate (n - 1) (1 * c)%Qc !! (i `min` j)%nat)
               else 0%Qc)
              (if decide (Z.of_nat j - Z.of_nat i = 1)
               then default 0%Qc (replicate (n - 1) (1 * c)%Qc !! (i `min` j)%nat)
               else 0%Qc)
            = if decide (i = S j \/ j = S i) then c else 0%Qc).
  { intros i j Hi Hj.
    destruct (decide (Z.of_nat j - Z.of_nat i = -1)) as [H1|H1];
      destruct (decide (Z.of_nat j - Z.of_nat i = 1)) as [H2|H2]; try lia.
    - rewrite decide_True by lia. rewrite lookup_replicate_2 by lia. simpl. ring.
    - rewrite decide_True by lia. rewrite lookup_replicate_2 by lia. simpl. ring.
    - rewrite decide_False by lia. ring. }
  destruct p.
  - rewrite (mat_set_build n _ (-1) 0 (n - 1) 0 c); [|lia|..].
    + rewrite result_bind_Ok.
      rewrite (mat_set_build n _ 0 (-1) 0 (n - 1) c); [|lia|..].
      * f_equal. apply mat_build_ext. intros i j Hi Hj. rewrite Hbase by done.
        unfold coupled; repeat case_decide; try done; exfalso; intuition (lia || discriminate).
      * unfold py_index. rewrite decide_True by lia. done.
      * unfold py_index. rewrite decide_False, decide_True by lia. f_equal. lia.
    + unfold py_index. rewrite decide_False, decide_True by lia. f_equal. lia.
    + unfold py_index. rewrite decide_True by lia. done.
  - f_equal. apply mat_build_ext. intros i j Hi Hj. rewrite Hbase by done.
    unfold coupled; repeat case_decide; try done; exfalso; intuition (lia || discriminate).
Qed.

(** ** The stages of [HolsteinModel.__init__] *)

Lemma for_each_Ok {A S} (body : S -> A -> result S) (l : list A) :
  (forall s x, x ∈ l -> is_Ok (body s x)) -> forall s, is_Ok (for_each body l s).
Proof.
  induction l as [|x l IH]; intros Hbody s; [by eexists|].
  cbn [for_each]. destruct (Hbody s x) as [s' ->]; [by left|].
  rewrite result_bind_Ok. apply IH. intros s0 y Hy. apply Hbody. by right.
Qed.

Lemma enumerate_from_inv {A} (l : list A) (start i : nat) (x : A) :
  (i, x) ∈ enumerate_from start l ->
  exists j, i = (start + j)%nat /\ l !! j = Some x.
Proof.
  revert start. induction l as [|y l IH]; intros start Hin.
  - by apply elem_of_nil in Hin.
  - cbn [enumerate_from] in Hin. apply elem_of_cons in Hin as [[= -> ->]|Hin].
    + exists 0%nat. split; [lia | done].
    + destruct (IH (S start) Hin) as (j & -> & Hj). exists (S j). split; [lia | done].
Qed.

Lemma py_list_get_nat {A} (l : list A) (i : nat) (x : A) :
  l !! i = Some x -> py_list_get l (Z.of_nat i) = Ok x.
Proof.
  intros Hi. apply (py_list_get_index l _ i); [|done].
  apply py_index_in_range. by apply lookup_lt_Some in Hi.
Qed.

Lemma electronic_terms_Ok (ml : list Mol.t) (jm : ndarray2)
    (m0 : pydict (list string) (list term)) :
  (length ml <= length jm)%nat ->
  Forall (fun row => (length ml <= length row)%nat) jm ->
  is_Ok (electronic_terms ml jm m0).
Proof.
  intros Hrows Hcols. unfold electronic_terms. revert m0.
  apply for_each_Ok. intros m imol Himol%elem_of_seq.
  apply for_each_Ok. intros m' jmol Hjmol%elem_of_seq.
  destruct (decide (imol = jmol)) as [_|_].
  - destruct (lookup_lt_is_Some_2 ml imol) as [mol Hmol]; [lia|].
    rewrite (py_list_get_nat _ _ _ Hmol). by eexists.
  - unfold ndarray2 in *.
    destruct (lookup_lt_is_Some_2 jm imol) as [row Hrow]; [lia|].
    assert (Hlen : (length ml <= length row)%nat).
    { apply (proj1 (Forall_forall _ _) Hcols). by eapply list_elem_of_lookup_2. }
    destruct (lookup_lt_is_Some_2 row jmol) as [x Hx]; [lia|].
    unfold mat_get. rewrite (py_list_get_nat _ _ _ Hrow), result_bind_Ok.
    rewrite (py_list_get_nat _ _ _ Hx). by eexists.
Qed.

Lemma py_float_sq_Ok (x : Qc) :
  (x * x < float_overflow)%Qc -> py_float_sq x = Ok (x * x)%Qc.
Proof. intros Hx. unfold py_float_sq. by rewrite decide_True. Qed.

Lemma py_float_sq_Ok_inv (x y : Qc) :
  py_float_sq x = Ok y -> (x * x < float_overflow)%Qc /\ y = (x * x)%Qc.
Proof.
  unfold py_float_sq. destruct (decide (x * x < float_overflow)%Qc); [|discriminate].
  intros Hy. by injection Hy as <-.
Qed.

Lemma py_float_sq_raises (x : Qc) :
  ~ (x * x < float_overflow)%Qc -> py_float_sq x = Raise OverflowError.
Proof. intros Hx. unfold py_float_sq. by rewrite decide_False. Qed.

Lemma vibration_terms_Ok (ml : list Mol.t) (m0 : pydict (list string) (list term)) :
  (forall mol ph, mol ∈ ml -> ph ∈ Mol.ph_list mol ->
     np_allclose2 (Phonon.force3rd ph) (0, 0)%Qc = true /\ squares_in_range ph) ->
  is_Ok (vibration_terms ml (mapping_of 0 0 ml) m0).
Proof.
  intros Hforce. unfold vibration_terms. revert m0.
  apply for_each_Ok. intros m [imol mol] Hmol.
  apply enumerate_from_inv in Hmol as (j & -> & Hmol).
  apply for_each_Ok. intros m' [iph ph] Hph.
  apply enumerate_from_inv in Hph as (i & -> & Hph).
  destruct (Hforce mol ph) as (Hclose & Hw0 & _);
    [by eapply list_elem_of_lookup_2 | by eapply list_elem_of_lookup_2 |].
  rewrite Hclose. cbn [py_assert]. rewrite result_bind_Ok.
  rewrite (py_float_sq_Ok _ Hw0), result_bind_Ok. unfold dict_getitem.
  rewrite (mapping_of_lookup ml _ _ mol Hmol) by (by eapply lookup_lt_Some).
  by eexists.
Qed.

Lemma potential_terms_Ok (ml : list Mol.t) (m0 : pydict (list string) (list term)) :
  (forall mol ph, mol ∈ ml -> ph ∈ Mol.ph_list mol -> squares_in_range ph) ->
  is_Ok (potential_terms ml (mapping_of 0 0 ml) m0).
Proof.
  intros Hrange. unfold potential_terms. revert m0.
  apply for_each_Ok. intros m [imol mol] Hmol.
  apply enumerate_from_inv in Hmol as (j & -> & Hmol).
  apply for_each_Ok. intros m' [iph ph] Hph.
  apply enumerate_from_inv in Hph as (i & -> & Hph).
  destruct (Hrange mol ph) as (Hw0 & Hw1);
    [by eapply list_elem_of_lookup_2 | by eapply list_elem_of_lookup_2 |].
  cbv zeta. rewrite (py_float_sq_Ok _ Hw0), (py_float_sq_Ok _ Hw1), !result_bind_Ok.
  unfold dict_getitem.
  rewrite (mapping_of_lookup ml _ _ mol Hmol) by (by eapply lookup_lt_Some).
  destruct (np_isclose _ _); by eexists.
Qed.

Lemma vibration_terms_overflow mol_list mapping m0 mol ph :
  mol ∈ mol_list -> ph ∈ Mol.ph_list mol ->
  ~ ((Phonon.omega ph).1 * (Phonon.omega ph).1 < float_overflow)%Qc ->
  raises (vibration_terms mol_list mapping m0).
Proof.
  intros Hmol Hph Hbig. unfold vibration_terms.
  destruct (enumerate_from_elem _ 0 _ Hmol) as [imol Himol].
  destruct (enumerate_from_elem _ 0 _ Hph) as [iph Hiph].
  eapply for_each_raises; [exact Himol|]. intros m. simpl.
  eapply for_each_raises; [exact Hiph|]. intros m'. simpl.
  destruct (py_assert _) as [[]|e]; [|by eexists].
  rewrite result_bind_Ok, (py_float_sq_raises _ Hbig). by eexists.
Qed.

Lemma potential_terms_overflow mol_list mapping m0 mol ph :
  mol ∈ mol_list -> ph ∈ Mol.ph_list mol ->
  ~ ((Phonon.omega ph).2 * (Phonon.omega ph).2 < float_overflow)%Qc ->
  raises (potential_terms mol_list mapping m0).
Proof.
  intros Hmol Hph Hbig. unfold potential_terms.
  destruct (enumerate_from_elem _ 0 _ Hmol) as [imol Himol].
  destruct (enumerate_from_elem _ 0 _ Hph) as [iph Hiph].
  eapply for_each_raises; [exact Himol|]. intros m. simpl.
  eapply for_each_raises; [exact Hiph|]. intros m'. simpl.
  rewrite (py_float_sq_raises _ Hbig). destruct (np_isclose _ _); by eexists.
Qed.

Lemma check_slots_Some (bs : list BasisSet) : check_slots (Some <$> bs) = Ok bs.
Proof.
  induction bs as [|b bs IH]; [done|].
  rewrite fmap_cons. cbn [check_slots]. by rewrite IH.
Qed.

Lemma coupling_matrix_rows (n : nat) (j : j_arg) (p : bool) (jm : ndarray2) :
  coupling_matrix n j p = Ok jm ->
  length jm = n
  /\ match j with
     | JArray a => jm = a
     | JQuantity q => construct_j_matrix n q p = Ok jm
     | JNone => n = 1%nat /\ jm = [[0%Qc]]
     end.
Proof.
  unfold coupling_matrix. destruct j as [|q|a].
  - destruct (decide (n = 1%nat)) as [->|Hne].
    + intros Hjm. vm_compute in Hjm. destruct p; injection Hjm as <-; done.
    + rewrite bool_decide_eq_false_2 by done. discriminate.
  - rewrite result_bind_Ok. intros Hjm. split; [|done].
    destruct (decide (n = 0%nat)) as [->|Hn]; [discriminate|].
    rewrite construct_j_matrix_closed in Hjm by done. injection Hjm as <-.
    apply mat_build_length.
  - rewrite result_bind_Ok. intros Hjm.
    apply bind_Ok_inv in Hjm as [[] [_ Hjm]].
    apply bind_Ok_inv in Hjm as [[] [Hlen Hjm]]. injection Hjm as <-.
    split; [|done]. destruct (bool_decide (length a = n)) eqn:Hb; [|discriminate].
    by apply bool_decide_eq_true in Hb.
Qed.

Section HolsteinStages.
Context {CacheKey : Type} `{Countable CacheKey} {Mpos : Type}.

(** Once the coupling stage and the three term loops have returned, nothing
    else in the constructor can raise for a scheme up to 4, and the number
    of electronic DoFs read back from [order] is the number of molecules. *)
Lemma HolsteinModel_init_stages (ml : list Mol.t) (j : j_arg) (scheme : Z)
    (periodic : bool) (jm : ndarray2) (m1 m2 m3 : pydict (list string) (list term)) :
  coupling_matrix (length ml) j periodic = Ok jm ->
  scheme <= 4 ->
  electronic_terms ml jm [] = Ok m1 ->
  vibration_terms ml (mapping_of 0 0 ml) m1 = Ok m2 ->
  potential_terms ml (mapping_of 0 0 ml) m2 = Ok m3 ->
  exists (self : @Model CacheKey _ _ Mpos) lay,
    layout_of_scheme scheme ml = Ok lay
    /\ Model_init (OrderDict (lay_order lay)) (BasisList (lay_basis lay)) m3
         (Some (dipole_of ml)) = Ok self
    /\ HolsteinModel_init ml j scheme periodic
       = Ok (HolsteinModel.mk _ _ _ _ self ml jm scheme periodic
               (mapping_of 0 0 ml) (length ml)).
Proof.
  intros Hjm Hs Hm1 Hm2 Hm3.
  assert (Hlay : is_Ok (layout_of_scheme scheme ml)).
  { unfold layout_of_scheme. destruct (decide (scheme < 4)); [by eexists|].
    rewrite decide_True by lia. by eexists. }
  destruct Hlay as [lay Hlay].
  destruct (layout_of_scheme_dofs scheme ml lay Hlay)
    as ((pl & Hkeys & Hperm) & Hmap & _).
  assert (Hself : exists self : @Model CacheKey _ _ Mpos,
             Model_init (OrderDict (lay_order lay)) (BasisList (lay_basis lay)) m3
               (Some (dipole_of ml)) = Ok self).
  { unfold Model_init. rewrite result_bind_Ok, check_slots_Some, result_bind_Ok.
    by eexists. }
  destruct Hself as [self Hself]. exists self, lay. split; [done|]. split; [done|].
  assert (Ho : order self = lay_order lay).
  { unfold Model_init in Hself.
    rewrite result_bind_Ok, check_slots_Some, result_bind_Ok in Hself.
    by injection Hself as <-. }
  assert (Hn : n_edofs self = Ok (length ml)).
  { unfold n_edofs. rewrite <- Ho in Hkeys.
    destruct (dofs_of_range self pl _ _ Hkeys Hperm) as [-> _].
    cbn. by rewrite length_fmap, length_seq. }
  unfold HolsteinModel_init.
  rewrite Hjm, result_bind_Ok, Hlay, result_bind_Ok, Hm1, result_bind_Ok.
  rewrite Hmap, Hm2, result_bind_Ok, Hm3, result_bind_Ok, Hself, result_bind_Ok.
  by rewrite Hn, result_bind_Ok.
Qed.

(** Conversely a model that was built went through these stages with the
    mode table [mapping_of]. *)
Lemma HolsteinModel_init_stages_inv (ml : list Mol.t) (j : j_arg) (scheme : Z)
    (periodic : bool) (h : @HolsteinModel.t CacheKey _ _ Mpos) :
  HolsteinModel_init ml j scheme periodic = Ok h ->
  exists jm m1 m2 m3 self lay,
    coupling_matrix (length ml) j periodic = Ok jm
    /\ scheme <= 4
    /\ layout_of_scheme scheme ml = Ok lay
    /\ electronic_terms ml jm [] = Ok m1
    /\ vibration_terms ml (mapping_of 0 0 ml) m1 = Ok m2
    /\ potential_terms ml (mapping_of 0 0 ml) m2 = Ok m3
    /\ Model_init (OrderDict (lay_order lay)) (BasisList (lay_basis lay)) m3
         (Some (dipole_of ml)) = Ok self
    /\ h = HolsteinModel.mk _ _ _ _ self ml jm scheme periodic
             (mapping_of 0 0 ml) (length ml).
Proof.
  intros Hinit. pose proof Hinit as Hinit'.
  apply HolsteinModel_init_inv in Hinit
    as (jm & lay & m1 & m2 & m3 & self & n & Hjm & Hlay & Hm1 & Hm2 & Hm3 & _
        & _ & _).
  assert (Hs : scheme <= 4).
  { unfold layout_of_scheme in Hlay. repeat case_decide; (lia || discriminate). }
  destruct (layout_of_scheme_dofs scheme ml lay Hlay) as (_ & Hmap & _).
  rewrite Hmap in Hm2, Hm3.
  destruct (HolsteinModel_init_stages ml j scheme periodic jm m1 m2 m3
              Hjm Hs Hm1 Hm2 Hm3) as (self' & lay' & Hlay' & Hself' & Heq).
  rewrite Heq in Hinit'. injection Hinit' as <-.
  rewrite Hlay in Hlay'. injection Hlay' as <-.
  by exists jm, m1, m2, m3, self', lay.
Qed.
End HolsteinStages.

(** X12.  For at least one molecule [construct_j_matrix] returns a square
    matrix of size [mol_num] whose entry [(i, j)] is the coupling constant
    (in atomic units) when [i] and [j] are nearest neighbours, and also when
    [periodic] is set and they are the two ends of the chain; every other
    entry is zero. *)
Theorem construct_j_matrix_entries (mol_num : nat) (q : Quantity) (periodic : bool) :
  mol_num <> 0%nat ->
  exists a,
    construct_j_matrix mol_num q periodic = Ok a
    /\ length a = mol_num
    /\ Forall (fun row => length row = mol_num) a
    /\ forall i j, (i < mol_num)%nat -> (j < mol_num)%nat ->
         mat_get a (Z.of_nat i) (Z.of_nat j)
         = Ok (if decide (coupled mol_num periodic i j) then as_au q else 0%Qc).
Proof.
  intros Hn. eexists. split; [by apply construct_j_matrix_closed|].
  split; [apply mat_build_length|]. split; [apply mat_build_length|].
  intros i j Hi Hj. by rewrite mat_get_build.
Qed.

Lemma construct_j_matrix_entries_witness :
  exists a,
    construct_j_matrix 3 (mkQuantity 1%Qc) true = Ok a
    /\ mat_get a 2 0 = Ok 1%Qc /\ mat_get a 0 0 = Ok 0%Qc.
Proof.
  destruct (construct_j_matrix_entries 3 (mkQuantity 1%Qc) true)
    as (a & Ha & _ & _ & Hent); [lia|].
  exists a. split; [exact Ha|]. split.
  - exact (Hent 2%nat 0%nat ltac:(lia) ltac:(lia)).
  - exact (Hent 0%nat 0%nat ltac:(lia) ltac:(lia)).
Defined.

Lemma elem_of_ravel_build (n : nat) (f : nat -> nat -> Qc) (x : Qc) :
  x ∈ ravel (mat_build n f) <-> exists i j, (i < n)%nat /\ (j < n)%nat /\ f i j = x.
Proof.
  unfold ravel, mat_build. split.
  - intros Hx. apply elem_of_concat_inv in Hx as [row [Hx Hrow]].
    apply list_elem_of_fmap in Hrow as [i [-> Hi%elem_of_seq]].
    apply list_elem_of_fmap in Hx as [j [-> Hj%elem_of_seq]].
    exists i, j. repeat split; lia.
  - intros (i & j & Hi & Hj & <-).
    apply (elem_of_concat_intro _ (f i <$> seq 0 n)).
    + apply list_elem_of_fmap. exists j. split; [done|]. apply elem_of_seq. lia.
    + apply list_elem_of_fmap. exists i. split; [done|]. apply elem_of_seq. lia.
Qed.

(** The outcomes of [j_constant], read off the set of matrix entries. *)
Lemma j_constant_cases {CacheKey : Type} `{Countable CacheKey}
    {Mpos : Type} (h : @HolsteinModel.t CacheKey _ _ Mpos) (c : Qc) :
  (j_constant h = Ok c
   <-> c <> 0%Qc /\ 0%Qc ∈ ravel (HolsteinModel.j_matrix h)
       /\ c ∈ ravel (HolsteinModel.j_matrix h)
       /\ forall x, x ∈ ravel (HolsteinModel.j_matrix h) -> x = 0%Qc \/ x = c)
  /\ (j_constant h = Raise KeyError <-> ravel (HolsteinModel.j_matrix h) = [])
  /\ (forall e, j_constant h = Raise e ->
        e = KeyError \/ e = ValueError "J is not constant").
Proof.
  set (entries := ravel (HolsteinModel.j_matrix h)).
  assert (Hset : forall c', list_to_set entries = ({[ 0%Qc; c' ]} : gset Qc)
            <-> 0%Qc ∈ entries /\ c' ∈ entries
                /\ forall x, x ∈ entries -> x = 0%Qc \/ x = c').
  { intros c'. split.
    - intros Heq. split; [|split].
      + apply (elem_of_list_to_set (C := gset Qc)). rewrite Heq.
        apply elem_of_union. left. by apply elem_of_singleton.
      + apply (elem_of_list_to_set (C := gset Qc)). rewrite Heq.
        apply elem_of_union. right. by apply elem_of_singleton.
      + intros x Hx%(elem_of_list_to_set (C := gset Qc)). rewrite Heq in Hx.
        apply elem_of_union in Hx as [Hx|Hx]; apply elem_of_singleton in Hx; auto.
    - intros (H0 & Hc & Hall). apply set_eq. intros x.
      rewrite elem_of_list_to_set, elem_of_union, !elem_of_singleton. split.
      + apply Hall.
      + by intros [->| ->]. }
  destruct (decide (entries = [])) as [Hnil|Hne].
  - assert (Hj : j_constant h = Raise KeyError).
    { unfold j_constant. fold entries. rewrite Hnil. done. }
    rewrite Hj. split; [|split].
    + split; [discriminate|]. intros (_ & H0 & _). rewrite Hnil in H0.
      by apply elem_of_nil in H0.
    + done.
    + intros e [= <-]. by left.
  - pose proof (j_constant_on_entries h Hne) as Hspec. cbn zeta in Hspec.
    fold entries in Hspec.
    destruct (j_constant h) as [c'|e].
    + destruct Hspec as [Hc' Heq]. split; [|split].
      * split.
        -- intros [= <-]. split; [done|]. by apply Hset.
        -- intros (Hc & Hrest). apply Hset in Hrest. f_equal.
           assert (Hin : c ∈ ({[ 0%Qc; c' ]} : gset Qc)).
           { rewrite <- Heq, Hrest. apply elem_of_union. right.
             by apply elem_of_singleton. }
           apply elem_of_union in Hin as [Hin|Hin]; apply elem_of_singleton in Hin;
             [done | by symmetry].
      * split; [discriminate | done].
      * discriminate.
    + destruct Hspec as [-> Hno]. split; [|split].
      * split; [discriminate|]. intros (Hc & Hrest). exfalso.
        apply (Hno c Hc). by apply Hset.
      * split; [discriminate | done].
      * intros e [= <-]. by right.
Qed.

(** X13.  [j_constant] returns [c] exactly when [c] is not zero, both 0
    and [c] occur in the coupling matrix and no other value does.  It raises
    [KeyError] exactly on a matrix without entries, [ValueError] exactly on
    a matrix with entries that is not of that form, and nothing else. *)
Theorem j_constant_returns_iff {CacheKey : Type} `{Countable CacheKey}
    {Mpos : Type} (h : @HolsteinModel.t CacheKey _ _ Mpos) (c : Qc) :
  let entries := ravel (HolsteinModel.j_matrix h) in
  let constant c' :=
    c' <> 0%Qc /\ 0%Qc ∈ entries /\ c' ∈ entries
    /\ forall x, x ∈ entries -> x = 0%Qc \/ x = c' in
  (j_constant h = Ok c <-> constant c)
  /\ (j_constant h = Raise KeyError <-> entries = [])
  /\ (j_constant h = Raise (ValueError "J is not constant")
      <-> entries <> [] /\ forall c', ~ constant c')
  /\ (forall e, j_constant h = Raise e ->
        e = KeyError \/ e = ValueError "J is not constant").
Proof.
  intros entries constant. subst constant. cbn beta.
  destruct (j_constant_cases h c) as (Hok & Hkey & Herr). fold entries in Hok, Hkey.
  split; [exact Hok|]. split; [exact Hkey|]. split; [|exact Herr].
  split.
  - intros Hv. split.
    + intros Hnil. apply Hkey in Hnil. rewrite Hnil in Hv. discriminate.
    + intros c' Hc'. apply (proj1 (j_constant_cases h c')) in Hc'.
      rewrite Hc' in Hv. discriminate.
  - intros [Hne Hno]. destruct (j_constant h) as [c'|e] eqn:Hj.
    + exfalso. apply (Hno c'). by apply (proj1 (j_constant_cases h c')).
    + f_equal. destruct (Herr e eq_refl) as [->| ->]; [|done].
      exfalso. apply Hne. by apply Hkey.
Qed.

(** X14.  Round trip through the constructor: a model built from a
    coupling constant gives that constant (in atomic units) back from
    [j_constant] when there are at least two molecules and the constant is
    not zero; with one molecule or a zero constant [j_constant] raises
    [ValueError]. *)
Theorem j_constant_of_constant_coupling {CacheKey : Type} `{Countable CacheKey}
    {Mpos : Type} (ml : list Mol.t) (q : Quantity)
    (scheme : Z) (periodic : bool) (h : @HolsteinModel.t CacheKey _ _ Mpos) :
  HolsteinModel_init ml (JQuantity q) scheme periodic = Ok h ->
  j_constant h
  = if decide ((2 <= length ml)%nat /\ as_au q <> 0%Qc) then Ok (as_au q)
    else Raise (ValueError "J is not constant").
Proof.
  intros Hinit.
  apply HolsteinModel_init_stages_inv in Hinit
    as (jm & m1 & m2 & m3 & self & lay & Hjm & _ & _ & _ & _ & _ & _ & ->).
  apply coupling_matrix_rows in Hjm as [Hlen Hjm].
  assert (Hn : length ml <> 0%nat).
  { intros Hz. rewrite Hz in Hjm. discriminate. }
  rewrite construct_j_matrix_closed in Hjm by done. injection Hjm as Hjm.
  set (h := HolsteinModel.mk _ _ _ _ self ml jm scheme periodic
              (mapping_of 0 0 ml) (length ml)).
  set (F := fun i j : nat =>
              if decide (coupled (length ml) periodic i j) then as_au q else 0%Qc)
    in Hjm.
  assert (Hent : forall x, x ∈ ravel (HolsteinModel.j_matrix h)
                   <-> exists i j, (i < length ml)%nat /\ (j < length ml)%nat
                                   /\ F i j = x).
  { intros x. cbn [HolsteinModel.j_matrix h]. rewrite <- Hjm.
    apply elem_of_ravel_build. }
  assert (H00 : F 0%nat 0%nat ∈ ravel (HolsteinModel.j_matrix h)).
  { apply Hent. exists 0%nat, 0%nat. split; [lia|]. split; [lia | done]. }
  destruct (decide ((2 <= length ml)%nat /\ as_au q <> 0%Qc)) as [[Hlen2 Hq]|Hcase].
  - apply (proj1 (j_constant_cases h (as_au q))). split; [done|].
    split; [|split].
    + replace 0%Qc with (F 0%nat 0%nat); [done|]. unfold F.
      rewrite decide_False; [done|]. unfold coupled. lia.
    + apply Hent. exists 0%nat, 1%nat. split; [lia|]. split; [lia|]. unfold F.
      rewrite decide_True; [done|]. unfold coupled. lia.
    + intros x (i & j & _ & _ & <-)%Hent. unfold F.
      destruct (decide (coupled (length ml) periodic i j)); [by right | by left].
  - destruct (j_constant h) as [c|e] eqn:Hj.
    + exfalso.
      apply (proj1 (proj1 (j_constant_cases h c))) in Hj as (Hc & H0 & Hcin & _).
      apply Hent in H0 as (i0 & j0 & Hi0 & Hj0 & H0).
      apply Hent in Hcin as (i1 & j1 & Hi1 & Hj1 & H1).
      unfold F in H0, H1.
      destruct (decide (coupled (length ml) periodic i1 j1)) as [Hd1|Hd1];
        [|by subst].
      destruct (decide (coupled (length ml) periodic i0 j0)) as [Hd0|Hd0];
        [congruence|].
      apply Hcase. split; [|congruence].
      unfold coupled in Hd0, Hd1.
      destruct (decide (length ml = 1%nat)) as [Hone|]; [|lia].
      exfalso. apply Hd0. assert (i0 = 0%nat /\ j0 = 0%nat /\ i1 = 0%nat /\ j1 = 0%nat)
        as (-> & -> & -> & ->) by lia.
      done.
    + f_equal. destruct (proj2 (proj2 (j_constant_cases h 0%Qc)) e Hj)
        as [->| ->]; [|done].
      exfalso. apply (proj1 (proj1 (proj2 (j_constant_cases h 0%Qc)))) in Hj.
      rewrite Hj in H00.
      by apply elem_of_nil in H00.
Qed.

Lemma j_constant_of_constant_coupling_witness :
  exists h : @HolsteinModel.t string _ _ unit,
    HolsteinModel_init
      [example_mol [example_phonon 1%Qc 4]; example_mol []; example_mol []]
      (JQuantity (mkQuantity (Q2Qc (1 # 2)))) 2 true = Ok h
    /\ j_constant h = Ok (Q2Qc (1 # 2)).
Proof.
  destruct (@HolsteinModel_init string _ _ unit
      [example_mol [example_phonon 1%Qc 4]; example_mol []; example_mol []]
      (JQuantity (mkQuantity (Q2Qc (1 # 2)))) 2 true) as [h|e] eqn:Hinit;
    [|vm_compute in Hinit; discriminate].
  exists h. split; [reflexivity|].
  rewrite (j_constant_of_constant_coupling _ _ _ _ h Hinit).
  apply decide_True. split; [simpl; lia | discriminate].
Defined.

Lemma mapping_of_keys_inv (k nv : nat) (mols : list Mol.t) (x : nat * nat) :
  x ∈ dict_keys (mapping_of k nv mols) ->
  exists j mol, x.1 = (k + j)%nat /\ mols !! j = Some mol
                /\ (x.2 < length (Mol.ph_list mol))%nat.
Proof.
  revert k nv. induction mols as [|mol mols IH]; intros k nv Hx.
  - by apply elem_of_nil in Hx.
  - cbn [mapping_of] in Hx. unfold dict_keys in *. rewrite fmap_app in Hx.
    apply elem_of_app in Hx as [Hx|Hx].
    + rewrite <- list_fmap_compose in Hx.
      apply list_elem_of_fmap in Hx as [i [-> Hi%elem_of_seq]].
      exists 0%nat, mol. simpl. split; [lia|]. split; [done | lia].
    + apply IH in Hx as (j & mol' & Hk & Hj & Hlt).
      exists (S j), mol'. split; [lia|]. done.
Qed.

Lemma dict_get_is_Some_keys {K V : Type} `{EqDecision K} (d : pydict K V) (k : K) :
  is_Some (dict_get k d) <-> k ∈ dict_keys d.
Proof.
  induction d as [|[k' v'] d IH]; simpl.
  - split; [by intros [? ?] | by intros ?%elem_of_nil].
  - destruct (decide (k' = k)) as [->|Hne].
    + split; [intros _; by left | by eexists].
    + rewrite IH. split; [by right|]. by intros [?|?]%elem_of_cons.
Qed.

(** X15.  With [j_matrix=None] the constructor asserts that there is
    exactly one molecule; the model it then builds has the 1x1 zero coupling
    matrix, on which [j_constant] raises [ValueError]. *)
Theorem spin_boson_coupling {CacheKey : Type} `{Countable CacheKey}
    {Mpos : Type} (ml : list Mol.t) (scheme : Z) (periodic : bool) :
  (length ml <> 1%nat ->
   @HolsteinModel_init CacheKey _ _ Mpos ml JNone scheme periodic
   = Raise AssertionError)
  /\ (forall h : @HolsteinModel.t CacheKey _ _ Mpos,
        HolsteinModel_init ml JNone scheme periodic = Ok h ->
        length ml = 1%nat
        /\ HolsteinModel.j_matrix h = [[0%Qc]]
        /\ j_constant h = Raise (ValueError "J is not constant")).
Proof.
  split.
  - intros Hne. unfold HolsteinModel_init, coupling_matrix.
    by rewrite bool_decide_eq_false_2.
  - intros h Hinit.
    apply HolsteinModel_init_stages_inv in Hinit
      as (jm & m1 & m2 & m3 & self & lay & Hjm & _ & _ & _ & _ & _ & _ & ->).
    apply coupling_matrix_rows in Hjm as [_ [Hone ->]].
    split; [done|]. split; [done|].
    set (h := HolsteinModel.mk _ _ _ _ self ml [[0%Qc]] scheme periodic
                (mapping_of 0 0 ml) (length ml)).
    destruct (j_constant h) as [c|e] eqn:Hj.
    + exfalso.
      apply (proj1 (proj1 (j_constant_cases h c))) in Hj as (Hc & _ & Hcin & _).
      cbn in Hcin. apply list_elem_of_singleton in Hcin. done.
    + f_equal. destruct (proj2 (proj2 (j_constant_cases h 0%Qc)) e Hj)
        as [->| ->]; [|done].
      apply (proj1 (proj1 (proj2 (j_constant_cases h 0%Qc)))) in Hj.
      discriminate.
Qed.

Lemma spin_boson_coupling_witness :
  @HolsteinModel_init string _ _ unit [] JNone 2 false = Raise AssertionError
  /\ exists h : @HolsteinModel.t string _ _ unit,
       HolsteinModel_init [example_mol [example_phonon 1%Qc 4]] JNone 2 false = Ok h
       /\ HolsteinModel.j_matrix h = [[0%Qc]].
Proof.
  split.
  - apply (proj1 (spin_boson_coupling (CacheKey := string) (Mpos := unit) [] 2 false)).
    simpl. lia.
  - destruct (@HolsteinModel_init string _ _ unit
                [example_mol [example_phonon 1%Qc 4]] JNone 2 false)
      as [h|e] eqn:Hinit; [|vm_compute in Hinit; discriminate].
    exists h. split; [reflexivity|].
    exact (proj1 (proj2 (proj2 (spin_boson_coupling
             [example_mol [example_phonon 1%Qc 4]] 2 false) h Hinit))).
Defined.

(** X16.  When a coupling array has at least [mol_num] columns (a coupling
    constant or [None] needs no such condition), [HolsteinModel.__init__]
    returns a model exactly when the coupling argument is accepted, the
    scheme is at most 4, the cubic force constants of every mode pass
    [np.allclose(.., [0, 0])] and the squares [omega[0] ** 2] and
    [omega[1] ** 2] of every mode are in the range of float64. *)
Theorem HolsteinModel_init_succeeds_iff {CacheKey : Type} `{Countable CacheKey}
    {Mpos : Type} (ml : list Mol.t) (j : j_arg) (scheme : Z)
    (periodic : bool) :
  match j with
  | JArray a => Forall (fun row => (length ml <= length row)%nat) a
  | _ => True
  end ->
  is_Ok (@HolsteinModel_init CacheKey _ _ Mpos ml j scheme periodic)
  <-> is_Ok (coupling_matrix (length ml) j periodic)
      /\ scheme <= 4
      /\ forall mol ph, mol ∈ ml -> ph ∈ Mol.ph_list mol ->
           np_allclose2 (Phonon.force3rd ph) (0, 0)%Qc = true
           /\ squares_in_range ph.
Proof.
  intros Hcols. split.
  - intros [h Hinit].
    apply HolsteinModel_init_stages_inv in Hinit
      as (jm & m1 & m2 & m3 & self & lay & Hjm & Hs & _ & _ & Hm2 & Hm3 & _ & _).
    split; [by eexists|]. split; [done|]. intros mol ph Hmol Hph.
    split; [|split].
    + destruct (np_allclose2 (Phonon.force3rd ph) (0, 0)%Qc) eqn:Hclose; [done|].
      destruct (vibration_terms_raises ml (mapping_of 0 0 ml) m1 mol ph
                  Hmol Hph Hclose) as [e He].
      rewrite He in Hm2. discriminate.
    + destruct (decide ((Phonon.omega ph).1 * (Phonon.omega ph).1
                        < float_overflow)%Qc) as [|Hbig]; [done|].
      destruct (vibration_terms_overflow ml (mapping_of 0 0 ml) m1 mol ph
                  Hmol Hph Hbig) as [e He].
      rewrite He in Hm2. discriminate.
    + destruct (decide ((Phonon.omega ph).2 * (Phonon.omega ph).2
                        < float_overflow)%Qc) as [|Hbig]; [done|].
      destruct (potential_terms_overflow ml (mapping_of 0 0 ml) m2 mol ph
                  Hmol Hph Hbig) as [e He].
      rewrite He in Hm3. discriminate.
  - intros ([jm Hjm] & Hs & Hforce).
    assert (Hshape : (length ml <= length jm)%nat
                     /\ Forall (fun row => (length ml <= length row)%nat) jm).
    { pose proof (coupling_matrix_rows _ _ _ _ Hjm) as [Hlen Hj]. split; [lia|].
      destruct j as [|q|a].
      - destruct Hj as [-> ->]. repeat constructor.
      - destruct (decide (length ml = 0%nat)) as [Hz|Hn].
        { rewrite Hz in Hj. discriminate. }
        rewrite construct_j_matrix_closed in Hj by done. injection Hj as <-.
        eapply Forall_impl; [apply mat_build_length|]. simpl. intros row ->. lia.
      - by subst. }
    destruct Hshape as [Hrows Hcols'].
    destruct (electronic_terms_Ok ml jm [] Hrows Hcols') as [m1 Hm1].
    destruct (vibration_terms_Ok ml m1 Hforce) as [m2 Hm2].
    assert (Hrange : forall mol ph, mol ∈ ml -> ph ∈ Mol.ph_list mol ->
                       squares_in_range ph).
    { intros mol ph Hmol Hph. exact (proj2 (Hforce mol ph Hmol Hph)). }
    destruct (potential_terms_Ok ml m2 Hrange) as [m3 Hm3].
    destruct (HolsteinModel_init_stages (CacheKey := CacheKey) (Mpos := Mpos)
                ml j scheme periodic jm m1 m2 m3 Hjm Hs Hm1 Hm2 Hm3)
      as (self & lay & _ & _ & Hinit).
    by eexists.
Qed.

Lemma HolsteinModel_init_succeeds_iff_witness :
  is_Ok (@HolsteinModel_init string _ _ unit
           [example_mol [example_phonon 1%Qc 4]; example_mol []]
           (JArray [[0%Qc; 1%Qc]; [1%Qc; 0%Qc]]) 4 true).
Proof.
  apply (HolsteinModel_init_succeeds_iff
           [example_mol [example_phonon 1%Qc 4]; example_mol []]
           (JArray [[0%Qc; 1%Qc]; [1%Qc; 0%Qc]]) 4 true).
  - repeat constructor.
  - split; [by eexists|]. split; [lia|]. intros mol ph Hmol Hph.
    apply elem_of_cons in Hmol as [->|Hmol].
    + apply list_elem_of_singleton in Hph. by subst.
    + apply list_elem_of_singleton in Hmol. subst. by apply elem_of_nil in Hph.
Defined.

(** X17.  In a model that was built, [mol_num] (read back from [order]
    through [n_edofs]) is the number of molecules and equals [len(model)];
    [e_dofs] lists [e_0 .. e_{mol_num-1}], [v_dofs] lists one DoF per
    vibrational mode; there is one site per DoF for a scheme below 4, and
    one site per mode plus a single electronic site for scheme 4. *)
Theorem HolsteinModel_dofs {CacheKey : Type} `{Countable CacheKey}
    {Mpos : Type} (ml : list Mol.t) (j : j_arg) (scheme : Z)
    (periodic : bool) (h : @HolsteinModel.t CacheKey _ _ Mpos) :
  HolsteinModel_init ml j scheme periodic = Ok h ->
  HolsteinModel.mol_num h = length ml
  /\ Holstein_len h = HolsteinModel.mol_num h
  /\ e_dofs (HolsteinModel.to_Model h) = Ok (dof_name "e" <$> seq 0 (length ml))
  /\ v_dofs (HolsteinModel.to_Model h) = Ok (dof_name "v" <$> seq 0 (n_modes ml))
  /\ length (dofs (HolsteinModel.to_Model h)) = (length ml + n_modes ml)%nat
  /\ nsite (HolsteinModel.to_Model h)
     = if decide (scheme < 4) then (length ml + n_modes ml)%nat
       else (n_modes ml + 1)%nat.
Proof.
  intros Hinit.
  apply HolsteinModel_init_stages_inv in Hinit
    as (jm & m1 & m2 & m3 & self & lay & _ & _ & Hlay & _ & _ & _ & Hself & ->).
  destruct (layout_of_scheme_dofs scheme ml lay Hlay)
    as ((pl & Hkeys & Hperm) & _ & Hbasis).
  apply Model_init_list_basis in Hself as (Ho & Hb & _ & _).
  cbn [HolsteinModel.mol_num HolsteinModel.to_Model].
  rewrite <- Ho in Hkeys.
  destruct (dofs_of_range self pl _ _ Hkeys Hperm) as [He Hv].
  split; [done|]. split; [done|]. split; [done|]. split; [done|]. split.
  - unfold dofs. rewrite Hkeys, length_fmap, Hperm, length_app, !length_fmap.
    by rewrite !length_seq.
  - unfold nsite. by rewrite Hb.
Qed.

Lemma HolsteinModel_dofs_witness :
  exists h : @HolsteinModel.t string _ _ unit,
    HolsteinModel_init
      [example_mol [example_phonon 1%Qc 4; example_phonon 1%Qc 3]; example_mol []]
      (JQuantity (mkQuantity 1%Qc)) 4 false = Ok h
    /\ HolsteinModel.mol_num h = 2%nat
    /\ v_dofs (HolsteinModel.to_Model h) = Ok ["v_0"; "v_1"]
    /\ nsite (HolsteinModel.to_Model h) = 3%nat.
Proof.
  destruct (@HolsteinModel_init string _ _ unit
      [example_mol [example_phonon 1%Qc 4; example_phonon 1%Qc 3]; example_mol []]
      (JQuantity (mkQuantity 1%Qc)) 4 false) as [h|e] eqn:Hinit;
    [|vm_compute in Hinit; discriminate].
  exists h. split; [reflexivity|].
  destruct (HolsteinModel_dofs _ _ _ _ h Hinit) as (Hn & _ & _ & Hv & _ & Hs).
  split; [exact Hn|]. split; [exact Hv | exact Hs].
Defined.

(** X18.  The table [map] of a model that was built sends [(imol, iph)] to
    [v_n], [n] being the number of modes of the molecules before [imol] plus
    [iph], for every mode of every molecule, and has no other key. *)
Theorem HolsteinModel_mode_table {CacheKey : Type} `{Countable CacheKey}
    {Mpos : Type} (ml : list Mol.t) (j : j_arg) (scheme : Z)
    (periodic : bool) (h : @HolsteinModel.t CacheKey _ _ Mpos) :
  HolsteinModel_init ml j scheme periodic = Ok h ->
  forall imol iph,
    match ml !! imol with
    | Some mol =>
        if decide (iph < length (Mol.ph_list mol))%nat
        then dict_get (imol, iph) (HolsteinModel.map h)
             = Some (dof_name "v" (n_modes (take imol ml) + iph))
        else dict_get (imol, iph) (HolsteinModel.map h) = None
    | None => dict_get (imol, iph) (HolsteinModel.map h) = None
    end.
Proof.
  intros Hinit imol iph.
  apply HolsteinModel_init_stages_inv in Hinit
    as (jm & m1 & m2 & m3 & self & lay & _ & _ & _ & _ & _ & _ & _ & ->).
  cbn [HolsteinModel.map].
  assert (Hnone : (forall mol, ml !! imol = Some mol ->
                     ~ (iph < length (Mol.ph_list mol))%nat) ->
                  dict_get (imol, iph) (mapping_of 0 0 ml) = None).
  { intros Hno. apply eq_None_not_Some. intros Hsome.
    apply dict_get_is_Some_keys, mapping_of_keys_inv in Hsome
      as (i & mol & Hi & Hmol & Hlt).
    simpl in Hi, Hlt. subst i. by apply (Hno mol). }
  destruct (ml !! imol) as [mol|] eqn:Hmol.
  - case_decide as Hlt.
    + by apply (mapping_of_lookup ml imol iph mol).
    + apply Hnone. by intros ? [= <-].
  - apply Hnone. by intros ? [=].
Qed.

Lemma HolsteinModel_mode_table_witness :
  exists h : @HolsteinModel.t string _ _ unit,
    HolsteinModel_init
      [example_mol [example_phonon 1%Qc 4; example_phonon 1%Qc 3];
       example_mol [example_phonon 1%Qc 5]]
      (JQuantity (mkQuantity 1%Qc)) 2 false = Ok h
    /\ dict_get (1%nat, 0%nat) (HolsteinModel.map h) = Some "v_2"
    /\ dict_get (1%nat, 1%nat) (HolsteinModel.map h) = None.
Proof.
  destruct (@HolsteinModel_init string _ _ unit
      [example_mol [example_phonon 1%Qc 4; example_phonon 1%Qc 3];
       example_mol [example_phonon 1%Qc 5]]
      (JQuantity (mkQuantity 1%Qc)) 2 false) as [h|e] eqn:Hinit;
    [|vm_compute in Hinit; discriminate].
  exists h. split; [reflexivity|]. split.
  - exact (HolsteinModel_mode_table _ _ _ _ h Hinit 1%nat 0%nat).
  - exact (HolsteinModel_mode_table _ _ _ _ h Hinit 1%nat 1%nat).
Defined.

(** X19.  [switch_scheme] on a model that was built, with a scheme up to
    4, returns a model with the same molecules, coupling matrix, mode table,
    terms and dipoles, and with [periodic] reset to [False], whatever it was;
    with a scheme above 4 it raises the invalid-scheme [ValueError]. *)
Theorem switch_scheme_keeps_terms {CacheKey : Type} `{Countable CacheKey}
    {Mpos : Type} (ml : list Mol.t) (j : j_arg) (scheme : Z)
    (periodic : bool) (h : @HolsteinModel.t CacheKey _ _ Mpos) (scheme' : Z) :
  HolsteinModel_init ml j scheme periodic = Ok h ->
  (scheme' <= 4 ->
   exists h', switch_scheme h scheme' = Ok h'
     /\ HolsteinModel.scheme h' = scheme'
     /\ HolsteinModel.periodic h' = false
     /\ HolsteinModel.mol_list h' = HolsteinModel.mol_list h
     /\ HolsteinModel.j_matrix h' = HolsteinModel.j_matrix h
     /\ HolsteinModel.map h' = HolsteinModel.map h
     /\ HolsteinModel.mol_num h' = HolsteinModel.mol_num h
     /\ model (HolsteinModel.to_Model h') = model (HolsteinModel.to_Model h)
     /\ dipole (HolsteinModel.to_Model h') = dipole (HolsteinModel.to_Model h))
  /\ (4 < scheme' ->
      switch_scheme h scheme'
      = Raise (ValueError ("invalid model.scheme: " +:+ pretty scheme'))).
Proof.
  intros Hinit.
  apply HolsteinModel_init_stages_inv in Hinit
    as (jm & m1 & m2 & m3 & self & lay & Hjm & _ & _ & Hm1 & Hm2 & Hm3 & Hself & ->).
  apply coupling_matrix_rows in Hjm as [Hlen _].
  unfold switch_scheme. cbn [HolsteinModel.mol_list HolsteinModel.j_matrix].
  assert (Hjm' : coupling_matrix (length ml) (JArray jm) false = Ok jm).
  { unfold coupling_matrix. rewrite !result_bind_Ok.
    by rewrite bool_decide_eq_true_2. }
  split.
  - intros Hs.
    destruct (HolsteinModel_init_stages (CacheKey := CacheKey) (Mpos := Mpos)
                ml (JArray jm) scheme' false jm m1 m2 m3 Hjm' Hs Hm1 Hm2 Hm3)
      as (self' & lay' & _ & Hself' & ->).
    eexists. split; [done|]. cbn.
    apply Model_init_list_basis in Hself as (_ & _ & -> & ->).
    apply Model_init_list_basis in Hself' as (_ & _ & -> & ->).
    done.
  - intros Hs.
    destruct (scheme_above_4_is_rejected (CacheKey := CacheKey) (Mpos := Mpos)
                ml (JArray jm) scheme' false Hs) as [_ Herr].
    apply Herr. rewrite Hjm'. by eexists.
Qed.

Lemma switch_scheme_keeps_terms_witness :
  exists h h' : @HolsteinModel.t string _ _ unit,
    HolsteinModel_init
      [example_mol [example_phonon 1%Qc 4]; example_mol [example_phonon 1%Qc 5]]
      (JQuantity (mkQuantity 1%Qc)) 2 true = Ok h
    /\ switch_scheme h 4 = Ok h'
    /\ HolsteinModel.periodic h = true
    /\ HolsteinModel.periodic h' = false
    /\ model (HolsteinModel.to_Model h') = model (HolsteinModel.to_Model h).
Proof.
  destruct (@HolsteinModel_init string _ _ unit
      [example_mol [example_phonon 1%Qc 4]; example_mol [example_phonon 1%Qc 5]]
      (JQuantity (mkQuantity 1%Qc)) 2 true) as [h|e] eqn:Hinit;
    [|vm_compute in Hinit; discriminate].
  destruct (proj1 (switch_scheme_keeps_terms _ _ _ _ h 4 Hinit))
    as (h' & Hsw & _ & Hp & _ & _ & _ & _ & Hm & _); [lia|].
  exists h, h'. split; [reflexivity|]. split; [exact Hsw|].
  split; [|split; [exact Hp | exact Hm]].
  vm_compute in Hinit. injection Hinit as <-. reflexivity.
Defined.

(** ** [gs_mps] and [pbond] of the phonon class *)

Lemma gs_tensor_negative_base (self : EphPhonon.Phonon) (b : bool) :
  EphPhonon.base self < 0 ->
  EphPhonon.gs_tensor self b
  = Raise (ValueError "negative dimensions are not allowed").
Proof.
  intros Hb. unfold EphPhonon.gs_tensor, EphPhonon.np_zeros3.
  rewrite decide_True by lia. done.
Qed.

Lemma Forall2_replicate_same {A B} (P : A -> B -> Prop) (n : nat) (x : A) (y : B) :
  P x y -> Forall2 P (replicate n x) (replicate n y).
Proof. intros Hxy. induction n as [|n IH]; simpl; by constructor. Qed.

(** X20.  [gs_mps] yields either one tensor per entry of [pbond], each of
    shape [(1, d, 1)] for the entry [d], or nothing at all: the latter only
    when there is at least one sub-site and [base] is negative
    ([ValueError]) or, without [max_entangled], [base] is 0 or 1
    ([IndexError]). *)
Theorem gs_mps_matches_pbond (self : EphPhonon.Phonon) (max_entangled : bool) :
  (exists tensors,
     EphPhonon.gs_mps self max_entangled = (tensors, None)
     /\ Forall2 (fun ms d => EphPhonon.has_shape3 ms 1 (Z.to_nat d) 1)
                tensors (pbond self))
  \/ (exists e,
        EphPhonon.gs_mps self max_entangled = ([], Some e)
        /\ 1 <= EphPhonon.nqboson self
        /\ ((EphPhonon.base self < 0
             /\ e = ValueError "negative dimensions are not allowed")
            \/ (max_entangled = false /\ 0 <= EphPhonon.base self <= 1
                /\ e = IndexError))).
Proof.
  unfold EphPhonon.gs_mps, pbond.
  destruct (Z.to_nat (EphPhonon.nqboson self)) as [|n] eqn:Hn.
  { left. exists []. split; [done | constructor]. }
  assert (Hq : 1 <= EphPhonon.nqboson self) by lia.
  destruct (decide (EphPhonon.base self < 0)) as [Hneg|Hpos].
  { right. eexists. split; [|split; [done | left; done]].
    apply gs_loop_Raise. by apply gs_tensor_negative_base. }
  destruct max_entangled.
  - left. eexists. split.
    + apply gs_loop_Ok. apply gs_tensor_entangled. lia.
    + apply Forall2_replicate_same. apply has_shape3_rows.
      * apply length_replicate.
      * apply Forall_forall. intros row Hrow%elem_of_replicate. by destruct Hrow as [-> _].
  - destruct (decide (2 <= EphPhonon.base self)) as [H2|H2].
    + left. eexists. split.
      * apply gs_loop_Ok. by apply gs_tensor_plain.
      * apply Forall2_replicate_same. apply has_shape3_rows.
        -- by rewrite length_insert, length_replicate.
        -- apply Forall_forall. intros row Hrow.
           apply list_elem_of_lookup_1 in Hrow as [i Hi].
           destruct (decide (i = 1%nat)) as [->|Hne].
           ++ rewrite list_lookup_insert_eq in Hi by (rewrite length_replicate; lia).
              by injection Hi as <-.
           ++ rewrite list_lookup_insert_ne in Hi by done.
              apply lookup_replicate in Hi as [-> _]. done.
    + right. eexists. split; [|split; [done | right; split; [done|]; split; [lia | done]]].
      apply gs_loop_Raise. apply gs_tensor_plain_out_of_bounds. lia.
Qed.

(** ** Where each DoF sits *)

Lemma n_modes_take_S (ml : list Mol.t) (imol : nat) (mol : Mol.t) :
  ml !! imol = Some mol ->
  n_modes (take (S imol) ml)
  = (n_modes (take imol ml) + length (Mol.ph_list mol))%nat.
Proof.
  revert imol. induction ml as [|m0 ml IH]; intros imol Hmol; [done|].
  destruct imol as [|imol].
  - injection Hmol as ->. cbn [take]. rewrite n_modes_cons, take_0.
    unfold n_modes. simpl. lia.
  - cbn [take]. rewrite !n_modes_cons. rewrite (IH imol Hmol). lia.
Qed.

Lemma n_modes_take_mono (ml : list Mol.t) (a b : nat) :
  (a <= b)%nat -> (n_modes (take a ml) <= n_modes (take b ml))%nat.
Proof.
  revert a b. induction ml as [|m0 ml IH]; intros a b Hab.
  - by rewrite !take_nil.
  - destruct a as [|a]; [rewrite take_0; unfold n_modes at 1; simpl; lia|].
    destruct b as [|b]; [lia|]. cbn [take]. rewrite !n_modes_cons.
    specialize (IH a b). lia.
Qed.

Lemma order123_elem (k idx nv j : nat) (mols : list Mol.t) (mol : Mol.t) :
  mols !! j = Some mol ->
  (dof_name "e" (k + j), Z.of_nat (idx + j + n_modes (take j mols)))
    ∈ order123 k idx nv mols
  /\ forall iph, (iph < length (Mol.ph_list mol))%nat ->
       (dof_name "v" (nv + n_modes (take j mols) + iph),
        Z.of_nat (idx + j + n_modes (take j mols) + 1 + iph))
         ∈ order123 k idx nv mols.
Proof.
  revert k idx nv j. induction mols as [|m0 mols IH]; intros k idx nv j Hj; [done|].
  cbn [order123]. destruct j as [|j].
  - injection Hj as ->. rewrite take_0. unfold n_modes. cbn [fmap list_fmap sum_list].
    rewrite !Nat.add_0_r. split; [by left|].
    intros iph Hiph. right. apply elem_of_app. left.
    apply list_elem_of_fmap. exists iph. split; [done|]. apply elem_of_seq. lia.
  - destruct (IH (S k) (idx + 1 + length (Mol.ph_list m0))%nat
                 (nv + length (Mol.ph_list m0))%nat j Hj) as [He Hv].
    cbn [take]. rewrite n_modes_cons. split.
    + right. apply elem_of_app. right.
      replace (k + S j)%nat with (S k + j)%nat by lia.
      replace (idx + S j + (length (Mol.ph_list m0) + n_modes (take j mols)))%nat
        with (idx + 1 + length (Mol.ph_list m0) + j + n_modes (take j mols))%nat by lia.
      exact He.
    + intros iph Hiph. right. apply elem_of_app. right.
      replace (nv + (length (Mol.ph_list m0) + n_modes (take j mols)) + iph)%nat
        with (nv + length (Mol.ph_list m0) + n_modes (take j mols) + iph)%nat by lia.
      replace (idx + S j + (length (Mol.ph_list m0) + n_modes (take j mols)) + 1 + iph)%nat
        with (idx + 1 + length (Mol.ph_list m0) + j + n_modes (take j mols) + 1 + iph)%nat
        by lia.
      by apply Hv.
Qed.

Lemma basis123_lookup (mols : list Mol.t) (j : nat) (mol : Mol.t) :
  mols !! j = Some mol ->
  basis123 mols !! (j + n_modes (take j mols))%nat = Some BasisSimpleElectron
  /\ forall iph ph, Mol.ph_list mol !! iph = Some ph ->
       basis123 mols !! (j + n_modes (take j mols) + 1 + iph)%nat
       = Some (sho_basis ph).
Proof.
  revert j. induction mols as [|m0 mols IH]; intros j Hj; [done|].
  unfold basis123. rewrite fmap_cons. cbn [concat]. cbn beta.
  fold (basis123 mols). cbn [app]. destruct j as [|j].
  - injection Hj as ->. rewrite take_0. unfold n_modes. cbn [fmap list_fmap sum_list].
    split; [done|]. intros iph ph Hph.
    replace (0 + 0 + 1 + iph)%nat with (S iph) by lia.
    change ((BasisSimpleElectron :: ?l) !! S iph) with (l !! iph).
    rewrite lookup_app_l by (rewrite length_fmap; by eapply lookup_lt_Some).
    by rewrite list_lookup_fmap, Hph.
  - destruct (IH j Hj) as [He Hv]. cbn [take]. rewrite n_modes_cons.
    assert (Hskip : forall i,
              (BasisSimpleElectron :: (sho_basis <$> Mol.ph_list m0) ++ basis123 mols)
                !! (S (length (Mol.ph_list m0)) + i)%nat
              = basis123 mols !! i).
    { intros i. cbn [Nat.add].
      change ((BasisSimpleElectron :: ?l) !! S ?n) with (l !! n).
      rewrite lookup_app_r by (rewrite length_fmap; lia).
      rewrite length_fmap. f_equal. lia. }
    split.
    + replace (S j + (length (Mol.ph_list m0) + n_modes (take j mols)))%nat
        with (S (length (Mol.ph_list m0)) + (j + n_modes (take j mols)))%nat by lia.
      by rewrite Hskip.
    + intros iph ph Hph.
      replace (S j + (length (Mol.ph_list m0) + n_modes (take j mols)) + 1 + iph)%nat
        with (S (length (Mol.ph_list m0)) + (j + n_modes (take j mols) + 1 + iph))%nat
        by lia.
      rewrite Hskip. by apply Hv.
Qed.

Lemma order4v_elem (nl k idx nv j iph : nat) (mols : list Mol.t) (mol : Mol.t) :
  mols !! j = Some mol -> (iph < length (Mol.ph_list mol))%nat ->
  (dof_name "v" (nv + n_modes (take j mols) + iph),
   if bool_decide (k + j < nl)%nat
   then Z.of_nat (idx + n_modes (take j mols) + iph)
   else Z.of_nat (idx + n_modes (take j mols) + iph) + 1)
    ∈ order4v nl k idx nv mols.
Proof.
  revert k idx nv j. induction mols as [|m0 mols IH]; intros k idx nv j Hj Hiph;
    [done|].
  cbn [order4v]. apply elem_of_app. destruct j as [|j].
  - injection Hj as ->. left. rewrite take_0. unfold n_modes.
    cbn [fmap list_fmap sum_list]. rewrite !Nat.add_0_r.
    apply list_elem_of_fmap. exists iph. split; [done|]. apply elem_of_seq. lia.
  - right. cbn [take]. rewrite n_modes_cons.
    replace (k + S j)%nat with (S k + j)%nat by lia.
    replace (nv + (length (Mol.ph_list m0) + n_modes (take j mols)) + iph)%nat
      with (nv + length (Mol.ph_list m0) + n_modes (take j mols) + iph)%nat by lia.
    replace (idx + (length (Mol.ph_list m0) + n_modes (take j mols)) + iph)%nat
      with (idx + length (Mol.ph_list m0) + n_modes (take j mols) + iph)%nat by lia.
    by apply IH.
Qed.

Lemma sho_concat_lookup (mols : list Mol.t) (j iph : nat) (mol : Mol.t) (ph : Phonon.t) :
  mols !! j = Some mol -> Mol.ph_list mol !! iph = Some ph ->
  concat ((fun mol => sho_basis <$> Mol.ph_list mol) <$> mols)
    !! (n_modes (take j mols) + iph)%nat
  = Some (sho_basis ph).
Proof.
  revert j. induction mols as [|m0 mols IH]; intros j Hj Hph; [done|].
  rewrite fmap_cons. cbn [concat]. cbn beta. destruct j as [|j].
  - injection Hj as ->. rewrite take_0.
    change (n_modes []) with 0%nat. rewrite Nat.add_0_l.
    rewrite lookup_app_l by (rewrite length_fmap; by eapply lookup_lt_Some).
    by rewrite list_lookup_fmap, Hph.
  - cbn [take]. rewrite n_modes_cons.
    rewrite lookup_app_r by (rewrite length_fmap; lia). rewrite length_fmap.
    replace (length (Mol.ph_list m0) + n_modes (take j mols) + iph
             - length (Mol.ph_list m0))%nat
      with (n_modes (take j mols) + iph)%nat by lia.
    by apply IH.
Qed.

(** X21.  For a scheme below 4 the sites follow the molecules: the
    electronic DoF of molecule [imol] sits at site [imol] plus the number of
    modes of the molecules before it, with the simple-electron basis, and the
    modes of the molecule follow on the next sites, each with the harmonic
    basis of its frequency [omega[0]] and its [n_phys_dim]. *)
Theorem schemes_below_4_interleave {CacheKey : Type} `{Countable CacheKey}
    {Mpos : Type} (ml : list Mol.t) (j : j_arg) (scheme : Z) (periodic : bool)
    (h : @HolsteinModel.t CacheKey _ _ Mpos) (imol : nat) (mol : Mol.t) :
  HolsteinModel_init ml j scheme periodic = Ok h ->
  scheme < 4 ->
  ml !! imol = Some mol ->
  let M := HolsteinModel.to_Model h in
  let first := n_modes (take imol ml) in
  let site := (imol + first)%nat in
  dict_get (dof_name "e" imol) (order M) = Some (Z.of_nat site)
  /\ basis M !! site = Some BasisSimpleElectron
  /\ forall iph ph, Mol.ph_list mol !! iph = Some ph ->
       dict_get (dof_name "v" (first + iph)) (order M)
       = Some (Z.of_nat (site + 1 + iph))
       /\ basis M !! (site + 1 + iph)%nat = Some (sho_basis ph).
Proof.
  intros Hinit Hs Hmol M first site. subst M.
  apply HolsteinModel_init_stages_inv in Hinit
    as (jm & m1 & m2 & m3 & self & lay & _ & _ & Hlay & _ & _ & _ & Hself & ->).
  unfold layout_of_scheme in Hlay. rewrite decide_True in Hlay by done.
  injection Hlay as <-. rewrite layout_scheme123_closed in Hself.
  cbn [lay_order lay_basis] in Hself.
  apply Model_init_list_basis in Hself as (Ho & Hb & _ & _).
  cbn [HolsteinModel.to_Model]. rewrite Ho, Hb.
  destruct (order123_elem 0 0 0 imol ml mol Hmol) as [He Hv].
  destruct (basis123_lookup ml imol mol Hmol) as [Hbe Hbv].
  split; [|split; [exact Hbe|]].
  - apply dict_get_elem_of; [apply order123_NoDup | exact He].
  - intros iph ph Hph. split; [|by apply Hbv].
    apply dict_get_elem_of; [apply order123_NoDup|].
    apply (Hv iph). by eapply lookup_lt_Some.
Qed.

Lemma schemes_below_4_interleave_witness :
  exists h : @HolsteinModel.t string _ _ unit,
    HolsteinModel_init
      [example_mol [example_phonon 1%Qc 4; example_phonon 1%Qc 3];
       example_mol [example_phonon 1%Qc 5]]
      (JQuantity (mkQuantity 1%Qc)) 2 false = Ok h
    /\ dict_get "e_1" (order (HolsteinModel.to_Model h)) = Some 3
    /\ basis (HolsteinModel.to_Model h) !! 3%nat = Some BasisSimpleElectron.
Proof.
  destruct (@HolsteinModel_init string _ _ unit
      [example_mol [example_phonon 1%Qc 4; example_phonon 1%Qc 3];
       example_mol [example_phonon 1%Qc 5]]
      (JQuantity (mkQuantity 1%Qc)) 2 false) as [h|e] eqn:Hinit;
    [|vm_compute in Hinit; discriminate].
  exists h. split; [reflexivity|].
  destruct (schemes_below_4_interleave _ _ _ _ h 1%nat
              (example_mol [example_phonon 1%Qc 5]) Hinit) as (He & Hb & _);
    [lia | reflexivity |].
  split; [exact He | exact Hb].
Defined.

Lemma order4_NoDup (ml : list Mol.t) (site : Z) :
  NoDup (dict_keys (order4v (length ml / 2) 0 0 0 ml
                    ++ ((fun imol => (dof_name "e" imol, site)) <$> seq 0 (length ml)))).
Proof.
  unfold dict_keys. rewrite fmap_app.
  change ((order4v (length ml / 2) 0 0 0 ml).*1)
    with (dict_keys (order4v (length ml / 2) 0 0 0 ml)).
  rewrite order4v_keys, <- list_fmap_compose.
  apply NoDup_app. split; [|split].
  - apply NoDup_fmap_2; [|apply NoDup_seq].
    intros i j Hij. by apply (dn_inj ("v", i) ("v", j)) in Hij; [injection Hij|auto..].
  - intros x [i [-> _]]%list_elem_of_fmap [j [Hij _]]%list_elem_of_fmap.
    simpl in Hij. by apply (dn_inj ("v", i) ("e", j)) in Hij; [|auto..].
  - apply NoDup_fmap_2; [|apply NoDup_seq].
    intros i j Hij. simpl in Hij.
    by apply (dn_inj ("e", i) ("e", j)) in Hij; [injection Hij|auto..].
Qed.

(** X22.  For scheme 4 the mode [v_g] of a molecule in the first half
    ([imol < mol_num // 2]) sits at site [g], left of the electronic site,
    and the mode of a molecule in the second half at site [g + 1], right of
    it; either way the site carries the harmonic basis of that mode. *)
Theorem scheme4_places_modes {CacheKey : Type} `{Countable CacheKey}
    {Mpos : Type} (ml : list Mol.t) (j : j_arg) (periodic : bool)
    (h : @HolsteinModel.t CacheKey _ _ Mpos) (imol iph : nat) (mol : Mol.t)
    (ph : Phonon.t) :
  HolsteinModel_init ml j 4 periodic = Ok h ->
  ml !! imol = Some mol ->
  Mol.ph_list mol !! iph = Some ph ->
  let M := HolsteinModel.to_Model h in
  let g := (n_modes (take imol ml) + iph)%nat in
  let e_site := n_modes (take (length ml / 2) ml) in
  let site := if decide (imol < length ml / 2)%nat then g else S g in
  dict_get (dof_name "v" g) (order M) = Some (Z.of_nat site)
  /\ basis M !! site = Some (sho_basis ph)
  /\ (if decide (imol < length ml / 2)%nat
      then (site < e_site)%nat else (e_site < site)%nat).
Proof.
  intros Hinit Hmol Hph M g e_site site. subst M.
  apply HolsteinModel_init_stages_inv in Hinit
    as (jm & m1 & m2 & m3 & self & lay & _ & _ & Hlay & _ & _ & _ & Hself & ->).
  unfold layout_of_scheme in Hlay.
  rewrite decide_False, decide_True in Hlay by lia.
  injection Hlay as <-. rewrite layout_scheme4_closed in Hself.
  cbn [lay_order lay_basis] in Hself. cbn zeta in Hself.
  apply Model_init_list_basis in Hself as (Ho & Hb & _ & _).
  cbn [HolsteinModel.to_Model]. rewrite Ho, Hb. fold e_site.
  assert (Hiph : (iph < length (Mol.ph_list mol))%nat) by (by eapply lookup_lt_Some).
  pose proof (n_modes_take_S ml imol mol Hmol) as HS.
  pose proof (sho_concat_lookup ml imol iph mol ph Hmol Hph) as Hvb. fold g in Hvb.
  pose proof (n_modes_take_le (length ml / 2) ml) as Hle. fold e_site in Hle.
  rewrite <- n_modes_concat in Hle.
  assert (Hside : if decide (imol < length ml / 2)%nat
                  then (g < e_site)%nat else (e_site <= g)%nat).
  { case_decide as Hlt.
    - pose proof (n_modes_take_mono ml (S imol) (length ml / 2) ltac:(lia)).
      unfold g, e_site. lia.
    - pose proof (n_modes_take_mono ml (length ml / 2) imol ltac:(lia)).
      unfold g, e_site. lia. }
  split; [|split].
  - apply dict_get_elem_of; [apply order4_NoDup|]. apply elem_of_app. left.
    pose proof (order4v_elem (length ml / 2) 0 0 0 imol iph ml mol Hmol Hiph) as Hel.
    cbn [Nat.add] in Hel. fold g in Hel. unfold site.
    destruct (decide (imol < length ml / 2)%nat) as [Hlt|Hge].
    + by rewrite bool_decide_eq_true_2 in Hel.
    + rewrite bool_decide_eq_false_2 in Hel by done.
      by replace (Z.of_nat (S g)) with (Z.of_nat g + 1) by lia.
  - unfold list_insert_at, site.
    destruct (decide (imol < length ml / 2)%nat) as [Hlt|Hge].
    + rewrite lookup_app_l by (rewrite length_take; lia).
      by rewrite lookup_take_lt.
    + rewrite lookup_app_r by (rewrite length_take; lia).
      rewrite length_take.
      replace (S g - e_site `min` length
                 (concat ((fun mol0 => sho_basis <$> Mol.ph_list mol0) <$> ml)))%nat
        with (S (g - e_site)) by lia.
      change ((BasisMultiElectronVac (length ml) :: ?l) !! S ?n) with (l !! n).
      rewrite lookup_drop. by replace (e_site + (g - e_site))%nat with g by lia.
  - unfold site. destruct (decide (imol < length ml / 2)%nat); lia.
Qed.

Lemma scheme4_places_modes_witness :
  exists h : @HolsteinModel.t string _ _ unit,
    HolsteinModel_init
      [example_mol [example_phonon 1%Qc 4; example_phonon 1%Qc 3];
       example_mol [example_phonon 1%Qc 5]]
      (JQuantity (mkQuantity 1%Qc)) 4 false = Ok h
    /\ dict_get "v_2" (order (HolsteinModel.to_Model h)) = Some 3
    /\ basis (HolsteinModel.to_Model h) !! 3%nat = Some (BasisSHO 1%Qc 5).
Proof.
  destruct (@HolsteinModel_init string _ _ unit
      [example_mol [example_phonon 1%Qc 4; example_phonon 1%Qc 3];
       example_mol [example_phonon 1%Qc 5]]
      (JQuantity (mkQuantity 1%Qc)) 4 false) as [h|e] eqn:Hinit;
    [|vm_compute in Hinit; discriminate].
  exists h. split; [reflexivity|].
  destruct (scheme4_places_modes _ _ _ h 1%nat 0%nat
              (example_mol [example_phonon 1%Qc 5]) (example_phonon 1%Qc 5)
              Hinit eq_refl eq_refl) as (Ho & Hb & _).
  split; [exact Ho | exact Hb].
Defined.

(** ** The terms of the Holstein Hamiltonian *)

Lemma concat_fmap_singleton {A B} (f : A -> B) (l : list A) :
  concat ((fun x => [f x]) <$> l) = f <$> l.
Proof. induction l as [|x l IH]; [done|]. rewrite !fmap_cons. simpl. by rewrite IH. Qed.

Lemma for_each_update {K V A : Type} `{EqDecision K}
    (body : pydict K V -> A -> result (pydict K V)) (ws : A -> list (K * V))
    (l : list A) :
  (forall m x m', x ∈ l -> body m x = Ok m' -> m' = dict_update (ws x) m) ->
  forall d0 d, for_each body l d0 = Ok d -> d = dict_update (concat (ws <$> l)) d0.
Proof.
  induction l as [|x l IH]; intros Hbody d0 d Hrun.
  - by injection Hrun as <-.
  - cbn [for_each] in Hrun. apply bind_Ok_inv in Hrun as [d1 [Hx Hrun]].
    rewrite fmap_cons. cbn [concat]. rewrite dict_update_app.
    rewrite <- (Hbody d0 x d1 ltac:(by left) Hx).
    apply IH; [|done]. intros m y m' Hy. apply Hbody. by right.
Qed.

Lemma for_each_Ok_inv {A S} (body : S -> A -> result S) (l : list A) (s0 s : S)
    (x : A) :
  for_each body l s0 = Ok s -> x ∈ l -> exists m m', body m x = Ok m'.
Proof.
  revert s0. induction l as [|y l IH]; intros s0 Hrun Hx.
  - by apply elem_of_nil in Hx.
  - cbn [for_each] in Hrun. apply bind_Ok_inv in Hrun as [s1 [Hy Hrun]].
    apply elem_of_cons in Hx as [->|Hx]; [by exists s0, s1 | by eapply IH].
Qed.

Lemma dict_get_update_notin {K V : Type} `{EqDecision K} (kvs : list (K * V))
    (d : pydict K V) (k : K) :
  k ∉ kvs.*1 -> dict_get k (dict_update kvs d) = dict_get k d.
Proof.
  revert d. induction kvs as [|[k0 v0] kvs IH]; intros d Hk; [done|].
  rewrite fmap_cons in Hk. apply not_elem_of_cons in Hk as [Hne Hk].
  cbn [dict_update fold_left fst snd]. fold (dict_update kvs (dict_set k0 v0 d)).
  rewrite IH by done. by apply dict_get_set_ne.
Qed.

Lemma dict_get_update_same {K V : Type} `{EqDecision K} (kvs : list (K * V))
    (d : pydict K V) (k : K) (v : V) :
  (k, v) ∈ kvs -> (forall v', (k, v') ∈ kvs -> v' = v) ->
  dict_get k (dict_update kvs d) = Some v.
Proof.
  revert d. induction kvs as [|[k0 v0] kvs IH]; intros d Hin Hsame.
  - by apply elem_of_nil in Hin.
  - cbn [dict_update fold_left fst snd]. fold (dict_update kvs (dict_set k0 v0 d)).
    destruct (decide (k ∈ kvs.*1)) as [Hk|Hk].
    + apply list_elem_of_fmap in Hk as [[k1 v1] [Hk1 Hin1]]. simpl in Hk1. subst k1.
      assert (v1 = v) as -> by (apply Hsame; by right).
      apply IH; [done|]. intros v' Hv'. apply Hsame. by right.
    + rewrite dict_get_update_notin by done.
      apply elem_of_cons in Hin as [[= <- <-]|Hin].
      * apply dict_get_set_eq.
      * exfalso. apply Hk. apply list_elem_of_fmap. by exists (k, v).
Qed.

Lemma electronic_terms_update (ml : list Mol.t) (jm : ndarray2)
    (m0 m1 : pydict (list string) (list term)) :
  electronic_terms ml jm m0 = Ok m1 -> m1 = dict_update (el_writes ml jm) m0.
Proof.
  unfold electronic_terms, el_writes.
  apply (for_each_update _ (fun i => el_write ml jm i <$> seq 0 (length ml))).
  intros m imol m' _ Hinner.
  rewrite <- (concat_fmap_singleton (el_write ml jm imol)).
  revert Hinner. apply for_each_update. clear. intros m jmol m' _ Hbody.
  unfold el_write. simpl. destruct (decide (imol = jmol)) as [->|Hne].
  - destruct (py_list_get ml (Z.of_nat jmol)) as [mol|e]; [|discriminate].
    by injection Hbody as <-.
  - destruct (mat_get jm (Z.of_nat imol) (Z.of_nat jmol)) as [c|e]; [|discriminate].
    by injection Hbody as <-.
Qed.

Lemma vibration_terms_update (ml : list Mol.t)
    (m0 m1 : pydict (list string) (list term)) :
  vibration_terms ml (mapping_of 0 0 ml) m0 = Ok m1 ->
  m1 = dict_update (vib_writes ml) m0.
Proof.
  unfold vibration_terms, vib_writes.
  apply (for_each_update _
           (fun x : nat * Mol.t =>
              (fun y : nat * Phonon.t => ([mode_name ml x.1 y.1], harmonic_terms y.2))
                <$> enumerate (Mol.ph_list x.2))).
  intros m [imol mol] m' Hmol Hinner. cbn [fst snd].
  apply enumerate_from_inv in Hmol as (i & -> & Hmol). cbn [Nat.add] in *.
  rewrite <- (concat_fmap_singleton
                (fun y : nat * Phonon.t => ([mode_name ml i y.1], harmonic_terms y.2))).
  revert Hinner. apply for_each_update. intros m1' [iph ph] m2' Hph Hbody.
  apply enumerate_from_inv in Hph as (i' & -> & Hph). cbn [Nat.add] in *.
  apply bind_Ok_inv in Hbody as [[] [_ Hbody]].
  apply bind_Ok_inv in Hbody as [w0sq [[_ ->]%py_float_sq_Ok_inv Hbody]].
  unfold dict_getitem in Hbody.
  rewrite (mapping_of_lookup ml i i' mol Hmol) in Hbody
    by (by eapply lookup_lt_Some).
  rewrite result_bind_Ok in Hbody. by injection Hbody as <-.
Qed.

Lemma potential_terms_update (ml : list Mol.t)
    (m0 m1 : pydict (list string) (list term)) :
  potential_terms ml (mapping_of 0 0 ml) m0 = Ok m1 ->
  m1 = dict_update (pot_writes ml) m0.
Proof.
  unfold potential_terms, pot_writes.
  apply (for_each_update _
           (fun x : nat * Mol.t =>
              (fun y : nat * Phonon.t =>
                 ([dof_name "e" x.1; mode_name ml x.1 y.1], coupling_terms y.2))
                <$> enumerate (Mol.ph_list x.2))).
  intros m [imol mol] m' Hmol Hinner. cbn [fst snd].
  apply enumerate_from_inv in Hmol as (i & -> & Hmol). cbn [Nat.add] in *.
  rewrite <- (concat_fmap_singleton
                (fun y : nat * Phonon.t =>
                   ([dof_name "e" i; mode_name ml i y.1], coupling_terms y.2))).
  revert Hinner. apply for_each_update. intros m1' [iph ph] m2' Hph Hbody.
  apply enumerate_from_inv in Hph as (i' & -> & Hph). cbn [Nat.add] in *.
  unfold dict_getitem in Hbody.
  rewrite (mapping_of_lookup ml i i' mol Hmol) in Hbody
    by (by eapply lookup_lt_Some).
  unfold coupling_terms. cbn [fst snd dict_update fold_left]. cbv zeta in Hbody.
  destruct (np_isclose _ _).
  - apply bind_Ok_inv in Hbody as [w1sq [[_ ->]%py_float_sq_Ok_inv Hbody]].
    rewrite result_bind_Ok in Hbody. by injection Hbody as <-.
  - apply bind_Ok_inv in Hbody as [w1sq [[_ ->]%py_float_sq_Ok_inv Hbody]].
    apply bind_Ok_inv in Hbody as [w0sq [[_ ->]%py_float_sq_Ok_inv Hbody]].
    rewrite result_bind_Ok in Hbody. by injection Hbody as <-.
Qed.

Lemma enumerate_from_lookup {A} (l : list A) (start j : nat) (x : A) :
  l !! j = Some x -> ((start + j)%nat, x) ∈ enumerate_from start l.
Proof.
  revert start j. induction l as [|y l IH]; intros start j Hj; [done|].
  cbn [enumerate_from]. destruct j as [|j].
  - injection Hj as ->. rewrite Nat.add_0_r. by left.
  - right. replace (start + S j)%nat with (S start + j)%nat by lia. by apply IH.
Qed.

Lemma elem_of_enumerate {A} (l : list A) (i : nat) (x : A) :
  (i, x) ∈ enumerate l <-> l !! i = Some x.
Proof.
  split.
  - intros (j & -> & Hj)%enumerate_from_inv. done.
  - intros Hi. exact (enumerate_from_lookup l 0 i x Hi).
Qed.

Lemma dof_name_inj (p q : string) (i j : nat) :
  p = "e" \/ p = "v" -> q = "e" \/ q = "v" ->
  dof_name p i = dof_name q j -> p = q /\ i = j.
Proof.
  intros Hp Hq Heq. apply (dn_inj (p, i) (q, j)) in Heq; [|done..].
  by injection Heq.
Qed.

Lemma key1_inj {A} (a b : A) : [a] = [b] -> a = b.
Proof. congruence. Qed.

Lemma key2_inj {A} (a b c d : A) : [a; b] = [c; d] -> a = c /\ b = d.
Proof. intros Heq. split; congruence. Qed.

Lemma mode_index_inj (ml : list Mol.t) (i i' iph iph' : nat) (mol mol' : Mol.t) :
  ml !! i = Some mol -> (iph < length (Mol.ph_list mol))%nat ->
  ml !! i' = Some mol' -> (iph' < length (Mol.ph_list mol'))%nat ->
  (n_modes (take i ml) + iph = n_modes (take i' ml) + iph')%nat ->
  i = i' /\ iph = iph'.
Proof.
  intros Hi Hiph Hi' Hiph' Heq.
  pose proof (n_modes_take_S ml i mol Hi) as HS.
  pose proof (n_modes_take_S ml i' mol' Hi') as HS'.
  destruct (decide (i = i')) as [->|Hne]; [split; [done | lia]|].
  exfalso. destruct (decide (i < i')%nat) as [Hlt|Hge].
  - pose proof (n_modes_take_mono ml (S i) i' ltac:(lia)). lia.
  - pose proof (n_modes_take_mono ml (S i') i ltac:(lia)). lia.
Qed.

Lemma mode_name_inj (ml : list Mol.t) (i i' iph iph' : nat) (mol mol' : Mol.t) :
  ml !! i = Some mol -> (iph < length (Mol.ph_list mol))%nat ->
  ml !! i' = Some mol' -> (iph' < length (Mol.ph_list mol'))%nat ->
  mode_name ml i iph = mode_name ml i' iph' -> i = i' /\ iph = iph'.
Proof.
  intros Hi Hiph Hi' Hiph' Heq. unfold mode_name in Heq.
  apply dof_name_inj in Heq as [_ Heq]; [|auto..].
  by eapply mode_index_inj.
Qed.

Lemma el_writes_elem (ml : list Mol.t) (jm : ndarray2) (kv : list string * list term) :
  kv ∈ el_writes ml jm
  <-> exists i j, (i < length ml)%nat /\ (j < length ml)%nat /\ kv = el_write ml jm i j.
Proof.
  unfold el_writes. split.
  - intros Hin. apply elem_of_concat_inv in Hin as [row [Hin Hrow]].
    apply list_elem_of_fmap in Hrow as [i [-> Hi%elem_of_seq]].
    apply list_elem_of_fmap in Hin as [j [-> Hj%elem_of_seq]].
    exists i, j. repeat split; lia.
  - intros (i & j & Hi & Hj & ->).
    apply (elem_of_concat_intro _ (el_write ml jm i <$> seq 0 (length ml))).
    + apply list_elem_of_fmap. exists j. split; [done|]. apply elem_of_seq. lia.
    + apply list_elem_of_fmap. exists i. split; [done|]. apply elem_of_seq. lia.
Qed.

Lemma mode_writes_elem {B} (ml : list Mol.t) (f : nat -> nat -> Phonon.t -> B) (b : B) :
  b ∈ concat ((fun x : nat * Mol.t =>
                 (fun y : nat * Phonon.t => f x.1 y.1 y.2)
                   <$> enumerate (Mol.ph_list x.2))
                <$> enumerate ml)
  <-> exists imol mol iph ph,
        ml !! imol = Some mol /\ Mol.ph_list mol !! iph = Some ph
        /\ b = f imol iph ph.
Proof.
  split.
  - intros Hin. apply elem_of_concat_inv in Hin as [row [Hin Hrow]].
    apply list_elem_of_fmap in Hrow as [[imol mol] [-> Hmol%elem_of_enumerate]].
    apply list_elem_of_fmap in Hin as [[iph ph] [-> Hph%elem_of_enumerate]].
    by exists imol, mol, iph, ph.
  - intros (imol & mol & iph & ph & Hmol & Hph & ->).
    apply (elem_of_concat_intro _
             ((fun y : nat * Phonon.t => f imol y.1 y.2)
                <$> enumerate (Mol.ph_list mol))).
    + apply list_elem_of_fmap. exists (iph, ph). split; [done|].
      by apply elem_of_enumerate.
    + apply list_elem_of_fmap. exists (imol, mol). split; [done|].
      by apply elem_of_enumerate.
Qed.

Lemma dipole_of_update (ml : list Mol.t) :
  dipole_of ml
  = dict_update ((fun x : nat * Mol.t => ([dof_name "e" x.1], Mol.dipole x.2))
                   <$> enumerate ml) [].
Proof.
  unfold dipole_of, dict_update. generalize (@nil (list string * Qc)).
  generalize (enumerate ml). intros l. induction l as [|[i mol] l IH]; intros d; [done|].
  rewrite fmap_cons. cbn [fold_left fst snd]. apply IH.
Qed.



(** ** [e_dofs] and [v_dofs] on well-formed names *)

(** X24.  On a model whose DoFs are all named [e_<i>] or [v_<i>], [e_dofs]
    returns [e_0 .. e_{n-1}], [n] being the number of electronic DoFs, exactly
    when the indices of the electronic DoFs are [0 .. n-1] in some sequence,
    and raises [AssertionError] otherwise; [n_edofs] is then [n].  The same
    holds for [v_dofs] and [n_vdofs] with the vibrational DoFs. *)
Theorem named_dofs_are_checked {CacheKey : Type} `{Countable CacheKey}
    {Mpos : Type} (self : @Model CacheKey _ _ Mpos) (pl : list (string * nat)) :
  dofs self = dn <$> pl ->
  Forall (fun x => x.1 = "e" \/ x.1 = "v") pl ->
  let e_idx := (filter (fun x => x.1 = "e") pl).*2 in
  let v_idx := (filter (fun x => x.1 = "v") pl).*2 in
  (e_idx ≡ₚ seq 0 (length e_idx) ->
   e_dofs self = Ok (dof_name "e" <$> seq 0 (length e_idx))
   /\ n_edofs self = Ok (length e_idx))
  /\ (~ e_idx ≡ₚ seq 0 (length e_idx) ->
      e_dofs self = Raise AssertionError /\ n_edofs self = Raise AssertionError)
  /\ (v_idx ≡ₚ seq 0 (length v_idx) ->
      v_dofs self = Ok (dof_name "v" <$> seq 0 (length v_idx))
      /\ n_vdofs self = Ok (length v_idx))
  /\ (~ v_idx ≡ₚ seq 0 (length v_idx) ->
      v_dofs self = Raise AssertionError /\ n_vdofs self = Raise AssertionError).
Proof.
  intros Hkeys Hkinds e_idx v_idx. unfold dofs in Hkeys.
  destruct (dofs_of_kind_named "e" self pl (or_introl eq_refl) Hkeys Hkinds)
    as [Heok Hebad].
  destruct (dofs_of_kind_named "v" self pl (or_intror eq_refl) Hkeys Hkinds)
    as [Hvok Hvbad].
  fold e_idx in Heok, Hebad. fold v_idx in Hvok, Hvbad.
  unfold n_edofs, n_vdofs, e_dofs, v_dofs.
  split; [|split; [|split]].
  - intros Hperm. rewrite (Heok Hperm). split; [done|].
    cbn. by rewrite length_fmap, length_seq.
  - intros Hperm. by rewrite (Hebad Hperm).
  - intros Hperm. rewrite (Hvok Hperm). split; [done|].
    cbn. by rewrite length_fmap, length_seq.
  - intros Hperm. by rewrite (Hvbad Hperm).
Qed.

Lemma named_dofs_are_checked_witness :
  exists m : @Model string _ _ unit,
    Model_init (OrderList ["v_1"; "e_0"; "v_0"; "e_2"])
      (BasisList [BasisSHO 1%Qc 4; BasisSimpleElectron; BasisSHO 1%Qc 4;
                  BasisSimpleElectron]) [] None = Ok m
    /\ e_dofs m = Raise AssertionError
    /\ v_dofs m = Ok ["v_0"; "v_1"].
Proof.
  destruct (@Model_init string _ _ unit (OrderList ["v_1"; "e_0"; "v_0"; "e_2"])
      (BasisList [BasisSHO 1%Qc 4; BasisSimpleElectron; BasisSHO 1%Qc 4;
                  BasisSimpleElectron]) [] None) as [m|e] eqn:Hinit;
    [|vm_compute in Hinit; discriminate].
  exists m. split; [reflexivity|].
  assert (Hd : dofs m = dn <$> [("v", 1%nat); ("e", 0%nat); ("v", 0%nat); ("e", 2%nat)]).
  { vm_compute in Hinit. injection Hinit as <-. reflexivity. }
  assert (Hk : Forall (fun x : string * nat => x.1 = "e" \/ x.1 = "v")
                 [("v", 1%nat); ("e", 0%nat); ("v", 0%nat); ("e", 2%nat)]).
  { do 4 (apply List.Forall_cons; [simpl; auto|]). apply List.Forall_nil. }
  destruct (named_dofs_are_checked m
              [("v", 1%nat); ("e", 0%nat); ("v", 0%nat); ("e", 2%nat)] Hd Hk)
    as (_ & Hebad & Hvok & _).
  split.
  - apply Hebad. simpl. intros Hperm.
    assert (Hin : 2%nat ∈ [0%nat; 1%nat]).
    { rewrite <- Hperm. right. by left. }
    apply elem_of_cons in Hin as [Hin|Hin]; [discriminate|].
    apply list_elem_of_singleton in Hin. discriminate.
  - apply Hvok. simpl. apply Permutation_swap.
Defined.
